(** * Chratos node: account codec, elections, vote and block ingress, peers

    A shallow embedding of the parts of the chratos node that its design
    document makes promises about, together with the proofs (or refutations)
    of those promises.

    - [Numbers]: [chratos/lib/numbers.cpp], the account string codec.
    - [Election], [Active], [VoteProcessor]: per-root elections, the active
      set and the vote ingress of the node.
    - [BlockProcessor]: the block ingress queue.
    - [Peers]: the peer container (SYN cookies, per-IP caps).
    - [GapCache]: the gap cache and its bootstrap threshold.

    Unsigned machine integers are [Z] with the wrap-around written out,
    [std::unordered_map] is [gmap], [std::deque] is [list].  The C++
    convention that a [bool] result of [true] means "error" is kept. *)

From Stdlib Require Import ZArith Lia List Bool.
From Stdlib Require Import Strings.String Strings.Ascii Strings.Byte.
From stdpp Require Import gmap.
Import ListNotations.

Local Open Scope Z_scope.

(** ** Fixed-width unsigned arithmetic *)

Definition wrap (w : Z) (z : Z) : Z := z mod 2 ^ w.

(** [static_cast<uint8_t>] *)
Definition uint8 (z : Z) : byte :=
  match Byte.of_N (Z.to_N (z mod 256)) with
  | Some b => b
  | None => x00
  end.

Definition byte_val (b : byte) : Z := Z.of_N (Byte.to_N b).

Definition char_code (c : ascii) : Z := Z.of_N (N_of_ascii c).

(** The value of a digit string read least significant digit first. *)
Fixpoint le_value (base : Z) (bs : list byte) : Z :=
  match bs with
  | [] => 0
  | b :: bs' => byte_val b + base * le_value base bs'
  end.

(** Digits of [x] in base [2 ^ k], least significant first. *)
Fixpoint le_digits (k : Z) (n : nat) (x : Z) : list byte :=
  match n with
  | O => []
  | S n' => uint8 (x mod 2 ^ k) :: le_digits k n' (x / 2 ^ k)
  end.

(** * numbers.cpp *)

Module Numbers.

(** [chratos::uint256_union]: 32 bytes, big-endian. *)
Record uint256_union := { bytes : list byte }.

Definition account_lookup : list ascii :=
  list_ascii_of_string "13456789abcdefghijkmnopqrstuwxyz".

Definition account_reverse : list ascii :=
  list_ascii_of_string
    "~0~1234567~~~~~~~~~~~~~~~~~~~~~~~~~~~~~~~~~~~~~~~89:;<=>?@AB~CDEFGHIJK~LMNO~~~~~".

(** [account_encode]: [account_lookup[value]]. *)
Definition account_encode (value : byte) : ascii :=
  nth (Z.to_nat (byte_val value)) account_lookup zero.

(** [account_decode]: [account_reverse[value - 0x30] - 0x30], returned as a
    [uint8_t]. *)
Definition account_decode (value : Z) : Z :=
  byte_val (uint8 (char_code (nth (Z.to_nat (value - 0x30)) account_reverse zero) - 0x30)).

(** [uint256_union::number]: the bytes read most significant first. *)
Definition number (u : uint256_union) : Z :=
  fst (fold_left
         (fun (st : Z * Z) (i : byte) =>
            let '(result, shift) := st in
            (Z.lor (wrap 256 (Z.shiftl result shift)) (byte_val i), 8))
         (bytes u) (0, 0)).

(** The loop of [uint256_union (uint256_t const &)]: it walks the bytes from
    the last to the first. *)
Fixpoint fill_rbegin (n : nat) (number_l : Z) : list byte :=
  match n with
  | O => []
  | S n' => uint8 (Z.land number_l 0xff) :: fill_rbegin n' (Z.shiftr number_l 8)
  end.

Definition of_number (number_a : Z) : uint256_union :=
  {| bytes := rev (fill_rbegin 32 number_a) |}.

(** The sixty iterations of [encode_account]: five bits at a time, least
    significant digit first. *)
Fixpoint encode_loop (n : nat) (number_l : Z) (destination_a : list ascii) : list ascii :=
  match n with
  | O => destination_a
  | S n' =>
      let r := uint8 (Z.land number_l 0x1f) in
      encode_loop n' (Z.shiftr number_l 5) (destination_a ++ [account_encode r])
  end.

(** The digit loop of [decode_account]; [None] is [error = true]. *)
Fixpoint decode_loop (i : list ascii) (number_l : Z) : option Z :=
  match i with
  | [] => Some number_l
  | c :: i' =>
      let character := char_code c in
      if (character <? 0x30) || (character >=? 0x80) then None
      else
        let byte := account_decode character in
        if byte =? char_code "~" then None
        else decode_loop i' (wrap 512 (wrap 512 (Z.shiftl number_l 5) + byte))
  end.



(** The symbols of the base-32 alphabet. *)
Definition in_alphabet (c : ascii) : Prop := In c account_lookup.


Section Codec.

(** The BLAKE2b library is an external dependency of the repository:
    [blake2b outlen input] stands for [blake2b_init], [blake2b_update],
    [blake2b_final] with a digest of [outlen] bytes. *)
Variable blake2b : nat -> list byte -> list byte.

(** The five digest bytes are written at the address of a zero-initialised
    [uint64_t] and read back as a little-endian integer. *)
Definition account_check (u : uint256_union) : Z :=
  le_value 256 (firstn 5 (blake2b 5 (bytes u))).

Definition encode_account (a : uint256_union) : string :=
  let check := account_check a in
  let number_l := number a in
  let number_l := wrap 512 (Z.shiftl number_l 40) in
  let number_l := Z.lor number_l check in
  let destination_a := encode_loop 60 number_l [] in
  let destination_a := destination_a ++ list_ascii_of_string "_rhc" in
  string_of_list_ascii (rev destination_a).

Definition to_account (a : uint256_union) : string := encode_account a.

(** [decode_account] returns the error flag and the receiver, which is
    overwritten as soon as all digits were read. *)
Definition decode_account (this : uint256_union) (source_a : string)
  : bool * uint256_union :=
  let s := list_ascii_of_string source_a in
  let size := length s in
  let at_ (k : nat) := nth k s zero in
  if (size <? 5)%nat then (true, this)
  else
    let chr_prefix :=
      Ascii.eqb (at_ 0%nat) "c" && Ascii.eqb (at_ 1%nat) "h" && Ascii.eqb (at_ 2%nat) "r"
      && (Ascii.eqb (at_ 3%nat) "_" || Ascii.eqb (at_ 3%nat) "-") in
    let nano_prefix :=
      Ascii.eqb (at_ 0%nat) "n" && Ascii.eqb (at_ 1%nat) "a" && Ascii.eqb (at_ 2%nat) "n"
      && Ascii.eqb (at_ 3%nat) "o"
      && (Ascii.eqb (at_ 4%nat) "_" || Ascii.eqb (at_ 4%nat) "-") in
    if (chr_prefix && negb (size =? 64)%nat) || (nano_prefix && negb (size =? 65)%nat)
    then (true, this)
    else if chr_prefix || nano_prefix then
      let i := if chr_prefix then 4%nat else 5%nat in
      if Ascii.eqb (at_ i) "1" || Ascii.eqb (at_ i) "3" then
        match decode_loop (skipn i s) 0 with
        | None => (true, this)
        | Some number_l =>
            let this' := of_number (wrap 256 (Z.shiftr number_l 40)) in
            let check := Z.land number_l 0xffffffffff in
            let validation := account_check this' in
            (negb (check =? validation), this')
        end
      else (true, this)
    else (true, this).

End Codec.

End Numbers.

(** * BLAKE2b

    The codec links against the BLAKE2 reference library, which is not part
    of the repository.  The function below follows RFC 7693 (unkeyed
    BLAKE2b); it is only used to run the codec on concrete account strings,
    every theorem about the codec holds for an arbitrary hash function. *)

Module Blake2b.

Definition u64 (z : Z) : Z := z mod 2 ^ 64.

Definition rotr64 (x n : Z) : Z :=
  Z.lor (Z.shiftr x n) (u64 (Z.shiftl x (64 - n))).

Definition IV : list Z :=
  [0x6a09e667f3bcc908; 0xbb67ae8584caa73b; 0x3c6ef372fe94f82b; 0xa54ff53a5f1d36f1;
   0x510e527fade682d1; 0x9b05688c2b3e6c1f; 0x1f83d9abfb41bd6b; 0x5be0cd19137e2179].

Definition SIGMA : list (list nat) :=
  [[0; 1; 2; 3; 4; 5; 6; 7; 8; 9; 10; 11; 12; 13; 14; 15];
   [14; 10; 4; 8; 9; 15; 13; 6; 1; 12; 0; 2; 11; 7; 5; 3];
   [11; 8; 12; 0; 5; 2; 15; 13; 10; 14; 3; 6; 7; 1; 9; 4];
   [7; 9; 3; 1; 13; 12; 11; 14; 2; 6; 5; 10; 4; 0; 15; 8];
   [9; 0; 5; 7; 2; 4; 10; 15; 14; 1; 11; 12; 6; 8; 3; 13];
   [2; 12; 6; 10; 0; 11; 8; 3; 4; 13; 7; 5; 15; 14; 1; 9];
   [12; 5; 1; 15; 14; 13; 4; 10; 0; 7; 6; 3; 9; 2; 8; 11];
   [13; 11; 7; 14; 12; 1; 3; 9; 5; 0; 15; 4; 8; 6; 2; 10];
   [6; 15; 14; 9; 11; 3; 0; 8; 12; 2; 13; 7; 1; 4; 10; 5];
   [10; 2; 8; 4; 7; 6; 1; 5; 15; 11; 9; 14; 3; 12; 13; 0]]%nat.

Definition word (v : list Z) (i : nat) : Z := nth i v 0.

Definition G (a b c d : nat) (x y : Z) (v : list Z) : list Z :=
  let v := <[a := u64 (word v a + word v b + x)]> v in
  let v := <[d := rotr64 (Z.lxor (word v d) (word v a)) 32]> v in
  let v := <[c := u64 (word v c + word v d)]> v in
  let v := <[b := rotr64 (Z.lxor (word v b) (word v c)) 24]> v in
  let v := <[a := u64 (word v a + word v b + y)]> v in
  let v := <[d := rotr64 (Z.lxor (word v d) (word v a)) 16]> v in
  let v := <[c := u64 (word v c + word v d)]> v in
  <[b := rotr64 (Z.lxor (word v b) (word v c)) 63]> v.

Definition round (m : list Z) (r : nat) (v : list Z) : list Z :=
  let s := nth (r mod 10) SIGMA [] in
  let mw (i : nat) := word m (nth i s O) in
  let v := G 0 4 8 12 (mw 0%nat) (mw 1%nat) v in
  let v := G 1 5 9 13 (mw 2%nat) (mw 3%nat) v in
  let v := G 2 6 10 14 (mw 4%nat) (mw 5%nat) v in
  let v := G 3 7 11 15 (mw 6%nat) (mw 7%nat) v in
  let v := G 0 5 10 15 (mw 8%nat) (mw 9%nat) v in
  let v := G 1 6 11 12 (mw 10%nat) (mw 11%nat) v in
  let v := G 2 7 8 13 (mw 12%nat) (mw 13%nat) v in
  G 3 4 9 14 (mw 14%nat) (mw 15%nat) v.

(** The compression function [F]. *)
Definition compress (h m : list Z) (t : Z) (last : bool) : list Z :=
  let v := h ++ IV in
  let v := <[12%nat := Z.lxor (word v 12) (u64 t)]> v in
  let v := <[13%nat := Z.lxor (word v 13) (u64 (Z.shiftr t 64))]> v in
  let v := if last then <[14%nat := Z.lxor (word v 14) (2 ^ 64 - 1)]> v else v in
  let v := fold_left (fun v r => round m r v) (seq 0 12) v in
  map (fun i => Z.lxor (Z.lxor (word h i) (word v i)) (word v (i + 8))) (seq 0 8).

(** Sixteen little-endian words of a 128-byte block (zero padded). *)
Definition block_words (block : list byte) : list Z :=
  map (fun i => le_value 256 (firstn 8 (skipn (8 * i) block))) (seq 0 16).

Fixpoint absorb (fuel : nat) (h : list Z) (t : Z) (input : list byte) : list Z :=
  match fuel with
  | O => h
  | S fuel' =>
      if (length input <=? 128)%nat
      then compress h (block_words input) (t + Z.of_nat (length input)) true
      else absorb fuel' (compress h (block_words (firstn 128 input)) (t + 128) false)
             (t + 128) (skipn 128 input)
  end.

Definition word_bytes (w : Z) : list byte := le_digits 8 8 w.

Definition blake2b (outlen : nat) (input : list byte) : list byte :=
  let h := <[0%nat := Z.lxor (word IV 0) (Z.lxor 0x01010000 (Z.of_nat outlen))]> IV in
  let h := absorb (S (length input)) h 0 input in
  firstn outlen (concat (map word_bytes h)).

End Blake2b.

(** * Blocks, votes and the node environment *)

Inductive chratos_networks :=
| chratos_test_network
| chratos_beta_network
| chratos_live_network.

Definition is_test_network (n : chratos_networks) : bool :=
  match n with chratos_test_network => true | _ => false end.

Definition is_live_network (n : chratos_networks) : bool :=
  match n with chratos_live_network => true | _ => false end.

(** What the node needs of a block: its hash, its root and its work. *)
Record block := { block_hash : Z; block_root : Z; block_work : Z }.

(** [block::operator==] *)
Definition block_eqb (a b : block) : bool :=
  (block_hash a =? block_hash b) && (block_root a =? block_root b)
  && (block_work a =? block_work b).

(** What the subsystems read from the node that owns them: the compiled-in
    network, the configuration, the online stake, the ledger weights and the
    steady clock (in nanoseconds). *)
Record node_env := {
  chratos_network : chratos_networks;
  not_an_account : Z;
  online_stake_total : Z;
  online_weight_minimum : Z;
  online_weight_quorum : Z;
  bootstrap_fraction_numerator : Z;
  ledger_weight : Z -> Z;
  now : Z
}.

(** [std::chrono::seconds] on the steady clock. *)
Definition seconds (n : Z) : Z := n * 1000000000.

(** [online_reps::online_stake] *)
Definition online_stake (env : node_env) : Z :=
  Z.max (online_stake_total env) (online_weight_minimum env).

(** [node::delta] *)
Definition delta (env : node_env) : Z :=
  wrap 128 ((online_stake env / 100) * online_weight_quorum env).

(** What an election asks the node to do. *)
Inductive event :=
| force_block (b : block)       (* block_processor.force *)
| confirmed_block (b : block).  (* node.background: process_confirmed, confirmation_action *)

(** * Elections *)

Module Election.

Record vote_info := { vi_time : Z; vi_sequence : Z; vi_hash : Z }.

Record election_status := { winner : block; status_tally : Z }.

Record election_vote_result := { replay : bool; processed : bool }.

Record election := {
  root : Z;
  status : election_status;
  confirmed : bool;
  aborted : bool;
  last_votes : gmap Z vote_info;
  blocks : gmap Z block;
  last_tally : gmap Z Z
}.

Definition with_status (s : election_status) (e : election) : election :=
  {| root := root e; status := s; confirmed := confirmed e; aborted := aborted e;
     last_votes := last_votes e; blocks := blocks e; last_tally := last_tally e |}.

Definition with_confirmed (c : bool) (e : election) : election :=
  {| root := root e; status := status e; confirmed := c; aborted := aborted e;
     last_votes := last_votes e; blocks := blocks e; last_tally := last_tally e |}.

Definition with_last_votes (v : gmap Z vote_info) (e : election) : election :=
  {| root := root e; status := status e; confirmed := confirmed e; aborted := aborted e;
     last_votes := v; blocks := blocks e; last_tally := last_tally e |}.

Definition with_blocks (b : gmap Z block) (e : election) : election :=
  {| root := root e; status := status e; confirmed := confirmed e; aborted := aborted e;
     last_votes := last_votes e; blocks := b; last_tally := last_tally e |}.

Definition with_last_tally (t : gmap Z Z) (e : election) : election :=
  {| root := root e; status := status e; confirmed := confirmed e; aborted := aborted e;
     last_votes := last_votes e; blocks := blocks e; last_tally := t |}.

(** The constructor. *)
Definition election_new (env : node_env) (block_a : block) : election :=
  {| root := block_root block_a;
     status := {| winner := block_a; status_tally := 0 |};
     confirmed := false;
     aborted := false;
     last_votes :=
       {[ not_an_account env :=
            {| vi_time := now env; vi_sequence := 0; vi_hash := block_hash block_a |} ]};
     blocks := {[ block_hash block_a := block_a ]};
     last_tally := ∅ |}.

(** Modelled from the spec: [tally_t] is declared in a header that is not
    among the sources; the design document describes it as "a sorted
    multimap (weight-descending → candidate block)". *)
Definition tally_t := list (Z * block).

(** Modelled from the spec: insertion into that multimap; an item goes
    behind the items that are at least as heavy. *)
Fixpoint tally_insert (item : Z * block) (t : tally_t) : tally_t :=
  match t with
  | [] => [item]
  | x :: t' =>
      if fst x <? fst item then item :: x :: t' else x :: tally_insert item t'
  end.

(** [election::confirm_once] *)
Definition confirm_once (e : election) : election * list event :=
  if confirmed e then (e, [])
  else (with_confirmed true e, [confirmed_block (winner (status e))]).

(** [election::abort] *)
Definition abort (e : election) : election :=
  {| root := root e; status := status e; confirmed := confirmed e; aborted := true;
     last_votes := last_votes e; blocks := blocks e; last_tally := last_tally e |}.

(** [election::have_quorum]; its callers pass a tally that is not empty. *)
Definition have_quorum (env : node_env) (tally_a : tally_t) : bool :=
  match tally_a with
  | [] => false
  | (first, _) :: i =>
      let second := match i with (w, _) :: _ => w | [] => 0 end in
      let delta_l := delta env in
      first >? wrap 128 (second + delta_l)
  end.

(** [election::tally].  The source walks two unordered maps, whose order
    is not specified; the order in which [map_fold] walks them only decides
    the order of tally entries of equal weight. *)
Definition tally (env : node_env) (e : election) : election * tally_t :=
  let block_weights :=
    map_fold
      (fun rep vote_info (bw : gmap Z Z) =>
         <[vi_hash vote_info :=
             wrap 128 (default 0 (bw !! vi_hash vote_info) + ledger_weight env rep)]> bw)
      ∅ (last_votes e) in
  let e := with_last_tally block_weights e in
  let result :=
    map_fold
      (fun h w (result : tally_t) =>
         match blocks e !! h with
         | Some b => tally_insert (w, b) result
         | None => result
         end)
      [] block_weights in
  (e, result).

(** [election::confirm_if_quorum].  With an empty tally the source
    dereferences [tally_l.begin ()], which has no defined outcome: [None]. *)
Definition confirm_if_quorum (env : node_env) (e : election)
  : option (election * list event) :=
  let '(e, tally_l) := tally env e in
  match tally_l with
  | [] => None
  | (winner_weight, block_l) :: _ =>
      let e := with_status {| winner := winner (status e); status_tally := winner_weight |} e in
      let sum := fold_left (fun sum i => wrap 128 (sum + fst i)) tally_l 0 in
      let '(e, forced) :=
        if (sum >=? online_weight_minimum env) && negb (block_eqb block_l (winner (status e)))
        then (with_status {| winner := block_l; status_tally := status_tally (status e) |} e,
              [force_block block_l])
        else (e, []) in
      if have_quorum env tally_l
      then let '(e, evs) := confirm_once e in Some (e, forced ++ evs)
      else Some (e, forced)
  end.

(** The cooldown tiers of [election::vote], in seconds. *)
Definition cooldown (env : node_env) (rep : Z) : Z :=
  let supply := online_stake env in
  let weight := ledger_weight env rep in
  if weight <? supply / 100 then 15
  else if weight <? supply / 20 then 5
  else 1.

(** The weight gate of [election::vote]. *)
Definition weight_gate (env : node_env) (rep : Z) : bool :=
  is_test_network (chratos_network env)
  || (ledger_weight env rep >? online_stake env / 1000).

(** The inner [should_process] and [replay] of [election::vote], once the
    weight gate is passed. *)
Definition vote_decision (env : node_env) (e : election) (rep sequence block_hash : Z)
  : bool * bool :=
  match last_votes e !! rep with
  | None => (true, false)
  | Some last_vote =>
      if (vi_sequence last_vote <? sequence)
         || ((vi_sequence last_vote =? sequence) && (vi_hash last_vote <? block_hash))
      then (vi_time last_vote <=? now env - seconds (cooldown env rep), false)
      else (false, true)
  end.

(** [election::vote].  The [should_process] that is returned is the outer
    variable of the source, which the inner declaration shadows and which
    therefore stays [false].  The two readings of the steady clock are taken
    to give the same [now]. *)
Definition vote (env : node_env) (e : election) (rep sequence block_hash : Z)
  : option (election * election_vote_result * list event) :=
  let should_process_outer := false in
  if weight_gate env rep then
    let '(should_process, replay) := vote_decision env e rep sequence block_hash in
    let result := {| replay := replay; processed := should_process_outer |} in
    if should_process then
      let e :=
        with_last_votes
          (<[rep := {| vi_time := now env; vi_sequence := sequence; vi_hash := block_hash |}]>
             (last_votes e)) e in
      if negb (confirmed e) then
        match confirm_if_quorum env e with
        | Some (e, evs) => Some (e, result, evs)
        | None => None
        end
      else Some (e, result, [])
    else Some (e, result, [])
  else Some (e, {| replay := false; processed := should_process_outer |}, []).

(** [election::publish] *)
Definition publish (env : node_env) (e : election) (block_a : block) : election * bool :=
  let '(e, result) :=
    if (10 <=? Z.of_nat (size (blocks e))) then
      let t := default 0 (last_tally e !! block_hash block_a) in
      (with_last_tally (<[block_hash block_a := t]> (last_tally e)) e,
       t <? online_stake env / 10)
    else (e, false) in
  if result then (e, true)
  else (with_blocks (<[block_hash block_a := block_a]> (blocks e)) e, false).

End Election.

(** ** Notions used to state the properties of elections *)

Module ElectionSpec.
Import Election.

(** The offered [(sequence, hash)] is lexicographically greater than the
    stored pair. *)
Definition pair_lt (lv : vote_info) (sequence block_hash : Z) : Prop :=
  vi_sequence lv < sequence \/ (vi_sequence lv = sequence /\ vi_hash lv < block_hash).

(** The pair [(sequence, hash)] is at most the stored pair. *)
Definition pair_le (sequence block_hash : Z) (lv : vote_info) : Prop :=
  sequence < vi_sequence lv \/ (sequence = vi_sequence lv /\ block_hash <= vi_hash lv).

(** The stored vote is at least as old as the cooldown of the voter. *)
Definition cooled_down (env : node_env) (rep : Z) (lv : vote_info) : Prop :=
  vi_time lv <= now env - seconds (cooldown env rep).

Definition stored_vote (env : node_env) (sequence block_hash : Z) : vote_info :=
  {| vi_time := now env; vi_sequence := sequence; vi_hash := block_hash |}.

(** The election holds the vote of [not_an_account] for one of its blocks,
    as it does from its construction on. *)
Definition anchored (env : node_env) (e : election) : Prop :=
  exists lv b, last_votes e !! not_an_account env = Some lv
               /\ blocks e !! vi_hash lv = Some b.

(** The election right after [last_votes[rep]] was assigned. *)
Definition store (env : node_env) (e : election) (rep sequence block_hash : Z) : election :=
  with_last_votes (<[rep := stored_vote env sequence block_hash]> (last_votes e)) e.

(** A vote is accepted when the election stores it. *)
Definition accepted (env : node_env) (e : election) (rep sequence block_hash : Z) : bool :=
  weight_gate env rep && fst (vote_decision env e rep sequence block_hash).

Definition is_confirmation (ev : event) : bool :=
  match ev with confirmed_block _ => true | force_block _ => false end.


(** The states an election goes through, with the votes it has accepted
    and the events it has raised so far. *)
Inductive reachable : election -> list (Z * Z * Z) -> list event -> Prop :=
| reach_new env block_a :
    reachable (election_new env block_a) [] []
| reach_vote env e acc log rep sequence block_hash e' r evs :
    reachable e acc log ->
    vote env e rep sequence block_hash = Some (e', r, evs) ->
    reachable e'
      (if accepted env e rep sequence block_hash
       then (rep, sequence, block_hash) :: acc else acc)
      (log ++ evs)
| reach_publish env e acc log block_a e' r :
    reachable e acc log ->
    publish env e block_a = (e', r) ->
    reachable e' acc log.

End ElectionSpec.

(** ** Elections on concrete data *)

Module ElectionData.
Import Election.

Definition weights_of (w5 : Z) (rep : Z) : Z := if rep =? 5 then w5 else 0.

(** The live network with an online stake of a million; representative 5
    holds [w5]; the clock shows [t] seconds. *)
Definition env_live (w5 t : Z) : node_env :=
  {| chratos_network := chratos_live_network;
     not_an_account := 0;
     online_stake_total := 1000000;
     online_weight_minimum := 1000;
     online_weight_quorum := 50;
     bootstrap_fraction_numerator := 1;
     ledger_weight := weights_of w5;
     now := seconds t |}.

(** An online stake of 150 and a quorum of 50 percent; representative 5
    holds 60. *)
Definition env_small : node_env :=
  {| chratos_network := chratos_live_network;
     not_an_account := 0;
     online_stake_total := 150;
     online_weight_minimum := 100;
     online_weight_quorum := 50;
     bootstrap_fraction_numerator := 1;
     ledger_weight := weights_of 60;
     now := seconds 100 |}.

Definition b11 : block := {| block_hash := 11; block_root := 9; block_work := 0 |}.

Definition e_start : election := election_new (env_live 2000 100) b11.

Definition state_of (r : option (election * election_vote_result * list event))
  (otherwise : election) : election :=
  match r with Some (e, _, _) => e | None => otherwise end.

(** The election after representative 5, holding 2000, voted (5, 11). *)
Definition e_voted : election :=
  state_of (vote (env_live 2000 100) e_start 5 5 11) e_start.

(** The election after representative 5 voted (5, 11) a hundred seconds
    later. *)
Definition e_voted_later : election :=
  state_of (vote (env_live 2000 200) e_start 5 5 11) e_start.



End ElectionData.

(** * Active elections and the vote processor *)

Module Chratos.

(** A vote names each block either in full or by its hash. *)
Inductive vote_block :=
| vote_full (b : block)
| vote_hash (h : Z).

(** [chratos::vote] *)
Record vote := {
  account : Z;
  sequence : Z;
  vote_blocks : list vote_block;
  signature : Z
}.

End Chratos.

Module Active.
Import Election.
Import Chratos.

Record conflict_info := {
  ci_root : Z;
  ci_election : nat;
  announcements : Z;
  confirm_req_options : block * option block
}.

(** [roots] and [successors] hold shared pointers to elections; [elections]
    is the store those pointers point into. *)
Record active_transactions := {
  elections : gmap nat election;
  roots : gmap Z conflict_info;
  successors : gmap Z nat;
  stopped : bool
}.

Definition empty : active_transactions :=
  {| elections := ∅; roots := ∅; successors := ∅; stopped := false |}.

(** A place for the election that [std::make_shared] creates. *)
Definition fresh (a : active_transactions) : nat :=
  S (map_fold (fun k _ m => Nat.max k m) O (elections a)).

(** [unordered_map::insert]: an existing key keeps its value. *)
Definition insert_new {V} (k : Z) (v : V) (m : gmap Z V) : gmap Z V :=
  match m !! k with
  | Some _ => m
  | None => <[k := v]> m
  end.

(** [active_transactions::start] *)
Definition start (env : node_env) (a : active_transactions)
           (blocks_a : block * option block) : active_transactions * bool :=
  if negb (stopped a) then
    let primary_block := fst blocks_a in
    let root := block_root primary_block in
    match roots a !! root with
    | None =>
        let id := fresh a in
        ({| elections := <[id := election_new env primary_block]> (elections a);
            roots := <[root := {| ci_root := root; ci_election := id; announcements := 0;
                                  confirm_req_options := blocks_a |}]> (roots a);
            successors := insert_new (block_hash primary_block) id (successors a);
            stopped := stopped a |}, false)
    | Some _ => (a, true)
    end
  else (a, true).

(** What the vote path asks of the rest of the node. *)
Inductive node_event :=
| election_event (ev : event)
| republish_vote (v : Chratos.vote)                    (* network.republish_vote *)
| vote_notify (v : Chratos.vote) (endpoint : Z * Z)    (* observers.vote.notify *)
| confirm_send (v : Chratos.vote) (endpoint : Z * Z).  (* network.confirm_send *)

(** Where [active_transactions::vote] sends one entry of the vote: by hash
    through [successors], by root for a full block. *)
Definition route (a : active_transactions) (vote_block : vote_block) : option (nat * Z) :=
  match vote_block with
  | vote_hash block_hash =>
      match successors a !! block_hash with
      | Some existing => Some (existing, block_hash)
      | None => None
      end
  | vote_full b =>
      match roots a !! block_root b with
      | Some existing => Some (ci_election existing, block_hash b)
      | None => None
      end
  end.

(** The loop of [active_transactions::vote]. *)
Fixpoint vote_loop (env : node_env) (a : active_transactions) (vote_a : Chratos.vote)
         (vote_blocks_l : list vote_block)
         (els : gmap nat election) (replay_l processed_l : bool) (evs : list node_event)
  : option (gmap nat election * bool * bool * list node_event) :=
  match vote_blocks_l with
  | [] => Some (els, replay_l, processed_l, evs)
  | vote_block :: rest =>
      let target :=
        match route a vote_block with
        | Some (id, h) =>
            match els !! id with
            | Some e => Some (id, e, h)
            | None => None
            end
        | None => None
        end in
      match target with
      | Some (id, e, h) =>
          match Election.vote env e (account vote_a) (sequence vote_a) h with
          | Some (e', result, evs') =>
              vote_loop env a vote_a rest (<[id := e']> els)
                (replay_l || replay result) (processed_l || processed result)
                (evs ++ map election_event evs')
          | None => None
          end
      | None => vote_loop env a vote_a rest els replay_l processed_l evs
      end
  end.

(** [active_transactions::vote]: the result is the [replay] flag. *)
Definition vote (env : node_env) (a : active_transactions) (vote_a : Chratos.vote)
  : option (active_transactions * bool * list node_event) :=
  match vote_loop env a vote_a (vote_blocks vote_a) (elections a) false false [] with
  | Some (els, replay_l, processed_l, evs) =>
      Some ({| elections := els; roots := roots a; successors := successors a;
               stopped := stopped a |},
            replay_l,
            evs ++ (if processed_l then [republish_vote vote_a] else []))
  | None => None
  end.

(** [active_transactions::active] *)
Definition active (a : active_transactions) (block_a : block) : bool :=
  bool_decide (is_Some (roots a !! block_root block_a)).

(** [active_transactions::erase] *)
Definition erase (a : active_transactions) (block_a : block) : active_transactions :=
  {| elections := elections a; roots := delete (block_root block_a) (roots a);
     successors := successors a; stopped := stopped a |}.

(** [active_transactions::publish] *)
Definition publish (env : node_env) (a : active_transactions) (block_a : block)
  : active_transactions * bool :=
  match roots a !! block_root block_a with
  | Some existing =>
      match elections a !! ci_election existing with
      | Some e =>
          let '(e', result) := Election.publish env e block_a in
          ({| elections := <[ci_election existing := e']> (elections a);
              roots := roots a;
              successors := if result then successors a
                            else insert_new (block_hash block_a) (ci_election existing)
                                   (successors a);
              stopped := stopped a |}, result)
      | None => (a, true)
      end
  | None => (a, true)
  end.



End Active.

Module VoteProcessor.
Import Chratos.
Import Active.

Inductive vote_code :=
| vote_code_invalid
| vote_code_replay
| vote_code_vote.

(** Modelled from the spec: [block_store::vote_max] lives in
    [blockstore.cpp], which is not among the sources.  The design document
    has it "look up the maximum-known vote" of the account; the store keeps
    the "votes by account (latest sequence)".  The vote with the greater
    sequence is returned and kept. *)
Definition vote_max (store : gmap Z Chratos.vote) (vote_a : Chratos.vote) : Chratos.vote * gmap Z Chratos.vote :=
  let result :=
    match store !! account vote_a with
    | Some current => if sequence current >? sequence vote_a then current else vote_a
    | None => vote_a
    end in
  (result, <[account vote_a := result]> store).

Section WithValidate.

(** [vote::validate]: the signature check, [true] when it fails. *)
Variable validate : Chratos.vote -> bool.

(** [vote_processor::vote_blocking] (the logging at its end left out). *)
Definition vote_blocking (env : node_env) (store : gmap Z Chratos.vote) (a : active_transactions)
           (vote_a : Chratos.vote) (endpoint_a : Z * Z)
  : option (vote_code * gmap Z Chratos.vote * active_transactions * list node_event) :=
  if negb (validate vote_a) then
    let '(max_vote, store) := vote_max store vote_a in
    match Active.vote env a vote_a with
    | None => None
    | Some (a, replay_l, evs) =>
        let result :=
          if negb replay_l || (sequence max_vote >? sequence vote_a)
          then vote_code_vote else vote_code_replay in
        let notify :=
          match result with
          | vote_code_vote => [vote_notify vote_a endpoint_a]
          | _ => []
          end in
        let assist :=
          if sequence max_vote >? wrap 64 (sequence vote_a + 10000)
          then [confirm_send max_vote endpoint_a] else [] in
        Some (result, store, a, evs ++ notify ++ assist)
    end
  else Some (vote_code_invalid, store, a, []).

End WithValidate.

End VoteProcessor.

Module VoteData.
Import Chratos.

Definition accept_signature (v : vote) : bool := false.

Definition vote_of (seq : Z) : vote :=
  {| account := 5; sequence := seq; vote_blocks := [vote_hash 11]; signature := 0 |}.

Definition endpoint0 : Z * Z := (1, 7075).

(** The active set with the one election [e_start] of [ElectionData]. *)
Definition one_election : Active.active_transactions :=
  fst (Active.start (ElectionData.env_live 2000 100) Active.empty (ElectionData.b11, None)).

End VoteData.

(** * The block processor *)

Module BlockProcessor.

Record block_processor := {
  blocks : list (block * Z);
  blocks_hashes : gset Z;
  forced : list block
}.

Definition empty : block_processor :=
  {| blocks := []; blocks_hashes := ∅; forced := [] |}.

(** [block_processor::full] *)
Definition full (bp : block_processor) : bool :=
  Z.of_nat (length (blocks bp)) >? 16384.

(** [block_processor::have_blocks] *)
Definition have_blocks (bp : block_processor) : bool :=
  negb (bool_decide (blocks bp = [])) || negb (bool_decide (forced bp = [])).

(** [block_processor::force] *)
Definition force (bp : block_processor) (block_a : block) : block_processor :=
  {| blocks := blocks bp; blocks_hashes := blocks_hashes bp;
     forced := forced bp ++ [block_a] |}.

(** The head of the loop of [process_receive_many]: the next block, whether
    it was forced, and the queues without it. *)
Definition take (bp : block_processor) (now_l : Z)
  : option (block * Z * bool * block_processor) :=
  match forced bp with
  | [] =>
      match blocks bp with
      | [] => None
      | (b, origination) :: rest =>
          Some (b, origination, false,
                {| blocks := rest; blocks_hashes := blocks_hashes bp ∖ {[block_hash b]};
                   forced := [] |})
      end
  | b :: rest =>
      Some (b, now_l, true,
            {| blocks := blocks bp; blocks_hashes := blocks_hashes bp; forced := rest |})
  end.

Section WithNode.

(** [chratos::work_validate (root, work)]: [true] when the work is not
    valid. *)
Variable work_validate : Z -> Z -> bool.

(** [block_processor::add].  The branch for invalid work logs and, in debug
    builds, asserts; it does not touch the queues. *)
Definition add (bp : block_processor) (block_a : block) (origination : Z)
  : block_processor :=
  if negb (work_validate (block_root block_a) (block_work block_a)) then
    if bool_decide (block_hash block_a ∈ blocks_hashes bp) then bp
    else {| blocks := blocks bp ++ [(block_a, origination)];
            blocks_hashes := blocks_hashes bp ∪ {[block_hash block_a]};
            forced := forced bp |}
  else bp.

(** The ledger is outside the processor.  [ledger_step l forced b t] stands
    for the rollback of the forced path followed by [process_receive_one]:
    it returns the ledger and the unchecked blocks that [queue_unchecked]
    adds back. *)
Variable ledger : Type.
Variable ledger_step : ledger -> bool -> block -> Z -> ledger * list block.

(** [process_receive_many]: at most [count] turns; the processing events
    are the blocks handed to [process_receive_one]. *)
Fixpoint process_loop (count : nat) (l : ledger) (bp : block_processor) (now_l : Z)
  : list (block * bool) * ledger * block_processor :=
  match count with
  | O => ([], l, bp)
  | S count' =>
      match take bp now_l with
      | None => ([], l, bp)
      | Some (b, origination, force_l, bp) =>
          let '(l, unchecked) := ledger_step l force_l b origination in
          let bp := fold_left (fun bp i => add bp i 0) unchecked bp in
          let '(events, l, bp) := process_loop count' l bp now_l in
          ((b, force_l) :: events, l, bp)
      end
  end.

Definition process_receive_many (l : ledger) (bp : block_processor) (now_l : Z)
  : list (block * bool) * ledger * block_processor :=
  process_loop (Z.to_nat 16384) l bp now_l.

(** The states of the queues under any interleaving of producers and the
    consumer. *)
Inductive reachable : block_processor -> Prop :=
| reach_empty : reachable empty
| reach_add bp block_a origination :
    reachable bp -> reachable (add bp block_a origination)
| reach_force bp block_a :
    reachable bp -> reachable (force bp block_a)
| reach_take bp now_l b origination force_l bp' :
    reachable bp -> take bp now_l = Some (b, origination, force_l, bp') ->
    reachable bp'.

End WithNode.

Definition queued_hashes (bp : block_processor) : list Z :=
  map (fun i => block_hash (fst i)) (blocks bp).

(** The hash set mirrors the queue, and the queue has no hash twice. *)
Definition consistent (bp : block_processor) : Prop :=
  NoDup (queued_hashes bp)
  /\ forall h, h ∈ blocks_hashes bp <-> In h (queued_hashes bp).

End BlockProcessor.

Module BlockData.
Import BlockProcessor.

(** Work is valid when it equals the root. *)
Definition work_is_root (root work : Z) : bool := negb (root =? work).

Definition b9 : block := {| block_hash := 11; block_root := 9; block_work := 9 |}.

(** A ledger that counts the blocks it was given and never has unchecked
    successors. *)
Definition counting_step (l : nat) (forced_l : bool) (b : block) (t : Z) : nat * list block :=
  (S l, []).

End BlockData.

(** * The peer container *)

Module Peers.

Local Open Scope N_scope.

(** An endpoint is an IPv6 address (128 bits) and a port. *)
Definition endpoint : Type := N * N.

Definition address (e : endpoint) : N := fst e.

Record peer_information := {
  pi_endpoint : endpoint;
  ip_address : N;
  last_contact : Z;
  last_attempt : Z;
  last_bootstrap_attempt : Z;
  last_rep_request : Z;
  last_rep_response : Z;
  rep_weight : N;
  probable_rep_account : N;
  network_version : N
}.

Record syn_cookie_info := { cookie : N; created_at : Z }.

Record peer_container := {
  self : endpoint;
  peers : gmap endpoint peer_information;
  attempts : gmap endpoint Z;
  syn_cookies : gmap endpoint syn_cookie_info;
  syn_cookies_per_ip : gmap N N;
  legacy_peers : N
}.

Definition with_peers (p : gmap endpoint peer_information) (l : N) (pc : peer_container)
  : peer_container :=
  {| self := self pc; peers := p; attempts := attempts pc;
     syn_cookies := syn_cookies pc; syn_cookies_per_ip := syn_cookies_per_ip pc;
     legacy_peers := l |}.

Definition with_cookies (c : gmap endpoint syn_cookie_info) (n : gmap N N)
           (pc : peer_container) : peer_container :=
  {| self := self pc; peers := peers pc; attempts := attempts pc;
     syn_cookies := c; syn_cookies_per_ip := n; legacy_peers := legacy_peers pc |}.

(** The constructor of [peer_container]. *)
Definition peer_container_new (self_a : endpoint) : peer_container :=
  {| self := self_a; peers := ∅; attempts := ∅; syn_cookies := ∅;
     syn_cookies_per_ip := ∅; legacy_peers := 0 |}.

(** Modelled from the spec: the caps are declared in a header that is not
    among the sources; the design document gives "max_peers_per_ip = 10;
    max_legacy_peers = 500". *)
Definition max_peers_per_ip : N := 10.

(** Modelled from the spec: "max_legacy_peers = 500", declared in the same
    header. *)
Definition max_legacy_peers : N := 500.

(** [peer_information (endpoint, network_version)] *)
Definition peer_information_new (endpoint_a : endpoint) (network_version_a : N) (now_l : Z)
  : peer_information :=
  {| pi_endpoint := endpoint_a; ip_address := address endpoint_a;
     last_contact := now_l; last_attempt := now_l;
     last_bootstrap_attempt := 0%Z; last_rep_request := 0%Z; last_rep_response := 0%Z;
     rep_weight := 0; probable_rep_account := 0; network_version := network_version_a |}.

Definition set_last_contact (t : Z) (p : peer_information) : peer_information :=
  {| pi_endpoint := pi_endpoint p; ip_address := ip_address p;
     last_contact := t; last_attempt := last_attempt p;
     last_bootstrap_attempt := last_bootstrap_attempt p;
     last_rep_request := last_rep_request p; last_rep_response := last_rep_response p;
     rep_weight := rep_weight p; probable_rep_account := probable_rep_account p;
     network_version := network_version p |}.

Definition set_last_attempt (t : Z) (p : peer_information) : peer_information :=
  {| pi_endpoint := pi_endpoint p; ip_address := ip_address p;
     last_contact := last_contact p; last_attempt := t;
     last_bootstrap_attempt := last_bootstrap_attempt p;
     last_rep_request := last_rep_request p; last_rep_response := last_rep_response p;
     rep_weight := rep_weight p; probable_rep_account := probable_rep_account p;
     network_version := network_version p |}.

Definition set_last_bootstrap_attempt (t : Z) (p : peer_information) : peer_information :=
  {| pi_endpoint := pi_endpoint p; ip_address := ip_address p;
     last_contact := last_contact p; last_attempt := last_attempt p;
     last_bootstrap_attempt := t;
     last_rep_request := last_rep_request p; last_rep_response := last_rep_response p;
     rep_weight := rep_weight p; probable_rep_account := probable_rep_account p;
     network_version := network_version p |}.

Definition set_last_rep_request (t : Z) (p : peer_information) : peer_information :=
  {| pi_endpoint := pi_endpoint p; ip_address := ip_address p;
     last_contact := last_contact p; last_attempt := last_attempt p;
     last_bootstrap_attempt := last_bootstrap_attempt p;
     last_rep_request := t; last_rep_response := last_rep_response p;
     rep_weight := rep_weight p; probable_rep_account := probable_rep_account p;
     network_version := network_version p |}.

(** The body of the lambda in [rep_response]. *)
Definition note_rep_response (t : Z) (rep_account_a weight_a : N) (p : peer_information)
  : peer_information :=
  let updated := (rep_weight p <? weight_a)%N in
  {| pi_endpoint := pi_endpoint p; ip_address := ip_address p;
     last_contact := last_contact p; last_attempt := last_attempt p;
     last_bootstrap_attempt := last_bootstrap_attempt p;
     last_rep_request := last_rep_request p; last_rep_response := t;
     rep_weight := if updated then weight_a else rep_weight p;
     probable_rep_account := if updated then rep_account_a else probable_rep_account p;
     network_version := network_version p |}.

(** [mapped_from_v4_bytes]: [::ffff:a.b.c.d]. *)
Definition mapped_from_v4_bytes (address_a : N) : N := (0xffff * 2 ^ 32 + address_a)%N.

Definition between (bytes lo hi : N) : bool := ((lo <=? bytes) && (bytes <=? hi))%N.

(** [chratos::reserved_address] *)
Definition reserved_address (network : chratos_networks) (endpoint_a : endpoint)
           (blacklist_loopback : bool) : bool :=
  let bytes := address endpoint_a in
  let v4 lo hi := between bytes (mapped_from_v4_bytes lo) (mapped_from_v4_bytes hi) in
  let v6 lo hi := between bytes lo hi in
  if v4 0x00000000 0x00ffffff then true                              (* rfc1700 *)
  else if v4 0xc0000200 0xc00002ff then true                          (* rfc5737_1 *)
  else if v4 0xc6336400 0xc63364ff then true                          (* rfc5737_2 *)
  else if v4 0xcb007100 0xcb0071ff then true                          (* rfc5737_3 *)
  else if v4 0xe0000000 0xefffffff then true                          (* ipv4_multicast *)
  else if v4 0xf0000000 0xffffffff then true                          (* rfc6890 *)
  else if v6 (0x0100 * 2 ^ 112) (0x0100 * 2 ^ 112 + (2 ^ 64 - 1)) then true    (* rfc6666 *)
  else if v6 (0x20010db8 * 2 ^ 96) (0x20010db8 * 2 ^ 96 + (2 ^ 96 - 1)) then true (* rfc3849 *)
  else if v6 (0xff00 * 2 ^ 112) (0xff00 * 2 ^ 112 + (2 ^ 112 - 1)) then true   (* ipv6_multicast *)
  else if blacklist_loopback && (bytes =? 1)%N then true              (* is_loopback *)
  else if blacklist_loopback && v4 0x7f000000 0x7fffffff then true    (* ipv4_loopback *)
  else if is_live_network network then
    if v4 0x0a000000 0x0affffff then true                             (* rfc1918_1 *)
    else if v4 0xac100000 0xac1fffff then true                        (* rfc1918_2 *)
    else if v4 0xc0a80000 0xc0a8ffff then true                        (* rfc1918_3 *)
    else if v4 0x64400000 0x647fffff then true                        (* rfc6598 *)
    else if v6 (0xfc00 * 2 ^ 112) (0xfd00 * 2 ^ 112 + (2 ^ 112 - 1)) then true  (* rfc4193 *)
    else false
  else false.

(** [peer_container::not_a_peer] *)
Definition not_a_peer (network : chratos_networks) (pc : peer_container)
           (endpoint_a : endpoint) (blacklist_loopback : bool) : bool :=
  if (address endpoint_a =? 0)%N then true
  else if reserved_address network endpoint_a blacklist_loopback then true
  else if bool_decide (endpoint_a = self pc) then true
  else false.

(** [peer_container::known_peer] *)
Definition known_peer (pc : peer_container) (endpoint_a : endpoint) : bool :=
  bool_decide (is_Some (peers pc !! endpoint_a)).

(** The peers that share an address, as [equal_range] on the address index
    finds them. *)
Definition same_ip (ip : N) (m : gmap endpoint peer_information)
  : gmap endpoint peer_information :=
  filter (fun kv => ip_address (snd kv) = ip) m.

Definition ip_peers (pc : peer_container) (ip : N) : N :=
  N.of_nat (size (same_ip ip (peers pc))).

(** The value of [syn_cookies_per_ip[ip]]. *)
Definition ip_cookies (pc : peer_container) (ip : N) : N :=
  default 0%N (syn_cookies_per_ip pc !! ip).

(** [unsigned & ip_cookies = syn_cookies_per_ip[ip_addr]] creates the entry. *)
Definition touch (ip : N) (m : gmap N N) : gmap N N :=
  <[ip := default 0%N (m !! ip)]> m.

(** [++] and [--] on an [unsigned]. *)
Definition incr32 (n : N) : N := ((n + 1) mod 2 ^ 32)%N.
Definition decr32 (n : N) : N := ((n + 2 ^ 32 - 1) mod 2 ^ 32)%N.

(** [peer_container::assign_syn_cookie]; [query] is what the random pool
    generates. *)
Definition assign_syn_cookie (pc : peer_container) (endpoint_a : endpoint) (query : N)
           (now_l : Z) : option N * peer_container :=
  let ip_addr := address endpoint_a in
  let per_ip := touch ip_addr (syn_cookies_per_ip pc) in
  let ip_cookies_l := default 0%N (per_ip !! ip_addr) in
  if (ip_cookies_l <? max_peers_per_ip)%N then
    match syn_cookies pc !! endpoint_a with
    | None =>
        (Some query,
         with_cookies (<[endpoint_a := {| cookie := query; created_at := now_l |}]>
                         (syn_cookies pc))
           (<[ip_addr := incr32 ip_cookies_l]> per_ip) pc)
    | Some _ => (None, with_cookies (syn_cookies pc) per_ip pc)
    end
  else (None, with_cookies (syn_cookies pc) per_ip pc).

Section WithCrypto.

(** [chratos::validate_message (public_key, message, signature)]: [true]
    when the signature does not verify. *)
Variable validate_message : N -> N -> N -> bool.

(** [peer_container::validate_syn_cookie] *)
Definition validate_syn_cookie (pc : peer_container) (endpoint_a : endpoint)
           (node_id sig : N) : bool * peer_container :=
  let ip_addr := address endpoint_a in
  match syn_cookies pc !! endpoint_a with
  | Some cookie_it =>
      if negb (validate_message node_id (cookie cookie_it) sig) then
        let cookies := delete endpoint_a (syn_cookies pc) in
        let per_ip := touch ip_addr (syn_cookies_per_ip pc) in
        let ip_cookies_l := default 0%N (per_ip !! ip_addr) in
        if (0 <? ip_cookies_l)%N
        then (false, with_cookies cookies (<[ip_addr := decr32 ip_cookies_l]> per_ip) pc)
        else (false, with_cookies cookies per_ip pc)
      else (true, pc)
  | None => (true, pc)
  end.

End WithCrypto.

(** [peer_container::purge_syn_cookies] *)
Definition purge_syn_cookies (pc : peer_container) (cutoff : Z) : peer_container :=
  let '(cookies, per_ip) :=
    map_fold
      (fun (ep : endpoint) (info : syn_cookie_info) (st : gmap endpoint syn_cookie_info * gmap N N) =>
         let '(cookies, per_ip) := st in
         if (created_at info <? cutoff)%Z then
           let per_ip := touch (address ep) per_ip in
           let n := default 0 (per_ip !! address ep) in
           (delete ep cookies, if 0 <? n then <[address ep := decr32 n]> per_ip else per_ip)
         else st)
      (syn_cookies pc, syn_cookies_per_ip pc) (syn_cookies pc) in
  with_cookies cookies per_ip pc.

(** [peer_container::reachout] *)
Definition reachout (network : chratos_networks) (pc : peer_container)
           (endpoint_a : endpoint) (now_l : Z) : bool * peer_container :=
  let error := not_a_peer network pc endpoint_a false in
  if negb error then
    let error := known_peer pc endpoint_a in
    let error := error || bool_decide (is_Some (attempts pc !! endpoint_a)) in
    (error,
     {| self := self pc; peers := peers pc;
        attempts := match attempts pc !! endpoint_a with
                    | Some _ => attempts pc
                    | None => <[endpoint_a := now_l]> (attempts pc)
                    end;
        syn_cookies := syn_cookies pc; syn_cookies_per_ip := syn_cookies_per_ip pc;
        legacy_peers := legacy_peers pc |})
  else (error, pc).

(** [peer_container::rep_response] *)
Definition rep_response (pc : peer_container) (endpoint_a : endpoint)
           (rep_account_a weight_a : N) (now_l : Z) : bool * peer_container :=
  match peers pc !! endpoint_a with
  | Some existing =>
      ((rep_weight existing <? weight_a),
       with_peers (alter (note_rep_response now_l rep_account_a weight_a) endpoint_a (peers pc))
         (legacy_peers pc) pc)
  | None => (false, pc)
  end.

(** [peer_container::rep_request] *)
Definition rep_request (pc : peer_container) (endpoint_a : endpoint) (now_l : Z)
  : peer_container :=
  with_peers (alter (set_last_rep_request now_l) endpoint_a (peers pc)) (legacy_peers pc) pc.

(** What [peer_container::bootstrap_peer] does to the peer it picks; which
    one that is depends on the order of an index that the missing header
    declares. *)
Definition bootstrap_peer_at (pc : peer_container) (picked : endpoint) (now_l : Z)
  : peer_container :=
  with_peers (alter (set_last_bootstrap_attempt now_l) picked (peers pc)) (legacy_peers pc) pc.

Section WithVersions.

(** Protocol constants of headers that are not among the sources. *)
Variable node_id_version : N.
Variable protocol_version_min : N.
Variable max_legacy_peers_per_ip : N.

Definition is_legacy_peer (p : peer_information) : bool :=
  network_version p <? node_id_version.

(** [peer_container::insert]: the result ([true] when the endpoint is
    rejected), the container, and the calls of [peer_observer]. *)
Definition insert (network : chratos_networks) (pc : peer_container)
           (endpoint_a : endpoint) (version_a : N) (now_l : Z)
  : bool * peer_container * list endpoint :=
  let is_legacy := version_a <? node_id_version in
  let result := not_a_peer network pc endpoint_a false in
  if negb result then
    if protocol_version_min <=? version_a then
      match peers pc !! endpoint_a with
      | Some existing =>
          (true,
           with_peers (alter (set_last_contact now_l) endpoint_a (peers pc))
             (legacy_peers pc) pc,
           [])
      | None =>
          let '(legacy_peers_l, result) :=
            if is_legacy then
              if legacy_peers pc <? max_legacy_peers
              then (legacy_peers pc + 1, false)
              else (legacy_peers pc, true)
            else (legacy_peers pc, false) in
          let result :=
            if negb result && negb (is_test_network network) then
              let range := same_ip (address endpoint_a) (peers pc) in
              let ip_peers_l := N.of_nat (size range) in
              let legacy_ip_peers :=
                N.of_nat (size (filter (fun kv => is_legacy_peer (snd kv) = true) range)) in
              (max_peers_per_ip <=? ip_peers_l)
              || (is_legacy && (max_legacy_peers_per_ip <=? legacy_ip_peers))
            else result in
          if negb result then
            (false,
             with_peers (<[endpoint_a := peer_information_new endpoint_a version_a now_l]>
                           (peers pc)) legacy_peers_l pc,
             [endpoint_a])
          else (true, with_peers (peers pc) legacy_peers_l pc, [])
      end
    else (false, pc, [])
  else (true, pc, []).

(** [peer_container::contacted] *)
Definition contacted (network : chratos_networks) (pc : peer_container)
           (endpoint_a : endpoint) (version_a : N) (now_l : Z)
  : bool * peer_container :=
  if version_a <? node_id_version then
    (false, snd (fst (insert network pc endpoint_a version_a now_l)))
  else if negb (known_peer pc endpoint_a)
          && (ip_peers pc (address endpoint_a) <? max_peers_per_ip)
  then (true, pc)
  else (false, pc).

(** Modelled from the spec: the index that [purge_list] cuts at
    [lower_bound (cutoff)] is declared in a header that is not among the
    sources; the design document has it "remove peers with
    [last_contact < cutoff]", so what comes before the pivot is what is
    older than the cutoff. *)
Definition before_pivot (cutoff t : Z) : bool := (t <? cutoff)%Z.

(** [peer_container::purge_list]: the peers from the pivot on, which are
    kept, and the container. *)
Definition purge_list (pc : peer_container) (cutoff now_l : Z)
  : list peer_information * peer_container :=
  let kept :=
    filter (fun kv => before_pivot cutoff (last_contact (snd kv)) = false) (peers pc) in
  let dropped :=
    filter (fun kv => before_pivot cutoff (last_contact (snd kv)) = true) (peers pc) in
  let legacy_peers_l :=
    map_fold
      (fun _ (p : peer_information) (n : N) =>
         if is_legacy_peer p then (if 0 <? n then n - 1 else n) else n)
      (legacy_peers pc) dropped in
  (map snd (map_to_list kept),
   {| self := self pc;
      peers := set_last_attempt now_l <$> kept;
      attempts := filter (fun kv => before_pivot cutoff (snd kv) = false) (attempts pc);
      syn_cookies := syn_cookies pc; syn_cookies_per_ip := syn_cookies_per_ip pc;
      legacy_peers := legacy_peers_l |}).

(** The results of inserting endpoints one after the other. *)
Fixpoint insert_all (network : chratos_networks) (pc : peer_container)
         (endpoints : list endpoint) (version_a : N) (now_l : Z)
  : list bool * peer_container :=
  match endpoints with
  | [] => ([], pc)
  | e :: rest =>
      let '(result, pc, _) := insert network pc e version_a now_l in
      let '(results, pc) := insert_all network pc rest version_a now_l in
      (result :: results, pc)
  end.

(** The states of the container under any sequence of its operations. *)
Inductive reachable (network : chratos_networks) : peer_container -> Prop :=
| reach_new self_a :
    reachable network (peer_container_new self_a)
| reach_insert pc endpoint_a version_a now_l :
    reachable network pc ->
    reachable network (snd (fst (insert network pc endpoint_a version_a now_l)))
| reach_contacted pc endpoint_a version_a now_l :
    reachable network pc ->
    reachable network (snd (contacted network pc endpoint_a version_a now_l))
| reach_purge_list pc cutoff now_l :
    reachable network pc ->
    reachable network (snd (purge_list pc cutoff now_l))
| reach_rep_response pc endpoint_a rep_account_a weight_a now_l :
    reachable network pc ->
    reachable network (snd (rep_response pc endpoint_a rep_account_a weight_a now_l))
| reach_rep_request pc endpoint_a now_l :
    reachable network pc ->
    reachable network (rep_request pc endpoint_a now_l)
| reach_bootstrap_peer pc picked now_l :
    reachable network pc ->
    reachable network (bootstrap_peer_at pc picked now_l)
| reach_reachout pc endpoint_a now_l :
    reachable network pc ->
    reachable network (snd (reachout network pc endpoint_a now_l))
| reach_assign_syn_cookie pc endpoint_a query now_l :
    reachable network pc ->
    reachable network (snd (assign_syn_cookie pc endpoint_a query now_l))
| reach_validate_syn_cookie validate_message pc endpoint_a node_id sig :
    reachable network pc ->
    reachable network (snd (validate_syn_cookie validate_message pc endpoint_a node_id sig))
| reach_purge_syn_cookies pc cutoff :
    reachable network pc ->
    reachable network (purge_syn_cookies pc cutoff).

End WithVersions.

(** No address has more than ten peers. *)
Definition capped (m : gmap endpoint peer_information) : Prop :=
  forall ip, (size (same_ip ip m) <= 10)%nat.

(** What [insert_all] answers when the address already has [c] peers. *)
Fixpoint expected_results (c : N) (n : nat) : list bool :=
  match n with
  | O => []
  | S n' =>
      (max_peers_per_ip <=? c)%N
        :: expected_results (if (max_peers_per_ip <=? c)%N then c else (c + 1)%N) n'
  end.

End Peers.

Module PeerData.
Import Peers.
Local Open Scope N_scope.

(** A public address, [2a00::1], with port [p]. *)
Definition public_endpoint (p : N) : endpoint := (0x2a00 * 2 ^ 112 + 1, p).

Definition self0 : endpoint := (0x2a00 * 2 ^ 112 + 2, 7075).

Definition pc0 : peer_container := peer_container_new self0.

(** Signatures verify when they repeat the message. *)
Definition echo_signature (node_id message sig : N) : bool := negb (message =? sig).

(** Eleven endpoints of one address. *)
Definition eleven_endpoints : list endpoint :=
  map public_endpoint [1; 2; 3; 4; 5; 6; 7; 8; 9; 10; 11].

End PeerData.

(** * The gap cache *)

Module GapCache.
Import Chratos.

Record gap_information := { arrival : Z; gi_hash : Z; voters : gset Z }.

(** The cache, by block hash. *)
Record gap_cache := { blocks : gmap Z gap_information }.

(** [alarm.add (wakeup, ...)]: the check that starts a bootstrap when the
    block is still missing. *)
Record alarm := { wakeup : Z; missing : Z }.

Definition milliseconds (n : Z) : Z := n * 1000000.

(** [gap_cache::bootstrap_threshold] *)
Definition bootstrap_threshold (env : node_env) : Z :=
  wrap 128 ((online_stake env / 256) * bootstrap_fraction_numerator env).

(** The sum over [existing->voters] in [gap_cache::vote]. *)
Definition voters_tally (env : node_env) (vs : gset Z) : Z :=
  set_fold (fun voter tally => wrap 128 (tally + ledger_weight env voter)) 0 vs.

(** The hash a vote entry stands for. *)
Definition vote_block_hash (vb : vote_block) : Z :=
  match vb with
  | vote_full b => block_hash b
  | vote_hash h => h
  end.

(** One turn of the loop of [gap_cache::vote]. *)
Definition vote_hash_step (env : node_env) (account_a : Z)
           (st : gap_cache * list alarm) (hash : Z) : gap_cache * list alarm :=
  let '(gc, alarms) := st in
  match blocks gc !! hash with
  | Some existing =>
      let is_new := bool_decide (account_a ∉ voters existing) in
      let info := {| arrival := arrival existing; gi_hash := gi_hash existing;
                     voters := {[account_a]} ∪ voters existing |} in
      let gc := {| blocks := <[hash := info]> (blocks gc) |} in
      if is_new then
        let tally := voters_tally env (voters info) in
        if tally >? bootstrap_threshold env then
          let now_l := now env in
          (gc, alarms ++ [{| wakeup := if is_test_network (chratos_network env)
                                       then now_l + milliseconds 5
                                       else now_l + seconds 5;
                             missing := hash |}])
        else (gc, alarms)
      else (gc, alarms)
  | None => (gc, alarms)
  end.

(** [gap_cache::vote] *)
Definition vote (env : node_env) (gc : gap_cache) (vote_a : Chratos.vote)
  : gap_cache * list alarm :=
  fold_left (vote_hash_step env (account vote_a))
    (map vote_block_hash (vote_blocks vote_a)) (gc, []).

End GapCache.

Module GapData.
Import Chratos GapCache.

(** An online stake of 255 and a numerator of 2; account 5 weighs 1. *)
Definition env_gap : node_env :=
  {| chratos_network := chratos_live_network;
     not_an_account := 0;
     online_stake_total := 255;
     online_weight_minimum := 100;
     online_weight_quorum := 50;
     bootstrap_fraction_numerator := 2;
     ledger_weight := ElectionData.weights_of 1;
     now := seconds 100 |}.

(** The cache with the one gap 11, which nobody has voted for. *)
Definition gc11 : gap_cache :=
  {| blocks := {[ 11 := {| arrival := seconds 90; gi_hash := 11; voters := ∅ |} ]} |}.

End GapData.

(** ** The other unions of numbers.cpp *)

(** [chratos::uint128_union]: 16 bytes, big-endian. *)
Module Uint128.

Record uint128_union := { bytes : list byte }.

(** [uint128_union::number] *)
Definition number (u : uint128_union) : Z :=
  fst (fold_left
         (fun (st : Z * Z) (i : byte) =>
            let '(result, shift) := st in
            (Z.lor (wrap 128 (Z.shiftl result shift)) (byte_val i), 8))
         (bytes u) (0, 0)).

(** [uint128_union (uint128_t const &)] *)
Definition of_number (value_a : Z) : uint128_union :=
  {| bytes := rev (Numbers.fill_rbegin 16 value_a) |}.

(** [uint128_union::operator<] and [operator>] *)
Definition lt (a b : uint128_union) : bool := number a <? number b.
Definition gt (a b : uint128_union) : bool := number a >? number b.

(** [uint128_union::is_zero]: both quad words are zero. *)
Definition is_zero (u : uint128_union) : bool :=
  forallb (fun b => byte_val b =? 0) (bytes u).

End Uint128.

(** [chratos::uint512_union]: 64 bytes, big-endian. *)
Module Uint512.

Record uint512_union := { bytes : list byte }.

(** [uint512_union::number] *)
Definition number (u : uint512_union) : Z :=
  fst (fold_left
         (fun (st : Z * Z) (i : byte) =>
            let '(result, shift) := st in
            (Z.lor (wrap 512 (Z.shiftl result shift)) (byte_val i), 8))
         (bytes u) (0, 0)).

(** [uint512_union (uint512_t const &)] *)
Definition of_number (number_a : Z) : uint512_union :=
  {| bytes := rev (Numbers.fill_rbegin 64 number_a) |}.

End Uint512.

(** ** Formatting of amounts *)

Module Format.

(** The character of a decimal digit. *)
Definition digit_char (d : Z) : ascii := ascii_of_N (Z.to_N (48 + d)).

(** [stream << val] for a number: its decimal digits.  A 128-bit number
    has at most 39 of them. *)
Fixpoint decimal_digits (fuel : nat) (n : Z) : list ascii :=
  match fuel with
  | O => []
  | S fuel' =>
      if n <? 10 then [digit_char n]
      else decimal_digits fuel' (n / 10) ++ [digit_char (n mod 10)]
  end.

Definition print_number (n : Z) : list ascii := decimal_digits 39 n.

(** The loop of [format_frac]; [None] stands for the exception that the
    division by zero raises, and for the fuel that does not suffice. *)
Fixpoint format_frac_loop (fuel : nat) (reduce rem precision : Z) : option (list ascii) :=
  match fuel with
  | O => None
  | S fuel' =>
      if (reduce >? 1) && (rem >? 0) && (precision >? 0) then
        let reduce := reduce / 10 in
        if reduce =? 0 then None
        else
          let val := rem / reduce in
          let rem := wrap 128 (rem - wrap 128 (val * reduce)) in
          match format_frac_loop fuel' reduce rem (precision - 1) with
          | Some rest => Some (print_number val ++ rest)
          | None => None
          end
      else Some []
  end.

(** [format_frac]: every turn divides [reduce] by ten, so that forty turns
    exhaust a 128-bit scale. *)
Definition format_frac (value scale precision : Z) : option (list ascii) :=
  format_frac_loop 40 scale value precision.

(** The first loop of [format_dec]: the greatest power of ten that is at
    most [value], in 256 bits, and the number of digits.  [None] when the
    fuel does not suffice. *)
Fixpoint largest_pow10 (fuel : nat) (value largestPow10 dec_count : Z) : option (Z * Z) :=
  match fuel with
  | O => None
  | S fuel' =>
      let next := wrap 256 (largestPow10 * 10) in
      if next >? value then Some (largestPow10, dec_count)
      else largest_pow10 fuel' value next (dec_count + 1)
  end.

(** The loop that fills [emit_group]; the characters of [groupings] are
    given by their values as [char].  [groupings[group_index]] is the
    terminating zero at the length of the string; behind it and before the
    string there is nothing to read: [None]. *)
Fixpoint emit_groups (n : nat) (groupings : list Z) (group_index group_count : Z)
  : option (list bool) :=
  match n with
  | O => Some []
  | S n' =>
      let group_count := group_count + 1 in
      if (group_index <? 0) || (group_index >? Z.of_nat (length groupings)) then None
      else
        if group_count >? nth (Z.to_nat group_index) groupings 0 then
          let group_index := Z.min (group_index + 1) (Z.of_nat (length groupings) - 1) in
          option_map (cons true) (emit_groups n' groupings group_index 1)
        else option_map (cons false) (emit_groups n' groupings group_index group_count)
  end.

(** The last loop of [format_dec].  [emit_group] is read only when
    [group_sep] is not zero; [None] when it is read where it was not
    written, or when the fuel does not suffice. *)
Fixpoint emit_digits (fuel : nat) (reduce rem dec_count : Z) (group_sep : ascii)
         (emit_group : list bool) : option (list ascii) :=
  match fuel with
  | O => None
  | S fuel' =>
      if reduce >? 0 then
        let val := rem / reduce in
        let rem := wrap 128 (rem - wrap 128 (val * reduce)) in
        let dec_count := dec_count - 1 in
        let separator :=
          if Ascii.eqb group_sep zero then Some []
          else
            if dec_count <? 0 then None
            else
              match nth_error emit_group (Z.to_nat dec_count) with
              | Some emit => Some (if emit && (reduce >? 1) then [group_sep] else [])
              | None => None
              end in
        match separator, emit_digits fuel' (reduce / 10) rem dec_count group_sep emit_group with
        | Some sep, Some rest => Some (print_number val ++ sep ++ rest)
        | _, _ => None
        end
      else Some []
  end.

(** [format_dec] *)
Definition format_dec (value : Z) (group_sep : ascii) (groupings : list Z)
  : option (list ascii) :=
  match largest_pow10 40 value 1 1 with
  | None => None
  | Some (largestPow10, dec_count) =>
      if dec_count >? 39 then Some []
      else
        let emit_group :=
          if Ascii.eqb group_sep zero then Some []
          else emit_groups (Z.to_nat dec_count) groupings 0 0 in
        match emit_group with
        | None => None
        | Some emit_group =>
            emit_digits 41 (wrap 128 largestPow10) value dec_count group_sep emit_group
        end
  end.

(** [prec_scale /= 10], [precision] times. *)
Fixpoint divide_by_ten (n : nat) (prec_scale : Z) : Z :=
  match n with
  | O => prec_scale
  | S n' => divide_by_ten n' (prec_scale / 10)
  end.

(** [format_balance]; [None] stands for the exception that a division by
    zero raises. *)
Definition format_balance (balance scale precision : Z) (group_digits : bool)
           (thousands_sep decimal_point : ascii) (grouping : list Z) : option (list ascii) :=
  if scale =? 0 then None
  else
    let int_part := balance / scale in
    let frac_part := balance mod scale in
    let prec_scale := divide_by_ten (Z.to_nat precision) scale in
    if (int_part =? 0) && (frac_part >? 0) && (prec_scale =? 0) then None
    else if (int_part =? 0) && (frac_part >? 0) && (frac_part / prec_scale =? 0) then
      Some (list_ascii_of_string "< "
            ++ (if precision >? 0
                then list_ascii_of_string "0" ++ [decimal_point]
                     ++ repeat "0"%char (Z.to_nat (precision - 1))
                else [])
            ++ list_ascii_of_string "1")
    else
      match format_dec int_part
              (if group_digits && negb (length grouping =? 0)%nat then thousands_sep else zero)
              grouping with
      | None => None
      | Some digits =>
          if (precision >? 0) && (frac_part >? 0) then
            match format_frac frac_part scale precision with
            | Some frac => Some (digits ++ [decimal_point] ++ frac)
            | None => None
            end
          else Some digits
      end.

(** The number that a string of decimal digits spells. *)
Definition digits_number (s : list ascii) : Z :=
  fold_left (fun a c => a * 10 + (char_code c - 48)) s 0.

Definition is_digit (c : ascii) : Prop := 48 <= char_code c <= 57.

(** The digits in groups of three, counted from the right. *)
Fixpoint group_thousands (group_sep : ascii) (digits : list ascii) : list ascii :=
  match digits with
  | [] => []
  | c :: rest =>
      c :: (if (0 <? length rest)%nat && (length rest mod 3 =? 0)%nat
            then group_sep :: group_thousands group_sep rest
            else group_thousands group_sep rest)
  end.

End Format.

(** * The online representatives *)

Module OnlineReps.

(** [reps], by representative: the time at which it was last heard. *)
Record online_reps := {
  reps : gmap Z Z;
  online_stake_total : Z
}.

(** The constructor: no representative, no stake. *)
Definition online_reps_new : online_reps := {| reps := ∅; online_stake_total := 0 |}.

(** What the eviction loop of [vote] does to the sum for one entry: the
    subtraction in 128 bits and the test for underflow. *)
Definition deduct (env : node_env) (representative : Z) (online_stake_total : Z) : Z :=
  let old_stake := online_stake_total in
  let online_stake_total := wrap 128 (online_stake_total - ledger_weight env representative) in
  if online_stake_total >? old_stake then 0 else online_stake_total.

(** What [vote] does to the sum for a representative that is new: the
    addition in 128 bits and the test for overflow. *)
Definition credit (env : node_env) (rep : Z) (online_stake_total : Z) : Z :=
  let old_stake := online_stake_total in
  let online_stake_total := wrap 128 (online_stake_total + ledger_weight env rep) in
  if online_stake_total <? old_stake then 2 ^ 128 - 1 else online_stake_total.

Section WithCutoff.

(** [chratos::node::cutoff], in seconds; it is declared in a header that is
    not among the sources. *)
Variable cutoff : Z.

(** The test of the eviction loop: [last_heard + cutoff < now]. *)
Definition expired (now_l last_heard : Z) : bool :=
  last_heard + seconds cutoff <? now_l.

(** [online_reps::vote].  Modelled from the spec for the order of [reps]:
    its first index is declared in a header that is not among the sources;
    the design document has the call "evict entries older than cutoff", so
    the loop, which starts at [reps.begin ()] and stops at the first entry
    that has not expired, meets the expired entries and no other.  The order
    in which their weights are deducted does not change the sum. *)
Definition vote (env : node_env) (o : online_reps) (rep : Z) : online_reps :=
  let now_l := now env in
  let evicted := filter (fun kv => expired now_l (snd kv) = true) (reps o) in
  let kept := filter (fun kv => expired now_l (snd kv) = false) (reps o) in
  let total := map_fold (fun representative _ t => deduct env representative t)
                        (online_stake_total o) evicted in
  match kept !! rep with
  | None => {| reps := <[rep := now_l]> kept; online_stake_total := credit env rep total |}
  | Some _ => {| reps := <[rep := now_l]> kept; online_stake_total := total |}
  end.

End WithCutoff.

(** [online_reps::recalculate_stake] (the alarm that runs it again after
    five minutes left out). *)
Definition recalculate_stake (env : node_env) (o : online_reps) : online_reps :=
  {| reps := reps o;
     online_stake_total :=
       map_fold (fun representative _ t => wrap 128 (t + ledger_weight env representative))
                0 (reps o) |}.

(** [online_reps::online_stake] *)
Definition online_stake (env : node_env) (o : online_reps) : Z :=
  Z.max (online_stake_total o) (online_weight_minimum env).

(** The ledger weight of a set of representatives. *)
Definition stake_sum (env : node_env) (m : gmap Z Z) : Z :=
  map_fold (fun representative _ s => s + ledger_weight env representative) 0 m.

(** Ledger weights are 128-bit numbers. *)
Definition weights_in_range (env : node_env) : Prop :=
  forall representative, 0 <= ledger_weight env representative < 2 ^ 128.

End OnlineReps.

Module OnlineData.

(** Representative 5 was heard at second 10, representative 6 at second
    400. *)
Definition o56 : OnlineReps.online_reps :=
  {| OnlineReps.reps := {[ 5 := seconds 10; 6 := seconds 400 ]};
     OnlineReps.online_stake_total := 100 |}.

(** Representatives 5, 6 and 7 weigh 60, 40 and 30; the clock shows [t]
    seconds. *)
Definition env_online (t : Z) : node_env :=
  {| chratos_network := chratos_live_network;
     not_an_account := 0;
     online_stake_total := 0;
     online_weight_minimum := 50;
     online_weight_quorum := 50;
     bootstrap_fraction_numerator := 1;
     ledger_weight := fun rep => if rep =? 5 then 60 else if rep =? 6 then 40
                                 else if rep =? 7 then 30 else 0;
     now := seconds t |}.

End OnlineData.

(** * Block arrival *)

Module BlockArrival.

Record block_arrival_info := { arrival : Z; hash : Z }.

(** The container [arrival] of [block_arrival], in the order of its first
    index.  Modelled from the spec: the indices are declared in a header that
    is not among the sources; the design document has "a bounded set of
    recently arrived block hashes with insertion timestamps" of which
    "entries older than [arrival_time_min] are evicted", so the first index
    is taken to order by arrival time, oldest first, and the second to be
    unique by hash. *)
Definition block_arrival : Type := list block_arrival_info.

(** [arrival.get<1> ().find (hash_a) != arrival.get<1> ().end ()] *)
Definition known (ba : block_arrival) (hash_a : Z) : bool :=
  existsb (fun i => hash i =? hash_a) ba.

(** Insertion into the index that orders by arrival time: an entry goes
    behind the entries that are not younger. *)
Fixpoint insert_by_arrival (item : block_arrival_info) (ba : block_arrival) : block_arrival :=
  match ba with
  | [] => [item]
  | x :: ba' =>
      if arrival item <? arrival x then item :: x :: ba'
      else x :: insert_by_arrival item ba'
  end.

(** [block_arrival::add]: [true] when the hash was there already. *)
Definition add (ba : block_arrival) (hash_a now_l : Z) : bool * block_arrival :=
  if known ba hash_a then (true, ba)
  else (false, insert_by_arrival {| arrival := now_l; hash := hash_a |} ba).

Section WithLimits.

(** [arrival_size_min] and [arrival_time_min] (in seconds) are declared in
    a header that is not among the sources. *)
Variable arrival_size_min : Z.
Variable arrival_time_min : Z.

(** The loop of [block_arrival::recent]. *)
Fixpoint evict (now_l : Z) (ba : block_arrival) : block_arrival :=
  match ba with
  | [] => []
  | x :: ba' =>
      if (Z.of_nat (length ba) >? arrival_size_min)
         && (arrival x + seconds arrival_time_min <? now_l)
      then evict now_l ba'
      else ba
  end.

(** [block_arrival::recent] *)
Definition recent (ba : block_arrival) (hash_a now_l : Z) : bool * block_arrival :=
  let ba := evict now_l ba in
  (known ba hash_a, ba).

End WithLimits.

End BlockArrival.


(** * Notions used to state further properties *)

(** ** Elections *)

Module TallySpec.
Import Election.


(** The votes of [last_votes] that name the hash [h]. *)
Definition votes_for (h : Z) (m : gmap Z vote_info) : gmap Z vote_info :=
  filter (fun kv => vi_hash (snd kv) = h) m.

(** The ledger weight of the representatives of a set of votes. *)
Definition weight_sum (env : node_env) (m : gmap Z vote_info) : Z :=
  map_fold (fun rep _ s => s + ledger_weight env rep) 0 m.

End TallySpec.

Module VoteEvents.
Import Active.

Definition is_confirm_send (ev : node_event) : bool :=
  match ev with confirm_send _ _ => true | _ => false end.

End VoteEvents.

(** ** The peer container *)

Module PeerSpec.
Import Peers.
Local Open Scope N_scope.

(** The number of peers of a version below [node_id_version]. *)
Definition legacy_count (node_id_version : N) (m : gmap endpoint peer_information) : N :=
  N.of_nat (size (filter (fun kv => is_legacy_peer node_id_version (snd kv) = true) m)).

(** The number of cookies that are outstanding for an address. *)
Definition cookie_count (ip : N) (c : gmap endpoint syn_cookie_info) : N :=
  N.of_nat (size (filter (fun kv => address (fst kv) = ip) c)).

(** The counters of [syn_cookies_per_ip] agree with the cookies, and no
    address is over its cap. *)
Definition cookies_counted (c : gmap endpoint syn_cookie_info) (n : gmap N N) : Prop :=
  forall ip, default 0 (n !! ip) = cookie_count ip c /\ cookie_count ip c <= max_peers_per_ip.

End PeerSpec.

(** ** The gap cache *)

Module GapSpec.
Import GapCache.

(** The account has voted for the gap [h], if the cache holds it. *)
Definition has_voted (account_a : Z) (gc : gap_cache) (h : Z) : Prop :=
  forall info, blocks gc !! h = Some info -> account_a ∈ voters info.

End GapSpec.

(** * Properties of the account codec *)

Section ArithFacts.

Lemma byte_val_range (b : byte) : 0 <= byte_val b < 256.
Proof.
  unfold byte_val. pose proof (Byte.to_N_bounded b). lia.
Qed.

Lemma uint8_val (z : Z) : byte_val (uint8 z) = z mod 256.
Proof.
  unfold uint8, byte_val.
  assert (Hr : 0 <= z mod 256 < 256) by (apply Z.mod_pos_bound; lia).
  destruct (Byte.of_N (Z.to_N (z mod 256))) as [b|] eqn:E.
  - apply Byte.to_of_N in E. rewrite E. lia.
  - apply Byte.of_N_None_iff in E. lia.
Qed.

Lemma uint8_byte_val (b : byte) : uint8 (byte_val b) = b.
Proof.
  unfold uint8. pose proof (byte_val_range b) as Hr.
  rewrite Z.mod_small by lia. unfold byte_val.
  rewrite N2Z.id, Byte.of_to_N. reflexivity.
Qed.

Lemma land_shifted_low (a b k : Z) :
  0 <= k -> 0 <= b < 2 ^ k -> Z.land (a * 2 ^ k) b = 0.
Proof.
  intros Hk Hb. apply Z.bits_inj'. intros n Hn.
  rewrite Z.land_spec, Z.bits_0.
  destruct (Z.lt_ge_cases n k) as [Hlt|Hge].
  - rewrite Z.mul_pow2_bits_low by lia. reflexivity.
  - rewrite <- (Z.mod_small b (2 ^ k)) by lia.
    rewrite Z.mod_pow2_bits_high by lia. apply andb_false_r.
Qed.

Lemma lor_shifted_low (a b k : Z) :
  0 <= k -> 0 <= b < 2 ^ k -> Z.lor (a * 2 ^ k) b = a * 2 ^ k + b.
Proof.
  intros Hk Hb. pose proof (land_shifted_low a b k Hk Hb) as H0.
  rewrite Z.add_nocarry_lxor by exact H0. symmetry. apply Z.lxor_lor, H0.
Qed.

Lemma land_ones_mod (x k : Z) : 0 <= k -> Z.land x (2 ^ k - 1) = x mod 2 ^ k.
Proof.
  intros Hk. replace (2 ^ k - 1) with (Z.ones k) by (rewrite Z.ones_equiv; lia).
  apply Z.land_ones, Hk.
Qed.

End ArithFacts.

Section DigitFacts.

Variable k : Z.
Hypothesis k_pos : 0 < k.
Hypothesis k_le : k <= 8.

Let base_pos : 0 < 2 ^ k.
Proof. apply Z.pow_pos_nonneg; lia. Qed.

Let base_le : 2 ^ k <= 256.
Proof. change 256 with (2 ^ 8). apply Z.pow_le_mono_r; lia. Qed.

Lemma length_le_digits (n : nat) (x : Z) : length (le_digits k n x) = n.
Proof. revert x. induction n as [|n IH]; intros x; simpl; [reflexivity|]. now rewrite IH. Qed.

Lemma le_digits_small (n : nat) (x : Z) :
  Forall (fun d => 0 <= byte_val d < 2 ^ k) (le_digits k n x).
Proof.
  revert x. induction n as [|n IH]; intros x; simpl; constructor; [|apply IH].
  rewrite uint8_val. pose proof (Z.mod_pos_bound x (2 ^ k) base_pos).
  rewrite Z.mod_small; lia.
Qed.

Lemma le_value_bound (l : list byte) :
  Forall (fun d => 0 <= byte_val d < 2 ^ k) l ->
  0 <= le_value (2 ^ k) l < (2 ^ k) ^ Z.of_nat (length l).
Proof.
  induction 1 as [|d l Hd Hl IH]; [simpl; lia|].
  cbn [le_value length]. rewrite Nat2Z.inj_succ, Z.pow_succ_r by lia. nia.
Qed.

Lemma le_value_digits (n : nat) (x : Z) :
  0 <= x -> le_value (2 ^ k) (le_digits k n x) = x mod (2 ^ k) ^ Z.of_nat n.
Proof.
  revert x. induction n as [|n IH]; intros x Hx.
  - simpl. now rewrite Z.mod_1_r.
  - cbn [le_digits le_value]. rewrite IH by (apply Z.div_pos; lia).
    rewrite uint8_val, Nat2Z.inj_succ, Z.pow_succ_r by lia.
    pose proof (Z.mod_pos_bound x (2 ^ k) base_pos).
    rewrite (Z.mod_small (x mod 2 ^ k) 256) by lia.
    assert (Hp : 0 < (2 ^ k) ^ Z.of_nat n) by (apply Z.pow_pos_nonneg; lia).
    rewrite (Z.rem_mul_r x (2 ^ k) ((2 ^ k) ^ Z.of_nat n)) by lia. reflexivity.
Qed.

Lemma le_digits_value (l : list byte) :
  Forall (fun d => 0 <= byte_val d < 2 ^ k) l ->
  le_digits k (length l) (le_value (2 ^ k) l) = l.
Proof.
  induction 1 as [|d l Hd Hl IH]; [reflexivity|].
  cbn [le_value length le_digits].
  pose proof (le_value_bound l Hl) as Hb.
  replace ((byte_val d + 2 ^ k * le_value (2 ^ k) l) mod 2 ^ k) with (byte_val d).
  2:{ rewrite Z.mul_comm, Z.mod_add by lia. now rewrite Z.mod_small by lia. }
  replace ((byte_val d + 2 ^ k * le_value (2 ^ k) l) / 2 ^ k) with (le_value (2 ^ k) l).
  2:{ rewrite Z.mul_comm, Z.div_add by lia. rewrite Z.div_small by lia. lia. }
  now rewrite uint8_byte_val, IH.
Qed.

End DigitFacts.

Section NumberFacts.

Import Numbers.

Lemma fill_rbegin_digits (n : nat) (x : Z) : fill_rbegin n x = le_digits 8 n x.
Proof.
  revert x. induction n as [|n IH]; intros x; [reflexivity|].
  cbn [fill_rbegin le_digits]. rewrite IH, Z.shiftr_div_pow2 by lia.
  change 255 with (2 ^ 8 - 1). now rewrite land_ones_mod by lia.
Qed.

Lemma encode_loop_digits (n : nat) (x : Z) (destination_a : list ascii) :
  encode_loop n x destination_a
  = destination_a ++ map account_encode (le_digits 5 n x).
Proof.
  revert x destination_a. induction n as [|n IH]; intros x dest.
  - simpl. now rewrite app_nil_r.
  - cbn [encode_loop le_digits map]. rewrite IH, <- app_assoc, Z.shiftr_div_pow2 by lia.
    change 31 with (2 ^ 5 - 1). now rewrite land_ones_mod by lia.
Qed.

Lemma bytes_small (l : list byte) : Forall (fun d => 0 <= byte_val d < 2 ^ 8) l.
Proof. apply Forall_forall. intros b _. apply byte_val_range. Qed.

Lemma number_fold (l : list byte) :
  (length l <= 32)%nat ->
  fold_left
    (fun (st : Z * Z) (i : byte) =>
       let '(result, shift) := st in
       (Z.lor (wrap 256 (Z.shiftl result shift)) (byte_val i), 8))
    l (0, 0)
  = (le_value 256 (rev l), match l with [] => 0 | _ => 8 end).
Proof.
  induction l as [|b l IH] using rev_ind; intros Hlen; [reflexivity|].
  rewrite length_app in Hlen. simpl in Hlen.
  rewrite fold_left_app, IH by lia. cbn [fold_left].
  rewrite rev_app_distr. cbn [rev app le_value].
  pose proof (byte_val_range b) as Hb.
  assert (Hv := le_value_bound 8 ltac:(lia) ltac:(lia) (rev l) (bytes_small _)).
  rewrite length_rev in Hv. change (2 ^ 8) with 256 in Hv.
  replace (match l ++ [b] with [] => 0 | _ => 8 end) with 8 by (now destruct l).
  f_equal. destruct l as [|c l'].
  - cbn [rev le_value]. rewrite Z.shiftl_0_l. unfold wrap. rewrite Z.mod_0_l by lia.
    rewrite Z.lor_0_l. lia.
  - set (v := le_value 256 (rev (c :: l'))) in *.
    rewrite Z.shiftl_mul_pow2 by lia. unfold wrap.
    assert (256 ^ Z.of_nat (length (c :: l')) <= 256 ^ 31)
      by (apply Z.pow_le_mono_r; lia).
    rewrite Z.mod_small by (change (2 ^ 256) with (256 ^ 31 * 2 ^ 8); nia).
    rewrite lor_shifted_low by lia. lia.
Qed.

Lemma number_le_value (u : uint256_union) :
  (length (bytes u) <= 32)%nat -> number u = le_value 256 (rev (bytes u)).
Proof. intros H. unfold number. now rewrite number_fold. Qed.

Lemma number_range (u : uint256_union) :
  length (bytes u) = 32%nat -> 0 <= number u < 2 ^ 256.
Proof.
  intros H. rewrite number_le_value by lia.
  assert (Hv := le_value_bound 8 ltac:(lia) ltac:(lia) (rev (bytes u)) (bytes_small _)).
  rewrite length_rev, H in Hv. exact Hv.
Qed.

Lemma number_of_number (x : Z) : 0 <= x -> number (of_number x) = x mod 2 ^ 256.
Proof.
  intros Hx. rewrite number_le_value.
  - cbn [of_number bytes]. rewrite rev_involutive, fill_rbegin_digits.
    now rewrite (le_value_digits 8) by lia.
  - cbn [of_number bytes]. rewrite length_rev, fill_rbegin_digits, length_le_digits. lia.
Qed.

Lemma of_number_number (u : uint256_union) :
  length (bytes u) = 32%nat -> of_number (number u) = u.
Proof.
  intros H. rewrite number_le_value by lia. destruct u as [bs]. cbn [bytes] in *.
  unfold of_number. f_equal. rewrite fill_rbegin_digits.
  rewrite <- H, <- (length_rev bs).
  change 256 with (2 ^ 8).
  rewrite (le_digits_value 8) by (lia || apply bytes_small).
  apply rev_involutive.
Qed.

End NumberFacts.

Section CodecFacts.

Import Numbers.

Variable blake2b : nat -> list byte -> list byte.

Lemma account_decode_encode (r : byte) :
  byte_val r < 32 ->
  let c := char_code (account_encode r) in
  (c <? 0x30) || (c >=? 0x80) = false
  /\ account_decode c = byte_val r
  /\ (account_decode c =? char_code "~") = false.
Proof.
  destruct r; vm_compute; intros H; try discriminate H; repeat split.
Qed.

Lemma le_value_app (base : Z) (l1 l2 : list byte) :
  le_value base (l1 ++ l2)
  = le_value base l1 + base ^ Z.of_nat (length l1) * le_value base l2.
Proof.
  induction l1 as [|b l1 IH]; [simpl; lia|].
  cbn [app le_value length]. rewrite IH, Nat2Z.inj_succ, Z.pow_succ_r by lia. ring.
Qed.

Lemma decode_loop_encoded (ds : list byte) (acc : Z) :
  Forall (fun d => 0 <= byte_val d < 2 ^ 5) ds ->
  0 <= acc -> (acc + 1) * 32 ^ Z.of_nat (length ds) <= 2 ^ 512 ->
  decode_loop (map account_encode ds) acc
  = Some (acc * 32 ^ Z.of_nat (length ds) + le_value 32 (rev ds)).
Proof.
  intros Hds. revert acc. induction Hds as [|d ds Hd Hds IH]; intros acc Hacc Hfit.
  - simpl in *. f_equal. lia.
  - cbn [map decode_loop].
    destruct (account_decode_encode d ltac:(change 32 with (2 ^ 5); lia)) as (E1 & E2 & E3).
    cbv zeta in E1, E2, E3. rewrite E1, E3, E2.
    cbn [length] in Hfit. rewrite Nat2Z.inj_succ, Z.pow_succ_r in Hfit by lia.
    assert (Hp : 0 < 32 ^ Z.of_nat (length ds)) by (apply Z.pow_pos_nonneg; lia).
    change (2 ^ 5) with 32 in Hd.
    assert (Hs : wrap 512 (wrap 512 (Z.shiftl acc 5) + byte_val d) = acc * 32 + byte_val d).
    { rewrite Z.shiftl_mul_pow2 by lia. change (2 ^ 5) with 32. unfold wrap.
      rewrite (Z.mod_small (acc * 32)) by nia. apply Z.mod_small. nia. }
    rewrite Hs, IH by nia.
    cbn [rev length]. rewrite le_value_app, length_rev, Nat2Z.inj_succ, Z.pow_succ_r by lia.
    cbn [le_value]. f_equal. ring.
Qed.

Lemma decode_loop_app (l1 l2 : list ascii) (acc : Z) :
  decode_loop (l1 ++ l2) acc
  = match decode_loop l1 acc with
    | Some n => decode_loop l2 n
    | None => None
    end.
Proof.
  revert acc. induction l1 as [|c l1 IH]; intros acc; [reflexivity|].
  cbn [app decode_loop].
  destruct ((char_code c <? 48) || (char_code c >=? 128)); [reflexivity|].
  destruct (account_decode (char_code c) =? char_code "~"); [reflexivity|].
  apply IH.
Qed.

(** What [decode_account] does with a string that starts with [chr_] and has
    sixty more symbols, the first of which is [1] or [3]. *)
Lemma decode_account_chr (this : uint256_union) (rest : list ascii) :
  length rest = 60%nat ->
  nth 0 rest zero = "1"%char \/ nth 0 rest zero = "3"%char ->
  decode_account blake2b this
    (string_of_list_ascii ("c" :: "h" :: "r" :: "_" :: rest)%char)
  = match decode_loop rest 0 with
    | None => (true, this)
    | Some number_l =>
        let this' := of_number (wrap 256 (Z.shiftr number_l 40)) in
        (negb (Z.land number_l 0xffffffffff =? account_check blake2b this'), this')
    end.
Proof.
  intros Hlen Hfirst. unfold decode_account.
  rewrite list_ascii_of_string_of_list_ascii.
  cbn [length]. rewrite Hlen. cbn [nth skipn].
  change (Nat.ltb 64 5) with false. cbv iota.
  change (Ascii.eqb "c" "c") with true. change (Ascii.eqb "h" "h") with true.
  change (Ascii.eqb "r" "r") with true. change (Ascii.eqb "_" "_") with true.
  change (Ascii.eqb "c" "n") with false.
  cbn [andb orb negb Nat.eqb].
  destruct Hfirst as [-> | ->]; reflexivity.
Qed.

End CodecFacts.

Section DecodeFacts.

Import Numbers.

Variable blake2b : nat -> list byte -> list byte.


End DecodeFacts.

Section ChecksumFacts.

Import Numbers.

Lemma le_digits_snoc (k : Z) (n : nat) (x : Z) :
  0 < k ->
  le_digits k (S n) x = le_digits k n x ++ [uint8 ((x / (2 ^ k) ^ Z.of_nat n) mod 2 ^ k)].
Proof.
  intros Hk. assert (Hb : 0 < 2 ^ k) by (apply Z.pow_pos_nonneg; lia).
  revert x. induction n as [|n IH]; intros x.
  - simpl. now rewrite Z.div_1_r.
  - change (le_digits k (S (S n)) x)
      with (uint8 (x mod 2 ^ k) :: le_digits k (S n) (x / 2 ^ k)).
    rewrite IH. cbn [le_digits app]. do 3 f_equal.
    rewrite Nat2Z.inj_succ, Z.pow_succ_r by lia.
    rewrite Z.div_div by (try apply Z.pow_pos_nonneg; lia). reflexivity.
Qed.







End ChecksumFacts.

Section CodecTheorems.

Import Numbers.

Variable blake2b : nat -> list byte -> list byte.

Lemma account_check_range (u : uint256_union) : 0 <= account_check blake2b u < 2 ^ 40.
Proof.
  unfold account_check.
  pose proof (le_value_bound 8 ltac:(lia) ltac:(lia)
                (firstn 5 (blake2b 5 (bytes u))) (bytes_small _)) as Hb.
  change (2 ^ 8) with 256 in Hb.
  assert (256 ^ Z.of_nat (length (firstn 5 (blake2b 5 (bytes u)))) <= 256 ^ 5).
  { apply Z.pow_le_mono_r; [lia|]. rewrite length_firstn. lia. }
  change (2 ^ 40) with (256 ^ 5). lia.
Qed.

(** The 300-bit number [encode_account] spells out. *)
Lemma encode_account_digits (a : uint256_union) :
  length (bytes a) = 32%nat ->
  let x := number a * 2 ^ 40 + account_check blake2b a in
  encode_account blake2b a
  = string_of_list_ascii
      ("c" :: "h" :: "r" :: "_" :: map account_encode (rev (le_digits 5 60 x)))%char.
Proof.
  intros Hlen x. unfold encode_account.
  pose proof (number_range a Hlen) as Hn.
  pose proof (account_check_range a) as Hc.
  rewrite Z.shiftl_mul_pow2 by lia. unfold wrap.
  rewrite Z.mod_small by (change (2 ^ 512) with (2 ^ 256 * 2 ^ 40 * 2 ^ 216); nia).
  rewrite lor_shifted_low by lia. fold x.
  rewrite encode_loop_digits. cbn [app].
  rewrite rev_app_distr, map_rev. reflexivity.
Qed.

Lemma top_digit (x : Z) :
  0 <= x < 2 ^ 296 ->
  exists ds (d : byte),
    rev (le_digits 5 60 x) = d :: ds
    /\ (account_encode d = "1"%char \/ account_encode d = "3"%char).
Proof.
  intros Hx. rewrite (le_digits_snoc 5 59) by lia.
  rewrite rev_app_distr. cbn [rev app]. eexists _, _. split; [reflexivity|].
  change ((2 ^ 5) ^ Z.of_nat 59) with (2 ^ 295).
  assert (Hq : 0 <= x / 2 ^ 295 < 2).
  { split; [apply Z.div_pos; lia|]. apply Z.div_lt_upper_bound; lia. }
  assert (Hd : x / 2 ^ 295 = 0 \/ x / 2 ^ 295 = 1) by lia.
  destruct Hd as [-> | ->]; [left | right]; reflexivity.
Qed.

Lemma decode_account_digits (this : uint256_union) (x : Z) :
  0 <= x < 2 ^ 296 ->
  decode_account blake2b this
    (string_of_list_ascii
       ("c" :: "h" :: "r" :: "_" :: map account_encode (rev (le_digits 5 60 x)))%char)
  = (let this' := of_number (wrap 256 (Z.shiftr x 40)) in
     (negb (Z.land x 0xffffffffff =? account_check blake2b this'), this')).
Proof.
  intros Hx. rewrite decode_account_chr.
  - assert (E : decode_loop (map account_encode (rev (le_digits 5 60 x))) 0 = Some x).
    { rewrite decode_loop_encoded.
      + rewrite rev_involutive, length_rev, length_le_digits. f_equal.
        change (le_value 32) with (le_value (2 ^ 5)).
        rewrite (le_value_digits 5) by lia.
        change ((2 ^ 5) ^ Z.of_nat 60) with (2 ^ 300).
        rewrite Z.mod_small by lia. lia.
      + apply Forall_rev, le_digits_small; lia.
      + lia.
      + rewrite length_rev, length_le_digits.
        change (32 ^ Z.of_nat 60) with (2 ^ 300). lia. }
    rewrite E. reflexivity.
  - now rewrite length_map, length_rev, length_le_digits.
  - destruct (top_digit x Hx) as (ds & d & -> & Hd). exact Hd.
Qed.


End CodecTheorems.

Section CodecOnBlake2b.

Import Numbers.


(** The burn account of the network, as published. *)
Example encode_zero_account :
  encode_account Blake2b.blake2b (of_number 0)
  = "chr_1111111111111111111111111111111111111111111111111111hifc8npp"%string.
Proof. vm_compute. reflexivity. Qed.

Lemma zero_not_in_alphabet : ~ in_alphabet "0".
Proof.
  unfold in_alphabet, account_lookup. cbn [list_ascii_of_string In].
  intros H. repeat (destruct H as [H|H]; [discriminate H|]). exact H.
Qed.

(** [decode_loop] only refuses symbols outside [0x30, 0x80): the comparison
    with ['~'] comes after [account_decode] has subtracted [0x30]. *)
Lemma decode_loop_symbols (cs : list ascii) (acc n : Z) :
  decode_loop cs acc = Some n ->
  Forall (fun c => 0x30 <= char_code c < 0x80) cs.
Proof.
  revert acc. induction cs as [|c cs IH]; intros acc H; [constructor|].
  cbn [decode_loop] in H.
  destruct ((char_code c <? 48) || (char_code c >=? 128)) eqn:E; [discriminate|].
  destruct (account_decode (char_code c) =? char_code "~"); [discriminate|].
  constructor; [lia | eapply IH, H].
Qed.

Lemma account_decode_never_tilde (c : ascii) :
  0x30 <= char_code c < 0x80 ->
  (account_decode (char_code c) =? char_code "~") = false.
Proof.
  intros H. destruct c as [[|] [|] [|] [|] [|] [|] [|] [|]];
    vm_compute in H; try lia; reflexivity.
Qed.

(** For any hash function, the account 78 has a second spelling, with the
    symbol [0], that [decode_account] accepts. *)
Lemma decode_account_forged (blake2b : nat -> list byte -> list byte)
      (this : uint256_union) :
  let check := account_check blake2b (of_number 78) in
  decode_account blake2b this
    (string_of_list_ascii
       (list_ascii_of_string "chr_1111111111111111111111111111111111111111111111111110"
        ++ map account_encode (rev (le_digits 5 8 check))))
  = (false, of_number 78).
Proof.
  intros check. pose proof (account_check_range blake2b (of_number 78)) as Hc. fold check in Hc.
  cbn [list_ascii_of_string app]. rewrite decode_account_chr.
  - match goal with |- context [decode_loop ?l 0] =>
      change l with (list_ascii_of_string "1111111111111111111111111111111111111111111111111110"
                     ++ map account_encode (rev (le_digits 5 8 check)))
    end.
    rewrite decode_loop_app.
    change (decode_loop
              (list_ascii_of_string "1111111111111111111111111111111111111111111111111110") 0)
      with (Some 78).
    cbv beta iota. rewrite decode_loop_encoded.
    + rewrite rev_involutive, length_rev, length_le_digits.
      change (le_value 32) with (le_value (2 ^ 5)).
      rewrite (le_value_digits 5) by lia.
      change ((2 ^ 5) ^ Z.of_nat 8) with (2 ^ 40). change (32 ^ Z.of_nat 8) with (2 ^ 40).
      rewrite (Z.mod_small check) by lia. cbv zeta.
      assert (Hhi : wrap 256 (Z.shiftr (78 * 2 ^ 40 + check) 40) = 78).
      { rewrite Z.shiftr_div_pow2, Z.div_add_l, Z.div_small by lia. reflexivity. }
      assert (Hlo : Z.land (78 * 2 ^ 40 + check) 0xffffffffff = check).
      { change 0xffffffffff with (2 ^ 40 - 1). rewrite land_ones_mod by lia.
        rewrite Z.add_comm, Z.mod_add by lia. apply Z.mod_small. lia. }
      rewrite Hhi, Hlo. fold check. now rewrite Z.eqb_refl.
    + apply Forall_rev, le_digits_small; lia.
    + lia.
    + rewrite length_rev, length_le_digits. change (32 ^ Z.of_nat 8) with (2 ^ 40). lia.
  - cbn [length]. now rewrite length_map, length_rev, length_le_digits.
  - left. reflexivity.
Qed.

(** C5: [decode_account] is meant to refuse every symbol outside the
    base-32 alphabet, but the string below, whose 52nd digit is [0], is
    accepted and decoded to the account 78; whatever the hash function, the
    account 78 has such a second spelling. *)
Theorem decode_account_accepts_foreign_symbol :
  let source_a := "chr_1111111111111111111111111111111111111111111111111110eri713h5"%string in
  nth 55 (list_ascii_of_string source_a) zero = "0"%char
  /\ ~ in_alphabet "0"
  /\ decode_account Blake2b.blake2b (of_number 0) source_a = (false, of_number 78)
  /\ encode_account Blake2b.blake2b (of_number 78)
     = "chr_111111111111111111111111111111111111111111111111114geri713h5"%string
  /\ (forall (blake2b : nat -> list byte -> list byte) (this : uint256_union),
         decode_account blake2b this
           (string_of_list_ascii
              (list_ascii_of_string
                 "chr_1111111111111111111111111111111111111111111111111110"
               ++ map account_encode
                    (rev (le_digits 5 8 (account_check blake2b (of_number 78))))))
         = (false, of_number 78)).
Proof.
  cbv zeta. split; [reflexivity|]. split; [exact zero_not_in_alphabet|].
  split; [vm_compute; reflexivity|]. split; [vm_compute; reflexivity|].
  intros blake2b this. apply decode_account_forged.
Qed.

End CodecOnBlake2b.

(** * Properties of elections *)

Section ElectionFacts.

Import Election ElectionSpec.

Lemma tally_insert_nonempty (item : Z * block) (t : tally_t) : tally_insert item t <> [].
Proof. destruct t as [|x t]; simpl; [discriminate|]. destruct (fst x <? fst item); discriminate. Qed.

Lemma tally_fst (env : node_env) (e : election) :
  last_votes (fst (tally env e)) = last_votes e
  /\ blocks (fst (tally env e)) = blocks e
  /\ confirmed (fst (tally env e)) = confirmed e
  /\ status (fst (tally env e)) = status e
  /\ root (fst (tally env e)) = root e.
Proof. repeat split. Qed.

Lemma block_weights_covers (env : node_env) (m : gmap Z vote_info) :
  forall rep lv, m !! rep = Some lv ->
  is_Some (map_fold
             (fun rep vote_info (bw : gmap Z Z) =>
                <[vi_hash vote_info :=
                    wrap 128 (default 0 (bw !! vi_hash vote_info) + ledger_weight env rep)]> bw)
             ∅ m !! vi_hash lv).
Proof.
  apply (map_fold_weak_ind
           (fun (bw : gmap Z Z) (m : gmap Z vote_info) =>
              forall rep lv, m !! rep = Some lv -> is_Some (bw !! vi_hash lv))).
  - intros rep lv H. rewrite lookup_empty in H. discriminate.
  - intros i x m' r Hi IH rep lv H.
    destruct (decide (i = rep)) as [->|Hne].
    + rewrite lookup_insert_eq in H. injection H as ->. rewrite lookup_insert_eq. eauto.
    + rewrite lookup_insert_ne in H by exact Hne.
      apply lookup_insert_is_Some'. right. eapply IH, H.
Qed.

Lemma tally_result_nonempty (bs : gmap Z block) (bw : gmap Z Z) :
  forall h w b, bw !! h = Some w -> bs !! h = Some b ->
  map_fold
    (fun h w (result : tally_t) =>
       match bs !! h with
       | Some b => tally_insert (w, b) result
       | None => result
       end)
    [] bw <> [].
Proof.
  apply (map_fold_weak_ind
           (fun (r : tally_t) (m : gmap Z Z) =>
              forall h w b, m !! h = Some w -> bs !! h = Some b -> r <> [])).
  - intros h w b H. rewrite lookup_empty in H. discriminate.
  - intros i x m r Hi IH h w b Hm Hb.
    destruct (decide (i = h)) as [->|Hne].
    + rewrite Hb. apply tally_insert_nonempty.
    + rewrite lookup_insert_ne in Hm by exact Hne.
      destruct (bs !! i); [apply tally_insert_nonempty | eapply IH; eassumption].
Qed.

Lemma tally_nonempty (env : node_env) (e : election) (rep : Z) (lv : vote_info) (b : block) :
  last_votes e !! rep = Some lv -> blocks e !! vi_hash lv = Some b ->
  snd (tally env e) <> [].
Proof.
  intros Hv Hb. unfold tally. cbn [snd with_last_tally blocks].
  destruct (block_weights_covers env (last_votes e) rep lv Hv) as [w Hw].
  eapply tally_result_nonempty; eassumption.
Qed.

Lemma confirm_if_quorum_inv (env : node_env) (e e' : election) (evs : list event) :
  confirm_if_quorum env e = Some (e', evs) ->
  last_votes e' = last_votes e
  /\ blocks e' = blocks e
  /\ root e' = root e
  /\ confirmed e' = confirmed e || have_quorum env (snd (tally env e))
  /\ length (filter is_confirmation evs)
     = (if negb (confirmed e) && have_quorum env (snd (tally env e)) then 1 else 0)%nat.
Proof.
  unfold confirm_if_quorum.
  destruct (tally env e) as [e1 t] eqn:Ht.
  pose proof (tally_fst env e) as (Hlv & Hbl & Hcf & Hst & Hrt).
  rewrite Ht in Hlv, Hbl, Hcf, Hst, Hrt. cbn [fst snd] in *.
  destruct t as [|[w0 b0] rest]; [discriminate|].
  set (sum := fold_left _ _ _).
  destruct ((sum >=? online_weight_minimum env) && _);
    destruct (have_quorum env ((w0, b0) :: rest)); unfold confirm_once;
    cbn [confirmed with_status]; rewrite ?Hcf;
    destruct (confirmed e) eqn:Hc; intros H; injection H as <- <-;
    cbn; rewrite ?Hlv, ?Hbl, ?Hrt, ?Hcf, ?Hc; repeat split.
Qed.

Lemma confirm_if_quorum_total (env : node_env) (e : election) :
  snd (tally env e) <> [] -> is_Some (confirm_if_quorum env e).
Proof.
  unfold confirm_if_quorum. destruct (tally env e) as [e1 t]. cbn [snd].
  destruct t as [|[w0 b0] rest]; [congruence|]. intros _.
  destruct (_ && _); destruct (have_quorum _ _); unfold confirm_once;
    cbn [confirmed with_status]; destruct (confirmed e1); eauto.
Qed.

Lemma vote_inv (env : node_env) (e e' : election) (rep sequence block_hash : Z)
      (r : election_vote_result) (evs : list event) :
  vote env e rep sequence block_hash = Some (e', r, evs) ->
  let a := accepted env e rep sequence block_hash in
  let q := have_quorum env (snd (tally env (store env e rep sequence block_hash))) in
  last_votes e' = (if a then <[rep := stored_vote env sequence block_hash]> (last_votes e)
                   else last_votes e)
  /\ blocks e' = blocks e
  /\ replay r = weight_gate env rep && snd (vote_decision env e rep sequence block_hash)
  /\ processed r = false
  /\ (a = false -> e' = e /\ evs = [])
  /\ confirmed e' = confirmed e || (a && q)
  /\ length (filter is_confirmation evs)
     = (if negb (confirmed e) && a && q then 1 else 0)%nat.
Proof.
  unfold vote, accepted. intros H. cbv zeta.
  destruct (weight_gate env rep); cbn [andb].
  2:{ injection H as <- <- <-. rewrite andb_false_r, orb_false_r. repeat split; reflexivity. }
  destruct (vote_decision env e rep sequence block_hash) as [sp rp]. cbn [fst snd].
  destruct sp.
  2:{ injection H as <- <- <-. rewrite andb_false_r, orb_false_r. repeat split; reflexivity. }
  fold (stored_vote env sequence block_hash) in H.
  fold (store env e rep sequence block_hash) in H.
  change (confirmed (store env e rep sequence block_hash)) with (confirmed e) in H.
  destruct (confirmed e) eqn:Hc; cbn [negb andb orb] in *.
  - injection H as <- <- <-. repeat split; try reflexivity; try discriminate.
    exact Hc.
  - destruct (confirm_if_quorum env (store env e rep sequence block_hash))
      as [[e2 evs2]|] eqn:Hq; [|discriminate].
    injection H as <- <- <-.
    apply confirm_if_quorum_inv in Hq as (Hlv & Hbl & _ & Hcf & Hlen).
    change (confirmed (store env e rep sequence block_hash)) with (confirmed e) in Hcf, Hlen.
    rewrite Hc in Hcf, Hlen. cbn [negb andb orb] in Hcf, Hlen.
    repeat split; try assumption; try discriminate.
Qed.

Lemma vote_total (env : node_env) (e : election) (rep sequence block_hash : Z) :
  anchored env e -> rep <> not_an_account env ->
  exists e' r evs, vote env e rep sequence block_hash = Some (e', r, evs) /\ anchored env e'.
Proof.
  intros (lv & b & Hlv & Hb) Hne. unfold vote.
  destruct (weight_gate env rep).
  2:{ eexists _, _, _. split; [reflexivity|]. exists lv, b. auto. }
  destruct (vote_decision env e rep sequence block_hash) as [[|] rp].
  2:{ eexists _, _, _. split; [reflexivity|]. exists lv, b. auto. }
  fold (stored_vote env sequence block_hash).
  fold (store env e rep sequence block_hash).
  assert (Ha : last_votes (store env e rep sequence block_hash) !! not_an_account env = Some lv).
  { cbn. rewrite lookup_insert_ne by exact Hne. exact Hlv. }
  destruct (negb (confirmed (store env e rep sequence block_hash))).
  - destruct (confirm_if_quorum_total env (store env e rep sequence block_hash))
      as [[e2 evs2] Hq].
    { eapply tally_nonempty; [exact Ha | exact Hb]. }
    rewrite Hq. eexists _, _, _. split; [reflexivity|].
    apply confirm_if_quorum_inv in Hq as (Hlv2 & Hbl2 & _).
    exists lv, b. rewrite Hlv2, Hbl2. auto.
  - eexists _, _, _. split; [reflexivity|]. exists lv, b. auto.
Qed.

Lemma election_new_anchored (env : node_env) (block_a : block) :
  anchored env (election_new env block_a).
Proof.
  eexists _, block_a. cbn. split; [apply lookup_singleton_eq|].
  cbn. apply lookup_singleton_eq.
Qed.

End ElectionFacts.

Section ElectionTheorems.

Import Election ElectionSpec.

Lemma pair_lt_decide (lv : vote_info) (sequence block_hash : Z) :
  (vi_sequence lv <? sequence)
  || ((vi_sequence lv =? sequence) && (vi_hash lv <? block_hash)) = true
  <-> pair_lt lv sequence block_hash.
Proof. unfold pair_lt. lia. Qed.

Lemma vote_decision_stored (env : node_env) (e : election) (rep sequence block_hash : Z)
      (lv : vote_info) :
  last_votes e !! rep = Some lv ->
  (pair_lt lv sequence block_hash /\ cooled_down env rep lv ->
   vote_decision env e rep sequence block_hash = (true, false))
  /\ (pair_lt lv sequence block_hash /\ ~ cooled_down env rep lv ->
      vote_decision env e rep sequence block_hash = (false, false))
  /\ (~ pair_lt lv sequence block_hash ->
      vote_decision env e rep sequence block_hash = (false, true)).
Proof.
  intros Hlv. unfold vote_decision, cooled_down. rewrite Hlv.
  pose proof (pair_lt_decide lv sequence block_hash) as Hd.
  destruct ((vi_sequence lv <? sequence) || _) eqn:E.
  - repeat split.
    + intros [_ Hc]. f_equal. lia.
    + intros [_ Hc]. f_equal. lia.
    + intros Hn. exfalso. apply Hn, Hd. reflexivity.
  - repeat split.
    + intros [Hp _]. apply Hd in Hp. discriminate.
    + intros [Hp _]. apply Hd in Hp. discriminate.
Qed.

(** C10: a vote with a greater [(sequence, hash)] that arrives before the
    stored vote of its representative has cooled down is dropped without a
    replay tag and without any change, and so is, off the test network, the
    vote of a representative with at most 0.1% of the online stake. *)
Theorem vote_dropped_silently :
  (forall env e rep sequence block_hash lv,
      last_votes e !! rep = Some lv ->
      pair_lt lv sequence block_hash ->
      now env - seconds (cooldown env rep) < vi_time lv ->
      vote env e rep sequence block_hash
      = Some (e, {| replay := false; processed := false |}, []))
  /\ (forall env e rep sequence block_hash,
         chratos_network env <> chratos_test_network ->
         1000 * ledger_weight env rep <= online_stake env ->
         vote env e rep sequence block_hash
         = Some (e, {| replay := false; processed := false |}, [])).
Proof.
  split.
  - intros env e rep sequence block_hash lv Hlv Hp Hy. unfold vote.
    destruct (weight_gate env rep); [|reflexivity].
    destruct (vote_decision_stored env e rep sequence block_hash lv Hlv) as (_ & H2 & _).
    rewrite H2; [reflexivity|]. split; [exact Hp|]. unfold cooled_down. lia.
  - intros env e rep sequence block_hash Hn Hw. unfold vote, weight_gate.
    replace (is_test_network (chratos_network env)) with false
      by (destruct (chratos_network env) eqn:E; [congruence | reflexivity | reflexivity]).
    replace (ledger_weight env rep >? online_stake env / 1000) with false; [reflexivity|].
    symmetry. rewrite Z.gtb_ltb. apply Z.ltb_ge.
    apply Z.div_le_lower_bound; lia.
Qed.


End ElectionTheorems.

Section ElectionClaims.

Import Election ElectionSpec ElectionData.

(** Closed arithmetic side conditions on the data above. *)
Ltac by_evaluation :=
  unfold pair_lt, pair_le, cooled_down;
  cbn [vi_time vi_sequence vi_hash stored_vote now env_live env_small ledger_weight];
  try vm_compute (cooldown _ _); try vm_compute (online_stake _);
  unfold seconds, weights_of; cbn [Z.eqb Pos.eqb]; lia.


Lemma e_voted_last_vote :
  last_votes e_voted !! 5 = Some (stored_vote (env_live 2000 100) 5 11).
Proof. vm_compute. reflexivity. Qed.




Lemma vote_dropped_silently_witness :
  vote (env_live 2000 105) e_voted 5 6 11
  = Some (e_voted, {| replay := false; processed := false |}, [])
  /\ vote (env_live 1000 200) e_voted 5 6 11
     = Some (e_voted, {| replay := false; processed := false |}, []).
Proof.
  split.
  - apply (proj1 vote_dropped_silently _ _ _ _ _ _ e_voted_last_vote).
    + by_evaluation.
    + by_evaluation.
  - apply (proj2 vote_dropped_silently).
    + discriminate.
    + by_evaluation.
Defined.






End ElectionClaims.

(** * Properties of the vote processor *)

Section VoteProcessorClaims.

Import Chratos Active VoteProcessor VoteData.







(** Replay suppression: the same vote twice is a [vote], then a [replay]. *)
Example replay_suppression :
  let env := ElectionData.env_live 2000 100 in
  match vote_blocking accept_signature env ∅ one_election (vote_of 5) endpoint0 with
  | Some (first, store, a, _) =>
      first = vote_code_vote
      /\ match vote_blocking accept_signature env store a (vote_of 5) endpoint0 with
         | Some (second, _, _, _) => second = vote_code_replay
         | None => False
         end
  | None => False
  end.
Proof. vm_compute. split; reflexivity. Qed.

End VoteProcessorClaims.

(** * Properties of the block processor *)

Section BlockProcessorClaims.

Import BlockProcessor.

Variable work_validate : Z -> Z -> bool.

Lemma singleton_cancel (h : Z) : (∅ ∪ {[h]}) ∖ {[h]} = (∅ : gset Z).
Proof.
  apply set_eq. intros x.
  rewrite elem_of_difference, elem_of_union, elem_of_singleton. split.
  - intros [[He| ->] Hn]; [exact He | contradiction].
  - intros He. exfalso. revert He. apply not_elem_of_empty.
Qed.

Lemma add_consistent (bp : block_processor) (block_a : block) (origination : Z) :
  consistent bp -> consistent (add work_validate bp block_a origination).
Proof.
  intros [Hnd Hset]. unfold add.
  destruct (negb (work_validate _ _)); [|split; assumption].
  case_bool_decide as Hin; [split; assumption|].
  unfold consistent, queued_hashes in *. cbn [blocks blocks_hashes].
  rewrite map_app. cbn [map fst]. split.
  - apply NoDup_app. split; [exact Hnd|]. split.
    + intros x Hx Hx'. apply list_elem_of_In in Hx.
      apply list_elem_of_singleton in Hx'. subst x.
      apply Hin, Hset, Hx.
    + apply NoDup_singleton.
  - intros h. rewrite elem_of_union, elem_of_singleton, in_app_iff, Hset. cbn [In].
    intuition congruence.
Qed.

Lemma take_consistent (bp bp' : block_processor) (now_l origination : Z) (b : block)
      (force_l : bool) :
  consistent bp -> take bp now_l = Some (b, origination, force_l, bp') -> consistent bp'.
Proof.
  intros [Hnd Hset]. unfold take.
  destruct (forced bp) as [|f rest] eqn:Hf.
  - destruct (blocks bp) as [|[b0 o0] rest] eqn:Hb; [discriminate|].
    intros H. injection H as <- <- <- <-.
    unfold consistent, queued_hashes in *. rewrite Hb in *. cbn [map fst blocks blocks_hashes] in *.
    apply NoDup_cons in Hnd as [Hnotin Hnd]. split; [exact Hnd|].
    intros h. rewrite elem_of_difference, elem_of_singleton, Hset. cbn [In].
    rewrite list_elem_of_In in Hnotin. split.
    + intros [[->|Hin] Hne]; [congruence | exact Hin].
    + intros Hin. split; [right; exact Hin | intros ->; contradiction].
  - intros H. injection H as <- <- <- <-. split; assumption.
Qed.

Lemma reachable_consistent (bp : block_processor) :
  reachable work_validate bp -> consistent bp.
Proof.
  induction 1 as [|bp b o Hr IH|bp b Hr IH|bp n b o f bp' Hr IH Ht].
  - split; [constructor|]. intros h. cbn. split; [|intros []].
    intros He. exfalso. revert He. apply not_elem_of_empty.
  - apply add_consistent, IH.
  - exact IH.
  - eapply take_consistent; eassumption.
Qed.

(** C6: in every state of the queues no hash is pending twice; [add]
    leaves the queues alone when the hash is already pending or the work is
    invalid, so that adding a block twice is adding it once and the
    consumer processes it once; [force] queues without looking. *)
Theorem pending_queue_deduplicated :
  (forall bp, reachable work_validate bp -> NoDup (queued_hashes bp))
  /\ (forall bp block_a origination,
         reachable work_validate bp ->
         In (block_hash block_a) (queued_hashes bp) ->
         add work_validate bp block_a origination = bp)
  /\ (forall bp block_a origination,
         work_validate (block_root block_a) (block_work block_a) = true ->
         add work_validate bp block_a origination = bp)
  /\ (forall bp block_a t t',
         add work_validate (add work_validate bp block_a t) block_a t'
         = add work_validate bp block_a t)
  /\ (forall (ledger : Type) (ledger_step : ledger -> bool -> block -> Z -> ledger * list block)
             (l : ledger) block_a t t' now_l,
         work_validate (block_root block_a) (block_work block_a) = false ->
         snd (ledger_step l false block_a t) = [] ->
         process_receive_many work_validate ledger ledger_step l
           (add work_validate (add work_validate empty block_a t) block_a t') now_l
         = ([(block_a, false)], fst (ledger_step l false block_a t), empty))
  /\ (forall bp block_a,
         forced (force (force bp block_a) block_a) = forced bp ++ [block_a; block_a]
         /\ blocks (force (force bp block_a) block_a) = blocks bp).
Proof.
  assert (Htwice : forall bp block_a t t',
             add work_validate (add work_validate bp block_a t) block_a t'
             = add work_validate bp block_a t).
  { intros bp b t t'. unfold add.
    destruct (negb (work_validate (block_root b) (block_work b))); [|reflexivity].
    destruct (bool_decide (block_hash b ∈ blocks_hashes bp)) eqn:Hin.
    - now rewrite Hin.
    - cbn [blocks_hashes].
      rewrite bool_decide_eq_true_2 by (apply elem_of_union_r, elem_of_singleton; reflexivity).
      reflexivity. }
  repeat split.
  - intros bp Hr. apply (reachable_consistent bp Hr).
  - intros bp b o Hr Hin. destruct (reachable_consistent bp Hr) as [_ Hset].
    unfold add. destruct (negb _); [|reflexivity].
    rewrite bool_decide_eq_true_2 by (apply Hset, Hin). reflexivity.
  - intros bp b o Hw. unfold add. now rewrite Hw.
  - exact Htwice.
  - intros ledger ledger_step l b t t' now_l Hw Hnone. rewrite Htwice.
    unfold process_receive_many.
    change 16384 with (Z.succ (Z.succ 16382)).
    rewrite !Z2Nat.inj_succ by (unfold Z.succ; cbn; lia).
    generalize (Z.to_nat 16382). intros n.
    unfold add, empty. rewrite Hw. cbn [negb blocks_hashes blocks forced app].
    rewrite bool_decide_eq_false_2 by apply not_elem_of_empty.
    cbn [process_loop take forced blocks blocks_hashes].
    destruct (ledger_step l false b t) as [l' unchecked].
    cbn [snd fst] in *. subst unchecked.
    cbn [fold_left take forced blocks blocks_hashes].
    rewrite singleton_cancel. reflexivity.
  - unfold force. cbn. now rewrite <- app_assoc.
Qed.

End BlockProcessorClaims.

Section BlockProcessorWitness.

Import BlockProcessor BlockData.

Lemma pending_queue_deduplicated_witness :
  NoDup (queued_hashes (add work_is_root (add work_is_root empty b9 1) b9 2))
  /\ add work_is_root (add work_is_root empty b9 1) b9 2 = add work_is_root empty b9 1
  /\ add work_is_root empty {| block_hash := 12; block_root := 9; block_work := 8 |} 1 = empty
  /\ process_receive_many work_is_root nat counting_step O
       (add work_is_root (add work_is_root empty b9 1) b9 2) 5
     = ([(b9, false)], 1%nat, empty).
Proof.
  destruct (pending_queue_deduplicated work_is_root) as (H1 & H2 & H3 & _ & H5 & _).
  split; [|split; [|split]].
  - apply H1. do 2 apply reach_add. apply reach_empty.
  - apply H2; [apply reach_add, reach_empty|]. left. reflexivity.
  - apply H3. reflexivity.
  - apply (H5 nat counting_step O b9 1 2 5); reflexivity.
Defined.

End BlockProcessorWitness.

(** * Properties of the peer container *)

Section CookieClaims.

Import Peers.
Local Open Scope N_scope.

Lemma touch_lookup (ip : N) (m : gmap N N) :
  default 0 (touch ip m !! ip) = default 0 (m !! ip).
Proof. unfold touch. now rewrite lookup_insert_eq. Qed.

Lemma incr32_small (n : N) : n < max_peers_per_ip -> incr32 n = n + 1.
Proof.
  unfold incr32, max_peers_per_ip. intros H. apply N.mod_small.
  change (2 ^ 32) with 4294967296. lia.
Qed.

Lemma decr32_succ (n : N) : n < max_peers_per_ip -> decr32 (n + 1) = n.
Proof.
  unfold decr32, max_peers_per_ip. intros H. change (2 ^ 32) with 4294967296.
  replace (n + 1 + 4294967296 - 1) with (n + 1 * 4294967296) by lia.
  rewrite N.Div0.mod_add. apply N.mod_small. lia.
Qed.

(** C7: [assign_syn_cookie] gives nothing exactly when the address has
    used up its cookies or the endpoint already has one; otherwise it stores
    the challenge and counts it; a cookie that is then consumed by a valid
    signature is removed and the count of the address is what it was before
    the cookie was assigned: the one adds one to the count of the address,
    the other takes one off, and neither touches another address. *)
Theorem syn_cookie_accounting :
  (forall pc endpoint_a query now_l,
      fst (assign_syn_cookie pc endpoint_a query now_l) = None
      <-> (max_peers_per_ip <= ip_cookies pc (address endpoint_a)
           \/ is_Some (syn_cookies pc !! endpoint_a)))
  /\ (forall pc endpoint_a query now_l r pc',
         assign_syn_cookie pc endpoint_a query now_l = (Some r, pc') ->
         r = query
         /\ syn_cookies pc' !! endpoint_a = Some {| cookie := query; created_at := now_l |}
         /\ ip_cookies pc' (address endpoint_a) = ip_cookies pc (address endpoint_a) + 1)
  /\ (forall validate_message pc endpoint_a query now_l r pc1 node_id sig,
         assign_syn_cookie pc endpoint_a query now_l = (Some r, pc1) ->
         validate_message node_id r sig = false ->
         exists pc2,
           validate_syn_cookie validate_message pc1 endpoint_a node_id sig = (false, pc2)
           /\ syn_cookies pc2 !! endpoint_a = None
           /\ ip_cookies pc2 (address endpoint_a) = ip_cookies pc (address endpoint_a))
  /\ (forall validate_message pc endpoint_a info node_id sig,
         syn_cookies pc !! endpoint_a = Some info ->
         validate_message node_id (cookie info) sig = false ->
         0 < ip_cookies pc (address endpoint_a) < 2 ^ 32 ->
         exists pc2,
           validate_syn_cookie validate_message pc endpoint_a node_id sig = (false, pc2)
           /\ syn_cookies pc2 = delete endpoint_a (syn_cookies pc)
           /\ ip_cookies pc2 (address endpoint_a) + 1 = ip_cookies pc (address endpoint_a)
           /\ (forall ip, ip <> address endpoint_a -> ip_cookies pc2 ip = ip_cookies pc ip))
  /\ (forall pc endpoint_a query now_l r pc' ip,
         assign_syn_cookie pc endpoint_a query now_l = (r, pc') ->
         ip <> address endpoint_a -> ip_cookies pc' ip = ip_cookies pc ip).
Proof.
  assert (Hassign : forall pc endpoint_a query now_l r pc',
             assign_syn_cookie pc endpoint_a query now_l = (Some r, pc') ->
             r = query
             /\ ip_cookies pc (address endpoint_a) < max_peers_per_ip
             /\ syn_cookies pc' = <[endpoint_a := {| cookie := query; created_at := now_l |}]>
                                    (syn_cookies pc)
             /\ syn_cookies_per_ip pc'
                = <[address endpoint_a := ip_cookies pc (address endpoint_a) + 1]>
                    (touch (address endpoint_a) (syn_cookies_per_ip pc))).
  { intros pc ep query now_l r pc'. unfold assign_syn_cookie. rewrite touch_lookup.
    fold (ip_cookies pc (address ep)).
    destruct (ip_cookies pc (address ep) <? max_peers_per_ip) eqn:Hlt; [|discriminate].
    apply N.ltb_lt in Hlt.
    destruct (syn_cookies pc !! ep); [discriminate|].
    intros H. injection H as <- <-. cbn. rewrite incr32_small by exact Hlt. auto. }
  split; [|split; [|split; [|split]]].
  - intros pc ep query now_l. unfold assign_syn_cookie. rewrite touch_lookup.
    fold (ip_cookies pc (address ep)).
    destruct (ip_cookies pc (address ep) <? max_peers_per_ip) eqn:Hlt.
    + apply N.ltb_lt in Hlt. destruct (syn_cookies pc !! ep) eqn:Hc; cbn [fst].
      * split; [eauto | reflexivity].
      * split; [discriminate|]. intros [Hge|[x Hx]]; [lia | discriminate].
    + apply N.ltb_ge in Hlt. cbn [fst]. split; [auto | reflexivity].
  - intros pc ep query now_l r pc' H.
    destruct (Hassign _ _ _ _ _ _ H) as (-> & Hlt & Hc & Hn).
    split; [reflexivity|]. split.
    + rewrite Hc. apply lookup_insert_eq.
    + unfold ip_cookies at 1. rewrite Hn, lookup_insert_eq. reflexivity.
  - intros validate_message pc ep query now_l r pc1 node_id sig H Hsig.
    destruct (Hassign _ _ _ _ _ _ H) as (-> & Hlt & Hc & Hn).
    unfold validate_syn_cookie. rewrite Hc, lookup_insert_eq. cbn [cookie].
    rewrite Hsig. cbn [negb]. rewrite touch_lookup, Hn, lookup_insert_eq.
    cbn [default from_option id].
    replace (0 <? ip_cookies pc (address ep) + 1) with true
      by (symmetry; apply N.ltb_lt; lia).
    eexists. split; [reflexivity|]. cbn. split.
    + apply lookup_delete_eq.
    + unfold ip_cookies at 1. cbn [syn_cookies_per_ip with_cookies].
      rewrite lookup_insert_eq. cbn [default from_option id].
      apply decr32_succ, Hlt.
  - intros validate_message pc ep info node_id sig Hc Hsig [Hpos Hlt].
    unfold validate_syn_cookie. rewrite Hc, Hsig. cbn [negb]. rewrite touch_lookup.
    fold (ip_cookies pc (address ep)).
    replace (0 <? ip_cookies pc (address ep)) with true by (symmetry; apply N.ltb_lt; lia).
    eexists. split; [reflexivity|]. split; [reflexivity|]. split.
    + unfold ip_cookies at 1. cbn [syn_cookies_per_ip with_cookies].
      rewrite lookup_insert_eq. cbn [default from_option id]. unfold decr32.
      change (2 ^ 32) with 4294967296 in *.
      replace (ip_cookies pc (address ep) + 4294967296 - 1)
        with (ip_cookies pc (address ep) - 1 + 1 * 4294967296) by lia.
      rewrite N.Div0.mod_add, N.mod_small by lia. lia.
    + intros ip Hne. unfold ip_cookies at 1. cbn [syn_cookies_per_ip with_cookies].
      rewrite lookup_insert_ne by congruence. unfold touch.
      rewrite lookup_insert_ne by congruence. reflexivity.
  - intros pc ep query now_l r pc' ip H Hne. unfold assign_syn_cookie in H.
    assert (Ht : default 0 (touch (address ep) (syn_cookies_per_ip pc) !! ip)
                 = ip_cookies pc ip).
    { unfold touch. rewrite lookup_insert_ne by congruence. reflexivity. }
    destruct (_ <? max_peers_per_ip); [destruct (syn_cookies pc !! ep)|];
      injection H as _ <-; unfold ip_cookies at 1;
      cbn [syn_cookies_per_ip with_cookies]; rewrite ?lookup_insert_ne by congruence;
      exact Ht.
Qed.

End CookieClaims.

Section CookieWitness.

Import Peers PeerData.
Local Open Scope N_scope.

Lemma syn_cookie_accounting_witness :
  (fst (assign_syn_cookie (snd (assign_syn_cookie pc0 (public_endpoint 1) 77 5%Z))
          (public_endpoint 1) 78 6%Z) = None)
  /\ (syn_cookies (snd (assign_syn_cookie pc0 (public_endpoint 1) 77 5%Z)) !! public_endpoint 1
      = Some {| cookie := 77; created_at := 5%Z |})
  /\ (exists pc2,
         validate_syn_cookie echo_signature
           (snd (assign_syn_cookie pc0 (public_endpoint 1) 77 5%Z)) (public_endpoint 1) 9 77
         = (false, pc2)
         /\ syn_cookies pc2 !! public_endpoint 1 = None
         /\ ip_cookies pc2 (address (public_endpoint 1))
            = ip_cookies pc0 (address (public_endpoint 1)))
  /\ (exists pc2,
         validate_syn_cookie echo_signature
           (snd (assign_syn_cookie pc0 (public_endpoint 1) 77 5%Z)) (public_endpoint 1) 9 77
         = (false, pc2)
         /\ syn_cookies pc2
            = delete (public_endpoint 1)
                (syn_cookies (snd (assign_syn_cookie pc0 (public_endpoint 1) 77 5%Z)))
         /\ ip_cookies pc2 (address (public_endpoint 1)) + 1
            = ip_cookies (snd (assign_syn_cookie pc0 (public_endpoint 1) 77 5%Z))
                (address (public_endpoint 1))
         /\ (forall ip, ip <> address (public_endpoint 1) ->
                        ip_cookies pc2 ip
                        = ip_cookies (snd (assign_syn_cookie pc0 (public_endpoint 1) 77 5%Z))
                            ip))
  /\ ip_cookies (snd (assign_syn_cookie pc0 (public_endpoint 1) 77 5%Z)) 3
     = ip_cookies pc0 3.
Proof.
  destruct syn_cookie_accounting as (H1 & H2 & H3 & H4 & H5).
  split; [|split; [|split; [|split]]].
  - apply H1. right. vm_compute. eauto.
  - refine (proj1 (proj2 (H2 pc0 (public_endpoint 1) 77 5%Z 77 _ _))).
    vm_compute. reflexivity.
  - refine (H3 echo_signature pc0 (public_endpoint 1) 77 5%Z 77 _ 9 77 _ _).
    + vm_compute. reflexivity.
    + reflexivity.
  - refine (H4 echo_signature _ (public_endpoint 1)
              {| cookie := 77; created_at := 5%Z |} 9 77 _ _ _).
    + vm_compute. reflexivity.
    + reflexivity.
    + vm_compute. split; reflexivity.
  - refine (H5 pc0 (public_endpoint 1) 77 5%Z
              (fst (assign_syn_cookie pc0 (public_endpoint 1) 77 5%Z)) _ 3 _ _).
    + apply surjective_pairing.
    + vm_compute. discriminate.
Defined.

End CookieWitness.

Section PeerCapFacts.

Import Peers.

Variable node_id_version : N.
Variable protocol_version_min : N.
Variable max_legacy_peers_per_ip : N.

Local Abbreviation insert :=
  (Peers.insert node_id_version protocol_version_min max_legacy_peers_per_ip).
Local Abbreviation reachable :=
  (Peers.reachable node_id_version protocol_version_min max_legacy_peers_per_ip).

Lemma same_ip_lookup (ip : N) (m : gmap endpoint peer_information)
      (k : endpoint) (v : peer_information) :
  same_ip ip m !! k = Some v <-> m !! k = Some v /\ ip_address v = ip.
Proof. unfold same_ip. apply map_lookup_filter_Some. Qed.

Lemma same_ip_size_le (ip : N) (m1 m2 : gmap endpoint peer_information) :
  (forall k v, m1 !! k = Some v -> ip_address v = ip ->
               exists v', m2 !! k = Some v' /\ ip_address v' = ip) ->
  (size (same_ip ip m1) <= size (same_ip ip m2))%nat.
Proof.
  intros H. rewrite <- !(size_dom (D := gset endpoint)).
  apply subseteq_size. intros k Hk.
  apply elem_of_dom in Hk as [v Hv]. apply same_ip_lookup in Hv as [Hv Hip].
  destruct (H k v Hv Hip) as (v' & Hv' & Hip').
  apply elem_of_dom. exists v'. apply same_ip_lookup. auto.
Qed.

Lemma capped_alter (f : peer_information -> peer_information) (k : endpoint)
      (m : gmap endpoint peer_information) :
  (forall p, ip_address (f p) = ip_address p) ->
  capped m -> capped (alter f k m).
Proof.
  intros Hf Hc ip. etransitivity; [|apply (Hc ip)].
  apply same_ip_size_le. intros k' v Hv Hip.
  apply lookup_alter_Some in Hv as [(-> & v0 & Hv0 & ->)|[Hne Hv]].
  - exists v0. rewrite Hf in Hip. auto.
  - exists v. auto.
Qed.

Lemma same_ip_insert_fresh (ip : N) (m : gmap endpoint peer_information)
      (k : endpoint) (p : peer_information) :
  m !! k = None ->
  size (same_ip ip (<[k := p]> m))
  = if decide (ip_address p = ip) then S (size (same_ip ip m)) else size (same_ip ip m).
Proof.
  intros Hk. unfold same_ip. destruct (decide (ip_address p = ip)) as [Hip|Hip].
  - rewrite map_filter_insert_True by exact Hip.
    apply map_size_insert_None. apply map_lookup_filter_None. left. exact Hk.
  - rewrite map_filter_insert_False by exact Hip.
    rewrite delete_id by exact Hk. reflexivity.
Qed.

Lemma insert_cases (network : chratos_networks) (pc : peer_container)
      (endpoint_a : endpoint) (version_a : N) (now_l : Z) :
  let r := insert network pc endpoint_a version_a now_l in
  self (snd (fst r)) = self pc
  /\ (peers (snd (fst r)) = peers pc
      \/ peers (snd (fst r)) = alter (set_last_contact now_l) endpoint_a (peers pc)
      \/ (peers (snd (fst r))
          = <[endpoint_a := peer_information_new endpoint_a version_a now_l]> (peers pc)
          /\ peers pc !! endpoint_a = None
          /\ fst (fst r) = false
          /\ (network <> chratos_test_network ->
              (N.of_nat (size (same_ip (address endpoint_a) (peers pc))) < max_peers_per_ip)%N))).
Proof.
  cbv zeta. unfold Peers.insert.
  destruct (negb (not_a_peer network pc endpoint_a false)); [|cbn; auto].
  destruct (protocol_version_min <=? version_a)%N; [|cbn; auto].
  destruct (peers pc !! endpoint_a) eqn:Hk; [cbn; auto|].
  set (lr := if (version_a <? node_id_version)%N then _ else _).
  destruct lr as [legacy_peers_l result].
  set (result' := if negb result && negb (is_test_network network) then _ else result).
  destruct (negb result') eqn:Hr; [|cbn; auto].
  cbn [fst snd self peers with_peers]. split; [reflexivity|].
  right. right. repeat split. intros Hn.
  subst result'.
  destruct (negb result && negb (is_test_network network)) eqn:Hg.
  - apply negb_true_iff, orb_false_elim in Hr as [Hr _].
    apply N.leb_gt in Hr. exact Hr.
  - exfalso. apply andb_false_iff in Hg as [Hg|Hg].
    + rewrite Hg in Hr. discriminate.
    + destruct network; cbn in Hg; congruence.
Qed.

Lemma insert_capped (network : chratos_networks) (pc : peer_container)
      (endpoint_a : endpoint) (version_a : N) (now_l : Z) :
  network <> chratos_test_network ->
  capped (peers pc) ->
  capped (peers (snd (fst (insert network pc endpoint_a version_a now_l)))).
Proof.
  intros Hn Hc.
  destruct (insert_cases network pc endpoint_a version_a now_l) as [_ [-> | [-> | H]]].
  - exact Hc.
  - apply capped_alter; [reflexivity | exact Hc].
  - destruct H as (-> & Hk & _ & Hlt). specialize (Hlt Hn). intros ip.
    rewrite same_ip_insert_fresh by exact Hk.
    cbn [ip_address peer_information_new].
    destruct (decide (address endpoint_a = ip)) as [<-|Hne]; [|apply Hc].
    unfold max_peers_per_ip in Hlt. lia.
Qed.

Lemma purge_list_capped (pc : peer_container) (cutoff now_l : Z) :
  capped (peers pc) ->
  capped (peers (snd (purge_list node_id_version pc cutoff now_l))).
Proof.
  intros Hc ip. etransitivity; [|apply (Hc ip)].
  apply same_ip_size_le. cbn [purge_list snd peers]. intros k v Hv Hip.
  apply lookup_fmap_Some in Hv as (v0 & <- & Hv0).
  apply map_lookup_filter_Some in Hv0 as [Hv0 _].
  exists v0. auto.
Qed.

Lemma purge_syn_cookies_peers (pc : peer_container) (cutoff : Z) :
  peers (purge_syn_cookies pc cutoff) = peers pc.
Proof.
  unfold purge_syn_cookies. destruct (map_fold _ _ _) as [c n]. reflexivity.
Qed.

Lemma reachable_capped (network : chratos_networks) (pc : peer_container) :
  network <> chratos_test_network -> reachable network pc -> capped (peers pc).
Proof.
  intros Hn. induction 1.
  - intros ip. cbn. unfold same_ip. rewrite map_filter_empty, map_size_empty. lia.
  - now apply insert_capped.
  - unfold contacted. destruct (version_a <? node_id_version)%N.
    + cbn [snd]. now apply insert_capped.
    + destruct (negb _ && _); assumption.
  - now apply purge_list_capped.
  - unfold rep_response. destruct (peers pc !! endpoint_a); [|assumption].
    cbn [snd peers with_peers]. apply capped_alter; [reflexivity | assumption].
  - cbn [rep_request peers with_peers]. apply capped_alter; [reflexivity | assumption].
  - cbn [bootstrap_peer_at peers with_peers]. apply capped_alter; [reflexivity | assumption].
  - unfold reachout. destruct (negb _); assumption.
  - unfold assign_syn_cookie. destruct (_ <? _)%N; [destruct (syn_cookies pc !! _)|];
      assumption.
  - unfold validate_syn_cookie. destruct (syn_cookies pc !! _); [|assumption].
    destruct (negb _); [|assumption]. destruct (_ <? _)%N; assumption.
  - rewrite purge_syn_cookies_peers. assumption.
Qed.

Lemma not_a_peer_self (network : chratos_networks) (pc pc' : peer_container)
      (e : endpoint) (b : bool) :
  self pc' = self pc -> not_a_peer network pc' e b = not_a_peer network pc e b.
Proof. intros H. unfold not_a_peer. now rewrite H. Qed.

Lemma insert_all_results (network : chratos_networks) (endpoints : list endpoint)
      (version_a : N) (now_l : Z) (ip : N) :
  network <> chratos_test_network ->
  (protocol_version_min <= version_a)%N -> (node_id_version <= version_a)%N ->
  NoDup endpoints ->
  Forall (fun e => address e = ip) endpoints ->
  forall (pc : peer_container) (c : N),
    Forall (fun e => not_a_peer network pc e false = false) endpoints ->
    (forall e, In e endpoints -> peers pc !! e = None) ->
    N.of_nat (size (same_ip ip (peers pc))) = c ->
    fst (Peers.insert_all node_id_version protocol_version_min max_legacy_peers_per_ip
           network pc endpoints version_a now_l)
    = expected_results c (length endpoints).
Proof.
  intros Hn Hmin Hid Hnd Hip. induction endpoints as [|e rest IH]; intros pc c Hpeer Hnew Hc.
  - reflexivity.
  - apply NoDup_cons in Hnd as [Hnotin Hnd]. rewrite list_elem_of_In in Hnotin.
    apply Forall_cons in Hip as [He Hip]. apply Forall_cons in Hpeer as [Hpe Hpeer].
    cbn [Peers.insert_all length expected_results].
    pose proof (insert_cases network pc e version_a now_l) as Hcases. cbv zeta in Hcases.
    assert (Hres : fst (fst (insert network pc e version_a now_l)) = (max_peers_per_ip <=? c)%N
                   /\ peers (snd (fst (insert network pc e version_a now_l)))
                      = if (max_peers_per_ip <=? c)%N then peers pc
                        else <[e := peer_information_new e version_a now_l]> (peers pc)).
    { unfold Peers.insert. rewrite Hpe. cbn [negb].
      replace (protocol_version_min <=? version_a)%N with true
        by (symmetry; apply N.leb_le; exact Hmin).
      rewrite (Hnew e (or_introl eq_refl)).
      replace (version_a <? node_id_version)%N with false
        by (symmetry; apply N.ltb_ge; exact Hid).
      replace (is_test_network network) with false
        by (destruct network; [congruence | reflexivity | reflexivity]).
      cbn [negb andb orb]. rewrite He, Hc. rewrite orb_false_r.
      destruct (max_peers_per_ip <=? c)%N; cbn; auto. }
    destruct Hres as [Hr Hp]. destruct Hcases as [Hself _].
    destruct (insert network pc e version_a now_l) as [[r pc'] obs].
    cbn [fst snd] in *. subst r.
    specialize (IH Hnd Hip pc' (if (max_peers_per_ip <=? c)%N then c else (c + 1)%N)).
    destruct (Peers.insert_all _ _ _ network pc' rest version_a now_l) as [results pc''].
    cbn [fst] in *. f_equal. apply IH.
    + eapply Forall_impl; [exact Hpeer|]. intros a Ha. cbn beta in *.
      rewrite (not_a_peer_self network pc pc' a false Hself). exact Ha.
    + intros a Ha. rewrite Hp. destruct (max_peers_per_ip <=? c)%N.
      * apply Hnew. right. exact Ha.
      * rewrite lookup_insert_ne by (intros ->; contradiction).
        apply Hnew. right. exact Ha.
    + rewrite Hp. destruct (max_peers_per_ip <=? c)%N; [exact Hc|].
      rewrite same_ip_insert_fresh by (apply Hnew; left; reflexivity).
      cbn [ip_address peer_information_new]. rewrite decide_True by exact He. lia.
Qed.

Lemma insert_all_reachable (network : chratos_networks) (endpoints : list endpoint)
      (version_a : N) (now_l : Z) (pc : peer_container) :
  reachable network pc ->
  reachable network
    (snd (Peers.insert_all node_id_version protocol_version_min max_legacy_peers_per_ip
            network pc endpoints version_a now_l)).
Proof.
  revert pc. induction endpoints as [|e rest IH]; intros pc Hr; [exact Hr|].
  cbn [Peers.insert_all].
  pose proof (Peers.reach_insert node_id_version protocol_version_min
                max_legacy_peers_per_ip network pc e version_a now_l Hr) as Hr'.
  destruct (insert network pc e version_a now_l) as [[r pc'] obs]. cbn [fst snd] in Hr'.
  specialize (IH pc' Hr').
  destruct (Peers.insert_all _ _ _ network pc' rest version_a now_l) as [results pc''].
  exact IH.
Qed.

(** C8, as amended: off the test network no address ever has more than
    [max_peers_per_ip] peers in the container, and of eleven distinct
    endpoints of one address that are valid peers of a current protocol
    version and are presented to a container without peers of that address,
    the first ten are inserted and the eleventh is rejected. *)
Theorem peers_per_ip_capped :
  (forall network pc,
      network <> chratos_test_network ->
      reachable network pc ->
      forall ip, (ip_peers pc ip <= max_peers_per_ip)%N)
  /\ (forall network pc endpoints version_a now_l ip,
         network <> chratos_test_network ->
         (protocol_version_min <= version_a)%N -> (node_id_version <= version_a)%N ->
         NoDup endpoints -> length endpoints = 11%nat ->
         Forall (fun e => address e = ip) endpoints ->
         Forall (fun e => not_a_peer network pc e false = false) endpoints ->
         (forall e, In e endpoints -> peers pc !! e = None) ->
         ip_peers pc ip = 0%N ->
         fst (Peers.insert_all node_id_version protocol_version_min max_legacy_peers_per_ip
                network pc endpoints version_a now_l)
         = repeat false 10 ++ [true]).
Proof.
  split.
  - intros network pc Hn Hr ip. pose proof (reachable_capped network pc Hn Hr ip).
    unfold ip_peers, max_peers_per_ip. lia.
  - intros network pc endpoints version_a now_l ip Hn Hmin Hid Hnd Hlen Hip Hpeer Hnew Hc.
    rewrite (insert_all_results network endpoints version_a now_l ip Hn Hmin Hid Hnd Hip
               pc 0%N Hpeer Hnew Hc).
    rewrite Hlen. reflexivity.
Qed.

End PeerCapFacts.

Section PeerCapWitness.

Import Peers PeerData.
Local Open Scope N_scope.

Lemma eleven_endpoints_NoDup : NoDup eleven_endpoints.
Proof.
  unfold eleven_endpoints. cbn [map].
  repeat (apply NoDup_cons; split;
          [rewrite list_elem_of_In; cbn [In]; unfold public_endpoint;
           intros H; repeat (destruct H as [H|H]; [discriminate H|]); exact H|]).
  apply NoDup_nil_2.
Qed.

Lemma peers_per_ip_capped_witness :
  (ip_peers (snd (Peers.insert_all 12 7 5 chratos_live_network pc0 eleven_endpoints 13 0%Z))
     (0x2a00 * 2 ^ 112 + 1) <= max_peers_per_ip)
  /\ fst (Peers.insert_all 12 7 5 chratos_live_network pc0 eleven_endpoints 13 0%Z)
     = repeat false 10 ++ [true].
Proof.
  destruct (peers_per_ip_capped 12 7 5) as [H1 H2]. split.
  - apply (H1 chratos_live_network); [discriminate|].
    apply insert_all_reachable, Peers.reach_new.
  - apply (H2 chratos_live_network pc0 eleven_endpoints 13 0%Z (0x2a00 * 2 ^ 112 + 1)).
    + discriminate.
    + vm_compute. discriminate.
    + vm_compute. discriminate.
    + exact eleven_endpoints_NoDup.
    + reflexivity.
    + repeat constructor.
    + repeat constructor.
    + intros e He. apply lookup_empty.
    + reflexivity.
Defined.

(** On the test network [insert] does not count the peers of the address:
    all eleven endpoints are inserted. *)
Lemma peers_per_ip_capped_counterexample :
  let r := Peers.insert_all 12 7 5 chratos_test_network pc0 eleven_endpoints 13 0%Z in
  Peers.reachable 12 7 5 chratos_test_network (snd r)
  /\ fst r = repeat false 11
  /\ ip_peers (snd r) (0x2a00 * 2 ^ 112 + 1) = 11
  /\ ~ (ip_peers (snd r) (0x2a00 * 2 ^ 112 + 1) <= max_peers_per_ip).
Proof.
  cbv zeta. split; [|split; [|split]].
  - apply insert_all_reachable, Peers.reach_new.
  - vm_compute. reflexivity.
  - vm_compute. reflexivity.
  - vm_compute. intros H. apply H. reflexivity.
Qed.

End PeerCapWitness.

(** * Properties of the gap cache *)

Section GapCacheClaims.

Import Chratos GapCache GapData.

Lemma voters_tally_sum (env : node_env) (vs : gset Z) :
  voters_tally env vs
  = wrap 128 (foldr Z.add 0 (map (ledger_weight env) (elements vs))).
Proof.
  unfold voters_tally, set_fold. cbn [compose].
  induction (elements vs) as [|v l IH]; [reflexivity|].
  cbn [foldr map]. rewrite IH. unfold wrap.
  rewrite Z.add_mod_idemp_l by lia. f_equal. lia.
Qed.

(** C9, as amended: for a hash of the vote that is in the cache, the check
    is scheduled exactly when the voter is new to the entry and the summed
    ledger weight of the entry's voters, taken in 128 bits, exceeds
    [(online_stake / 256) * bootstrap_fraction_numerator]; the division
    comes first. *)
Theorem bootstrap_check_scheduled :
  forall env account_a gc alarms hash,
    let r := vote_hash_step env account_a (gc, alarms) hash in
    bootstrap_threshold env
    = wrap 128 (online_stake env / 256 * bootstrap_fraction_numerator env)
    /\ (forall vs, voters_tally env vs
                  = wrap 128 (foldr Z.add 0 (map (ledger_weight env) (elements vs))))
    /\ ((exists existing,
            blocks gc !! hash = Some existing
            /\ (account_a ∉ voters existing)
            /\ voters_tally env ({[account_a]} ∪ voters existing) > bootstrap_threshold env)
        <-> exists a, snd r = alarms ++ [a] /\ missing a = hash)
    /\ (snd r = alarms \/ exists a, snd r = alarms ++ [a]).
Proof.
  intros env account_a gc alarms hash r. split; [reflexivity|].
  split; [apply voters_tally_sum|].
  subst r. unfold vote_hash_step.
  destruct (blocks gc !! hash) as [existing|] eqn:Hb.
  2:{ cbn [snd]. split; [|auto]. split.
      - intros (x & Hx & _). discriminate.
      - intros (a & Ha & _). apply (f_equal (@length _)) in Ha.
        rewrite length_app in Ha. cbn in Ha. lia. }
  cbn [voters].
  destruct (bool_decide (account_a ∉ voters existing)) eqn:Hnew.
  - apply bool_decide_eq_true in Hnew.
    destruct (voters_tally env ({[account_a]} ∪ voters existing) >? bootstrap_threshold env)
      eqn:Ht; cbn [snd].
    + split; [|right; eauto]. split.
      * intros _. eexists. split; reflexivity.
      * intros _. exists existing. repeat split; [assumption | lia].
    + split; [|auto]. split.
      * intros (x & Hx & _ & Hgt). injection Hx as <-. lia.
      * intros (a & Ha & _). apply (f_equal (@length _)) in Ha.
        rewrite length_app in Ha. cbn in Ha. lia.
  - apply bool_decide_eq_false in Hnew. cbn [snd]. split; [|auto]. split.
    + intros (x & Hx & Hn & _). injection Hx as <-. contradiction.
    + intros (a & Ha & _). apply (f_equal (@length _)) in Ha.
      rewrite length_app in Ha. cbn in Ha. lia.
Qed.

(** With the multiplication first the statement fails: at an online stake
    of 255 and a numerator of 2 the threshold would be [255 * 2 / 256 = 1],
    which the one voter of weight 1 does not exceed, but the check is
    scheduled. *)
Lemma bootstrap_check_scheduled_counterexample :
  let v := {| account := 5; sequence := 1; vote_blocks := [vote_hash 11]; signature := 0 |} in
  snd (vote env_gap gc11 v) = [{| wakeup := seconds 105; missing := 11 |}]
  /\ voters_tally env_gap {[5]} = 1
  /\ ~ (1 > online_stake env_gap * bootstrap_fraction_numerator env_gap / 256).
Proof.
  cbv zeta. split; [vm_compute; reflexivity|]. split; [vm_compute; reflexivity|].
  vm_compute. intros H. discriminate H.
Qed.

Lemma bootstrap_check_scheduled_witness :
  exists a, snd (vote_hash_step env_gap 5 (gc11, []) 11) = [] ++ [a] /\ missing a = 11.
Proof.
  apply (proj1 (proj2 (proj2 (bootstrap_check_scheduled env_gap 5 gc11 [] 11)))).
  eexists. split; [reflexivity|]. split.
  - cbn [voters]. apply not_elem_of_empty.
  - vm_compute. reflexivity.
Defined.

End GapCacheClaims.

(** * Further properties of the account codec *)

Section CodecExtras.

Import Numbers.

Variable blake2b : nat -> list byte -> list byte.

Lemma account_encode_alphabet (d : byte) :
  byte_val d < 32 -> in_alphabet (account_encode d).
Proof.
  destruct d; vm_compute; intros H; try discriminate H;
    repeat (first [left; reflexivity | right]).
Qed.

Lemma decode_loop_digits (x : Z) :
  0 <= x < 2 ^ 296 ->
  decode_loop (map account_encode (rev (le_digits 5 60 x))) 0 = Some x.
Proof.
  intros Hx. rewrite decode_loop_encoded.
  - rewrite rev_involutive, length_rev, length_le_digits. f_equal.
    change (le_value 32) with (le_value (2 ^ 5)).
    rewrite (le_value_digits 5) by lia.
    change ((2 ^ 5) ^ Z.of_nat 60) with (2 ^ 300).
    rewrite Z.mod_small by lia. lia.
  - apply Forall_rev, le_digits_small; lia.
  - lia.
  - rewrite length_rev, length_le_digits.
    change (32 ^ Z.of_nat 60) with (2 ^ 300). lia.
Qed.

(** The number that [encode_account] spells: the key above its checksum. *)
Lemma encoded_value_split (a : uint256_union) :
  length (bytes a) = 32%nat ->
  let x := number a * 2 ^ 40 + account_check blake2b a in
  0 <= x < 2 ^ 296
  /\ of_number (wrap 256 (Z.shiftr x 40)) = a
  /\ Z.land x 0xffffffffff = account_check blake2b a.
Proof.
  intros Hlen x.
  pose proof (number_range a Hlen) as Hn.
  pose proof (account_check_range blake2b a) as Hc.
  split; [change (2 ^ 296) with (2 ^ 256 * 2 ^ 40); subst x; nia|]. split.
  - rewrite Z.shiftr_div_pow2 by lia. subst x.
    rewrite Z.div_add_l, Z.div_small by lia. unfold wrap.
    rewrite Z.add_0_r, Z.mod_small by lia. apply of_number_number, Hlen.
  - change 0xffffffffff with (2 ^ 40 - 1). rewrite land_ones_mod by lia.
    subst x. rewrite Z.add_comm, Z.mod_add by lia. apply Z.mod_small. lia.
Qed.

Lemma decode_account_encode_account (this a : uint256_union) :
  length (bytes a) = 32%nat ->
  decode_account blake2b this (encode_account blake2b a) = (false, a).
Proof.
  intros Hlen. rewrite encode_account_digits by exact Hlen. cbv zeta.
  destruct (encoded_value_split a Hlen) as (Hx & Hhi & Hlo).
  rewrite decode_account_digits by exact Hx. cbv zeta.
  rewrite Hhi, Hlo, Z.eqb_refl. reflexivity.
Qed.

(** X1: the constructor from a 256-bit number and [number ()] are inverse
    to each other: the constructor fills the 32 bytes with the big-endian
    digits of the number, and [number ()] reads them back. *)
Theorem uint256_number_round_trip :
  (forall x, 0 <= x < 2 ^ 256 ->
     length (bytes (of_number x)) = 32%nat /\ number (of_number x) = x)
  /\ (forall u, length (bytes u) = 32%nat ->
        0 <= number u < 2 ^ 256 /\ of_number (number u) = u).
Proof.
  split.
  - intros x Hx. split.
    + cbn [of_number bytes]. now rewrite length_rev, fill_rbegin_digits, length_le_digits.
    + rewrite number_of_number by lia. apply Z.mod_small, Hx.
  - intros u Hu. split; [apply number_range, Hu | apply of_number_number, Hu].
Qed.

(** X2: the string that [encode_account] gives for a key has 64 symbols:
    the prefix [chr_], then [1] or [3], then 59 symbols of the base-32
    alphabet. *)
Theorem encode_account_well_formed (a : uint256_union) :
  length (bytes a) = 32%nat ->
  exists first rest,
    list_ascii_of_string (encode_account blake2b a)
    = ("c" :: "h" :: "r" :: "_" :: first :: rest)%char
    /\ (first = "1" \/ first = "3")%char
    /\ length rest = 59%nat
    /\ Forall in_alphabet rest.
Proof.
  intros Hlen. rewrite encode_account_digits by exact Hlen. cbv zeta.
  destruct (encoded_value_split a Hlen) as (Hx & _).
  set (x := number a * 2 ^ 40 + account_check blake2b a) in *.
  rewrite list_ascii_of_string_of_list_ascii.
  destruct (top_digit x Hx) as (ds & d & Hrev & Hd).
  assert (Hl : length (rev (le_digits 5 60 x)) = 60%nat)
    by now rewrite length_rev, length_le_digits.
  assert (Hs : Forall (fun d => 0 <= byte_val d < 2 ^ 5) (rev (le_digits 5 60 x)))
    by (apply Forall_rev, le_digits_small; lia).
  rewrite Hrev in *. cbn [map length] in *.
  exists (account_encode d), (map account_encode ds).
  split; [reflexivity|]. split; [exact Hd|]. split; [rewrite length_map; lia|].
  apply Forall_cons in Hs as [_ Hs]. apply Forall_map.
  eapply Forall_impl; [exact Hs|]. intros b Hb. apply account_encode_alphabet.
  cbv beta in Hb. change (2 ^ 5) with 32 in Hb. lia.
Qed.

(** X3: different keys have different account strings. *)
Theorem encode_account_injective (a b : uint256_union) :
  length (bytes a) = 32%nat -> length (bytes b) = 32%nat ->
  a <> b -> encode_account blake2b a <> encode_account blake2b b.
Proof.
  intros Ha Hb Hne He. apply Hne.
  pose proof (decode_account_encode_account a a Ha) as Da.
  pose proof (decode_account_encode_account a b Hb) as Db.
  rewrite He in Da. congruence.
Qed.

End CodecExtras.

Section CodecPrefixes.

Import Numbers.

Variable blake2b : nat -> list byte -> list byte.

(** What [decode_account] does with sixty symbols, the first of which is
    [1] or [3], behind any of the four prefixes it knows. *)
Lemma decode_account_prefixed (this : uint256_union) (prefix rest : list ascii) :
  In prefix (map list_ascii_of_string ["chr_"; "chr-"; "nano_"; "nano-"]%string) ->
  length rest = 60%nat ->
  nth 0 rest zero = "1"%char \/ nth 0 rest zero = "3"%char ->
  decode_account blake2b this (string_of_list_ascii (prefix ++ rest))
  = match decode_loop rest 0 with
    | None => (true, this)
    | Some number_l =>
        let this' := of_number (wrap 256 (Z.shiftr number_l 40)) in
        (negb (Z.land number_l 0xffffffffff =? account_check blake2b this'), this')
    end.
Proof.
  intros Hp Hlen Hfirst. unfold decode_account.
  rewrite list_ascii_of_string_of_list_ascii.
  destruct rest as [|c rest]; [discriminate Hlen|].
  cbn [nth] in Hfirst. cbn [length] in Hlen. injection Hlen as Hlen.
  cbn [map list_ascii_of_string In] in Hp.
  destruct Hp as [<- | [<- | [<- | [<- | []]]]];
    cbn [app length]; rewrite Hlen; cbn [nth skipn];
    destruct Hfirst as [-> | ->]; reflexivity.
Qed.

(** X4: the sixty digits that [encode_account] writes behind [chr_] are
    decoded to the same key behind each of the other prefixes that
    [decode_account] accepts: [chr-], [nano_] and [nano-]. *)
Theorem decode_account_any_prefix (this a : uint256_union) (digits : list ascii) :
  length (bytes a) = 32%nat ->
  list_ascii_of_string (encode_account blake2b a)
  = ("c" :: "h" :: "r" :: "_" :: digits)%char ->
  decode_account blake2b this
    (string_of_list_ascii ("c" :: "h" :: "r" :: "-" :: digits)%char) = (false, a)
  /\ decode_account blake2b this
       (string_of_list_ascii ("n" :: "a" :: "n" :: "o" :: "_" :: digits)%char) = (false, a)
  /\ decode_account blake2b this
       (string_of_list_ascii ("n" :: "a" :: "n" :: "o" :: "-" :: digits)%char) = (false, a).
Proof.
  intros Hlen He. rewrite encode_account_digits in He by exact Hlen. cbv zeta in He.
  rewrite list_ascii_of_string_of_list_ascii in He. injection He as <-.
  destruct (encoded_value_split blake2b a Hlen) as (Hx & Hhi & Hlo).
  set (x := number a * 2 ^ 40 + account_check blake2b a) in *.
  assert (Hany : forall prefix,
             In prefix (map list_ascii_of_string ["chr_"; "chr-"; "nano_"; "nano-"]%string) ->
             decode_account blake2b this
               (string_of_list_ascii (prefix ++ map account_encode (rev (le_digits 5 60 x))))
             = (false, a)).
  { intros prefix Hp. rewrite decode_account_prefixed.
    - rewrite decode_loop_digits by exact Hx. cbv zeta.
      rewrite Hhi, Hlo, Z.eqb_refl. reflexivity.
    - exact Hp.
    - now rewrite length_map, length_rev, length_le_digits.
    - destruct (top_digit x Hx) as (ds & d & -> & Hd). exact Hd. }
  split; [|split].
  - apply (Hany (list_ascii_of_string "chr-")). cbn. tauto.
  - apply (Hany (list_ascii_of_string "nano_")). cbn. tauto.
  - apply (Hany (list_ascii_of_string "nano-")). cbn. tauto.
Qed.

(** X5: a call of [decode_account] that fails leaves the receiver as it
    was unless all digits were read and only the checksum is wrong: then
    the receiver holds the key that the digits spell.  For every hash
    function there is a string with which this happens. *)
Theorem decode_account_failure_receiver :
  (forall (this k : uint256_union) (source_a : string),
      decode_account blake2b this source_a = (true, k) ->
      k = this
      \/ exists (i : nat) (number_l : Z),
           (i = 4 \/ i = 5)%nat
           /\ decode_loop (skipn i (list_ascii_of_string source_a)) 0 = Some number_l
           /\ k = of_number (wrap 256 (Z.shiftr number_l 40))
           /\ Z.land number_l 0xffffffffff <> account_check blake2b k)
  /\ (exists source_a : string,
         forall this, decode_account blake2b this source_a = (true, of_number 0)).
Proof.
  split.
  - intros this k source_a H. unfold decode_account in H. cbv zeta in H.
    set (s := list_ascii_of_string source_a) in *.
    destruct (length s <? 5)%nat; [injection H as <-; left; reflexivity|].
    match type of H with (if ?c then _ else _) = _ => destruct c end;
      [injection H as <-; left; reflexivity|].
    match type of H with (if ?c then _ else _) = _ => destruct c end;
      [|injection H as <-; left; reflexivity].
    match type of H with (if ?c then _ else _) = _ => destruct c end;
      [|injection H as <-; left; reflexivity].
    match type of H with context [skipn ?j s] => set (i := j) in * end.
    destruct (decode_loop (skipn i s) 0) as [number_l|] eqn:Hloop;
      [|injection H as <-; left; reflexivity].
    injection H as Hchk <-. right. exists i, number_l.
    split; [subst i; match goal with |- context [if ?c then _ else _] => destruct c end; auto|].
    split; [exact Hloop|]. split; [reflexivity|].
    apply negb_true_iff, Z.eqb_neq in Hchk. exact Hchk.
  - assert (Hd : forall x this, 0 <= x < 2 ->
               decode_account blake2b this
                 (string_of_list_ascii
                    ("c" :: "h" :: "r" :: "_" :: map account_encode (rev (le_digits 5 60 x)))%char)
               = (negb (x =? account_check blake2b (of_number 0)), of_number 0)).
    { intros x this Hx. rewrite decode_account_digits by lia. cbv zeta.
      assert (x = 0 \/ x = 1) as [-> | ->] by lia; reflexivity. }
    destruct (account_check blake2b (of_number 0) =? 0) eqn:E.
    + eexists. intros this. rewrite (Hd 1) by lia.
      apply Z.eqb_eq in E. rewrite E. reflexivity.
    + eexists. intros this. rewrite (Hd 0) by lia.
      rewrite Z.eqb_sym, E. reflexivity.
Qed.

End CodecPrefixes.

Section CodecExtrasOnBlake2b.

Import Numbers.

Lemma uint256_number_round_trip_witness :
  (length (bytes (of_number 78)) = 32%nat /\ number (of_number 78) = 78)
  /\ (0 <= number (of_number 78) < 2 ^ 256 /\ of_number (number (of_number 78)) = of_number 78).
Proof.
  split.
  - apply (proj1 uint256_number_round_trip 78). lia.
  - apply (proj2 uint256_number_round_trip (of_number 78)). reflexivity.
Defined.

Lemma encode_account_well_formed_witness :
  exists first rest,
    list_ascii_of_string (encode_account Blake2b.blake2b (of_number 78))
    = ("c" :: "h" :: "r" :: "_" :: first :: rest)%char
    /\ (first = "1" \/ first = "3")%char
    /\ length rest = 59%nat
    /\ Forall in_alphabet rest.
Proof. apply (encode_account_well_formed Blake2b.blake2b (of_number 78)). reflexivity. Defined.

Lemma encode_account_injective_witness :
  encode_account Blake2b.blake2b (of_number 0) <> encode_account Blake2b.blake2b (of_number 78).
Proof.
  apply (encode_account_injective Blake2b.blake2b (of_number 0) (of_number 78));
    [reflexivity | reflexivity |].
  vm_compute. intros H. discriminate H.
Defined.

Lemma decode_account_any_prefix_witness :
  decode_account Blake2b.blake2b (of_number 78)
    "chr-1111111111111111111111111111111111111111111111111111hifc8npp"%string = (false, of_number 0)
  /\ decode_account Blake2b.blake2b (of_number 78)
       "nano_1111111111111111111111111111111111111111111111111111hifc8npp"%string = (false, of_number 0)
  /\ decode_account Blake2b.blake2b (of_number 78)
       "nano-1111111111111111111111111111111111111111111111111111hifc8npp"%string = (false, of_number 0).
Proof.
  apply (decode_account_any_prefix Blake2b.blake2b (of_number 78) (of_number 0)
           (list_ascii_of_string
              "1111111111111111111111111111111111111111111111111111hifc8npp"%string)).
  - reflexivity.
  - vm_compute. reflexivity.
Defined.

Lemma decode_account_failure_receiver_witness :
  of_number 0 = of_number 1
  \/ exists (i : nat) (number_l : Z),
       (i = 4 \/ i = 5)%nat
       /\ decode_loop
            (skipn i (list_ascii_of_string
                        "chr_1111111111111111111111111111111111111111111111111111hifc8npq"%string)) 0
          = Some number_l
       /\ of_number 0 = of_number (wrap 256 (Z.shiftr number_l 40))
       /\ Z.land number_l 0xffffffffff <> account_check Blake2b.blake2b (of_number 0).
Proof.
  apply (proj1 (decode_account_failure_receiver Blake2b.blake2b) (of_number 1) (of_number 0)
           "chr_1111111111111111111111111111111111111111111111111111hifc8npq"%string).
  vm_compute. reflexivity.
Defined.

End CodecExtrasOnBlake2b.

(** * Further properties of elections *)

Section ElectionExtras.

Import Election ElectionSpec ElectionData TallySpec.


(** X6: the first vote of a representative that passes the weight gate is
    stored whatever its sequence number and without any cooldown, and it is
    not tagged as replay. *)
Theorem first_vote_stored (env : node_env) (e : election) (rep sequence block_hash : Z) :
  anchored env e ->
  weight_gate env rep = true ->
  last_votes e !! rep = None ->
  exists e' evs,
    vote env e rep sequence block_hash
    = Some (e', {| replay := false; processed := false |}, evs)
    /\ last_votes e' = <[rep := stored_vote env sequence block_hash]> (last_votes e).
Proof.
  intros Ha Hg Hnone.
  assert (Hne : rep <> not_an_account env).
  { destruct Ha as (lv & b & Hlv & _). congruence. }
  destruct (vote_total env e rep sequence block_hash Ha Hne) as (e' & r & evs & Hv & _).
  pose proof (vote_inv _ _ _ _ _ _ _ _ Hv) as (Hlv & _ & Hrp & Hpr & _).
  cbv zeta in Hlv. unfold accepted, vote_decision in Hlv, Hrp.
  rewrite Hg, Hnone in Hlv, Hrp. cbn in Hlv, Hrp.
  exists e', evs. split; [|exact Hlv].
  rewrite Hv. destruct r as [rp pr]. cbn in Hrp, Hpr. subst. reflexivity.
Qed.



Lemma first_vote_stored_witness :
  exists e' evs,
    vote (env_live 2000 100) e_start 5 5 11
    = Some (e', {| replay := false; processed := false |}, evs)
    /\ last_votes e'
       = <[5 := stored_vote (env_live 2000 100) 5 11]> (last_votes e_start).
Proof.
  apply (first_vote_stored (env_live 2000 100) e_start 5 5 11).
  - apply election_new_anchored.
  - vm_compute. reflexivity.
  - vm_compute. reflexivity.
Defined.

Lemma wrap_add_l (a b : Z) : wrap 128 (wrap 128 a + b) = wrap 128 (a + b).
Proof. unfold wrap. apply Z.add_mod_idemp_l. lia. Qed.

Lemma weight_sum_insert (env : node_env) (m : gmap Z vote_info) (rep : Z) (x : vote_info) :
  m !! rep = None ->
  weight_sum env (<[rep := x]> m) = weight_sum env m + ledger_weight env rep.
Proof.
  intros Hm. unfold weight_sum. rewrite map_fold_insert_L; [reflexivity| |exact Hm].
  intros. lia.
Qed.

Lemma votes_for_insert (h : Z) (m : gmap Z vote_info) (rep : Z) (x : vote_info) :
  m !! rep = None ->
  votes_for h (<[rep := x]> m)
  = if decide (vi_hash x = h) then <[rep := x]> (votes_for h m) else votes_for h m.
Proof.
  intros Hm. unfold votes_for. destruct (decide (vi_hash x = h)) as [Hh|Hh].
  - now rewrite map_filter_insert_True.
  - rewrite map_filter_insert_False by exact Hh. now rewrite delete_id.
Qed.

(** X8: [tally] counts every representative once, for the hash of its
    latest vote: the weight it records for a hash is the summed ledger
    weight, in 128 bits, of the representatives whose stored vote names
    that hash, and a hash that no stored vote names has no entry. *)
Theorem tally_sums_latest_votes (env : node_env) (e : election) (h : Z) :
  last_tally (fst (tally env e)) !! h
  = if decide (votes_for h (last_votes e) = ∅) then None
    else Some (wrap 128 (weight_sum env (votes_for h (last_votes e)))).
Proof.
  unfold tally. cbn [fst last_tally with_last_tally]. revert h.
  pose (P := fun (bw : gmap Z Z) (m : gmap Z vote_info) =>
                forall h, bw !! h
                          = if decide (votes_for h m = ∅) then None
                            else Some (wrap 128 (weight_sum env (votes_for h m)))).
  apply (map_fold_weak_ind P); subst P; cbv beta.
  - intros h. unfold votes_for. rewrite map_filter_empty, decide_True by reflexivity.
    apply lookup_empty.
  - intros rep x m bw Hm IH h. rewrite votes_for_insert by exact Hm.
    destruct (decide (vi_hash x = h)) as [<-|Hh].
    + rewrite lookup_insert_eq.
      rewrite decide_False by apply insert_non_empty.
      rewrite weight_sum_insert
        by (apply map_lookup_filter_None; left; exact Hm).
      rewrite (IH (vi_hash x)).
      destruct (decide (votes_for (vi_hash x) m = ∅)) as [He|He].
      * rewrite He. unfold weight_sum at 1. rewrite map_fold_empty. reflexivity.
      * cbn [default from_option id]. now rewrite wrap_add_l.
    + rewrite lookup_insert_ne by exact Hh. apply IH.
Qed.

End ElectionExtras.

(** * Further properties of the active elections and the vote processor *)

Section ActiveExtras.

Import Chratos Active VoteProcessor VoteData VoteEvents.

Lemma fresh_unused (a : active_transactions) : elections a !! fresh a = None.
Proof.
  unfold fresh.
  assert (H : forall k, is_Some (elections a !! k) ->
                        (k <= map_fold (fun k _ m => Nat.max k m) O (elections a))%nat).
  { apply (map_fold_weak_ind
             (fun (r : nat) (m : gmap nat Election.election) =>
                forall k, is_Some (m !! k) -> (k <= r)%nat)).
    - intros k [x Hx]. rewrite lookup_empty in Hx. discriminate.
    - intros i x m r Hi IH k Hk. destruct (decide (i = k)) as [->|Hne]; [lia|].
      rewrite lookup_insert_ne in Hk by exact Hne. specialize (IH k Hk). lia. }
  destruct (elections a !! S _) eqn:E; [|reflexivity].
  specialize (H _ (ex_intro _ _ E)). lia.
Qed.

(** X9: [start] creates one election per root.  A successful call makes
    the root active with the election of its primary block and leaves the
    elections and the other roots as they were; from then on, and on a
    stopped container, [start] reports an error and changes nothing; after
    [erase] the root is not active any more. *)
Theorem start_once_per_root :
  (forall env a blocks_a a',
      start env a blocks_a = (a', false) ->
      active a' (fst blocks_a) = true
      /\ (exists info,
             roots a' !! block_root (fst blocks_a) = Some info
             /\ elections a' !! ci_election info
                = Some (Election.election_new env (fst blocks_a)))
      /\ (forall id e, elections a !! id = Some e -> elections a' !! id = Some e)
      /\ (forall root, root <> block_root (fst blocks_a) -> roots a' !! root = roots a !! root)
      /\ (forall env' blocks_b,
             block_root (fst blocks_b) = block_root (fst blocks_a) ->
             start env' a' blocks_b = (a', true)))
  /\ (forall env a blocks_a,
         active a (fst blocks_a) = true \/ stopped a = true ->
         start env a blocks_a = (a, true))
  /\ (forall a block_a block_b,
         active (erase a block_a) block_b
         = active a block_b && negb (block_root block_b =? block_root block_a)).
Proof.
  split; [|split].
  - intros env a blocks_a a' H. unfold start in H.
    destruct (stopped a) eqn:Hs; [discriminate|]. cbn [negb] in H.
    destruct (roots a !! block_root (fst blocks_a)) eqn:Hr; [discriminate|].
    injection H as <-. split; [|split; [|split; [|split]]].
    + unfold active. cbn [roots]. rewrite lookup_insert_eq.
      apply bool_decide_eq_true_2. eauto.
    + eexists. cbn [roots elections]. rewrite lookup_insert_eq. split; [reflexivity|].
      cbn [ci_election]. apply lookup_insert_eq.
    + intros id e He. cbn [elections]. rewrite lookup_insert_ne; [exact He|].
      intros <-. rewrite fresh_unused in He. discriminate.
    + intros root Hne. cbn [roots]. now rewrite lookup_insert_ne.
    + intros env' blocks_b Hb. unfold start. cbn [stopped roots negb].
      rewrite Hb, lookup_insert_eq. reflexivity.
  - intros env a blocks_a [H|H]; unfold start.
    + destruct (negb (stopped a)); [|reflexivity].
      unfold active in H. apply bool_decide_eq_true_1 in H as [x Hx]. now rewrite Hx.
    + now rewrite H.
  - intros a block_a block_b. unfold active, erase. cbn [roots].
    destruct (Z.eqb_spec (block_root block_b) (block_root block_a)) as [->|Hne].
    + rewrite lookup_delete_eq, andb_false_r. apply bool_decide_eq_false_2.
      intros [x Hx]. discriminate.
    + rewrite lookup_delete_ne by congruence. now rewrite andb_true_r.
Qed.

Lemma vote_loop_events (env : node_env) (a : active_transactions) (vote_a : Chratos.vote)
      (l : list vote_block) :
  forall (els els' : gmap nat Election.election) (rp rp' pr pr' : bool)
         (evs evs' : list node_event),
    vote_loop env a vote_a l els rp pr evs = Some (els', rp', pr', evs') ->
    pr' = pr /\ exists evs1, evs' = evs ++ map election_event evs1.
Proof.
  induction l as [|vb l IH]; intros els els' rp rp' pr pr' evs evs' H.
  - injection H as <- <- <- <-. split; [reflexivity|]. exists []. now rewrite app_nil_r.
  - cbn [vote_loop] in H.
    destruct (route a vb) as [[id h]|]; [|eapply IH, H].
    destruct (els !! id) as [e|]; [|eapply IH, H].
    destruct (Election.vote env e (account vote_a) (sequence vote_a) h)
      as [[[e1 r] evs0]|] eqn:Hv; [|discriminate].
    pose proof (vote_inv _ _ _ _ _ _ _ _ Hv) as (_ & _ & _ & Hpr & _).
    apply IH in H as [-> (evs1 & ->)]. rewrite Hpr, orb_false_r. split; [reflexivity|].
    exists (evs0 ++ evs1). now rewrite map_app, app_assoc.
Qed.

Lemma active_vote_events (env : node_env) (a a' : active_transactions)
      (vote_a : Chratos.vote) (replay_l : bool) (evs : list node_event) :
  Active.vote env a vote_a = Some (a', replay_l, evs) ->
  roots a' = roots a /\ successors a' = successors a /\ stopped a' = stopped a
  /\ exists evs1, evs = map election_event evs1.
Proof.
  unfold Active.vote.
  destruct (vote_loop env a vote_a (vote_blocks vote_a) (elections a) false false [])
    as [[[[els rp] pr] evs0]|] eqn:Hl; [|discriminate].
  intros H. injection H as <- <- <-.
  apply vote_loop_events in Hl as [-> (evs1 & ->)].
  repeat split. exists evs1. now rewrite app_nil_r.
Qed.

(** X10: [active_transactions::vote] never republishes a vote.  The flag
    that [election::vote] returns as [processed] is the outer
    [should_process], which the inner declaration shadows, so that
    [network.republish_vote] is never reached; all that the call raises are
    the events of the elections, and it leaves the roots and the index of
    successors alone. *)
Theorem votes_never_republished (env : node_env) (a a' : active_transactions)
        (vote_a : Chratos.vote) (replay_l : bool) (evs : list node_event) :
  Active.vote env a vote_a = Some (a', replay_l, evs) ->
  (forall w, ~ In (republish_vote w) evs)
  /\ (exists evs1, evs = map election_event evs1)
  /\ roots a' = roots a /\ successors a' = successors a.
Proof.
  intros H. apply active_vote_events in H as (Hr & Hs & _ & evs1 & ->).
  repeat split; try assumption; [|eauto].
  intros w Hin. apply in_map_iff in Hin as (x & Hx & _). discriminate Hx.
Qed.

(** X11: [vote_blocking] answers a vote with at most one [confirm_ack],
    sent to the endpoint the vote came from: it is sent only for a vote whose
    signature verifies, it carries the stored maximum of the account, and the
    sequence of that maximum exceeds the sequence of the vote by more than
    10000 (taken in 64 bits).  The vote observers are notified exactly when
    the result is [vote]. *)
Theorem vote_blocking_replies (validate : Chratos.vote -> bool) (env : node_env)
        (store store' : gmap Z Chratos.vote) (a a' : active_transactions)
        (vote_a : Chratos.vote) (endpoint_a : Z * Z) (code : vote_code)
        (evs : list node_event) :
  vote_blocking validate env store a vote_a endpoint_a = Some (code, store', a', evs) ->
  (length (filter is_confirm_send evs) <= 1)%nat
  /\ (forall w endpoint_b,
         In (confirm_send w endpoint_b) evs ->
         endpoint_b = endpoint_a /\ validate vote_a = false
         /\ w = fst (vote_max store vote_a)
         /\ sequence w > wrap 64 (sequence vote_a + 10000))
  /\ (In (vote_notify vote_a endpoint_a) evs <-> code = vote_code_vote)
  /\ (forall w, ~ In (republish_vote w) evs).
Proof.
  unfold vote_blocking. destruct (validate vote_a) eqn:Hv; cbn [negb].
  { intros H. injection H as <- _ _ <-. split; [cbn; lia|].
    split; [intros w ep []|]. split; [split; [intros []|discriminate]|intros w []]. }
  destruct (vote_max store vote_a) as [max_vote store1] eqn:Hm. cbn [fst].
  destruct (Active.vote env a vote_a) as [[[a1 rp] evs0]|] eqn:Ha; [|discriminate].
  apply active_vote_events in Ha as (_ & _ & _ & evs1 & ->).
  intros H. injection H as <- _ _ <-.
  assert (Hev : forall x, In x (map election_event evs1) ->
                          (forall w ep, x <> confirm_send w ep)
                          /\ (forall w ep, x <> vote_notify w ep)
                          /\ (forall w, x <> republish_vote w)).
  { intros x Hx. apply in_map_iff in Hx as (y & <- & _). repeat split; discriminate. }
  assert (Hf : filter is_confirm_send (map election_event evs1) = []).
  { clear Hev. induction evs1 as [|y l IH]; [reflexivity | exact IH]. }
  assert (Hs : (sequence max_vote >? wrap 64 (sequence vote_a + 10000)) = true ->
               sequence max_vote > wrap 64 (sequence vote_a + 10000)).
  { intros Hs. apply Z.gtb_lt in Hs. lia. }
  destruct (sequence max_vote >? wrap 64 (sequence vote_a + 10000));
    destruct (negb rp || (sequence max_vote >? sequence vote_a));
    (split; [rewrite !filter_app, Hf; vm_compute; lia|]);
    (split; [|split; [split|]]);
    try (intros w ep Hin); try (intros w Hin); try (intros Hin);
    try discriminate; try reflexivity;
    try (apply in_app_iff; right; left; reflexivity);
    try (apply in_app_iff in Hin as [Hin|Hin];
         [exfalso; destruct (Hev _ Hin) as (Hc1 & Hc2 & Hc3);
          first [eapply Hc1; reflexivity | eapply Hc2; reflexivity | eapply Hc3; reflexivity]|];
         cbn [app In] in Hin;
         repeat (destruct Hin as [Hin|Hin]; try discriminate Hin);
         try contradiction;
         try (injection Hin as <- <-; repeat split; apply Hs; reflexivity)).
Qed.

Lemma start_once_per_root_witness :
  active one_election ElectionData.b11 = true
  /\ start (ElectionData.env_live 2000 200) one_election (ElectionData.b11, None)
     = (one_election, true)
  /\ start (ElectionData.env_live 2000 100) one_election (ElectionData.b11, None)
     = (one_election, true).
Proof.
  destruct start_once_per_root as (H1 & H2 & _).
  destruct (H1 (ElectionData.env_live 2000 100) Active.empty (ElectionData.b11, None)
              one_election) as (Ha & _ & _ & _ & Hs); [vm_compute; reflexivity|].
  split; [exact Ha|]. split; [apply Hs; reflexivity|].
  apply H2. left. vm_compute. reflexivity.
Defined.

Lemma votes_never_republished_witness :
  (forall w, ~ In (republish_vote w) [])
  /\ (exists evs1, [] = map election_event evs1)
  /\ roots {| elections := <[1%nat := ElectionData.e_voted_later]> (elections one_election);
              roots := roots one_election; successors := successors one_election;
              stopped := false |} = roots one_election
  /\ successors
       {| elections := <[1%nat := ElectionData.e_voted_later]> (elections one_election);
          roots := roots one_election; successors := successors one_election;
          stopped := false |} = successors one_election.
Proof.
  apply (votes_never_republished (ElectionData.env_live 2000 200) one_election _
           (vote_of 5) false []).
  vm_compute. reflexivity.
Defined.

Lemma vote_blocking_replies_witness :
  let evs := [vote_notify (vote_of 5) endpoint0; confirm_send (vote_of 20007) endpoint0] in
  (length (filter is_confirm_send evs) <= 1)%nat
  /\ (forall w endpoint_b,
         In (confirm_send w endpoint_b) evs ->
         endpoint_b = endpoint0 /\ accept_signature (vote_of 5) = false
         /\ w = fst (vote_max {[ 5 := vote_of 20007 ]} (vote_of 5))
         /\ sequence w > wrap 64 (sequence (vote_of 5) + 10000))
  /\ (In (vote_notify (vote_of 5) endpoint0) evs <-> vote_code_vote = vote_code_vote)
  /\ (forall w, ~ In (republish_vote w) evs).
Proof.
  apply (vote_blocking_replies accept_signature (ElectionData.env_live 2000 100)
           {[ 5 := vote_of 20007 ]}
           (snd (vote_max {[ 5 := vote_of 20007 ]} (vote_of 5)))
           one_election
           (fst (fst (default (one_election, false, [])
                        (Active.vote (ElectionData.env_live 2000 100) one_election
                           (vote_of 5)))))
           (vote_of 5) endpoint0 vote_code_vote).
  vm_compute. reflexivity.
Defined.

End ActiveExtras.

(** * Further properties of the block processor *)

Section BlockProcessorExtras.

Import BlockProcessor.

Variable work_validate : Z -> Z -> bool.
Variable ledger : Type.
Variable ledger_step : ledger -> bool -> block -> Z -> ledger * list block.

Local Abbreviation process_loop := (BlockProcessor.process_loop work_validate ledger ledger_step).
Local Abbreviation process_receive_many :=
  (BlockProcessor.process_receive_many work_validate ledger ledger_step).

Lemma add_all_forced (unchecked : list block) (bp : block_processor) :
  forced (fold_left (fun bp i => add work_validate bp i 0) unchecked bp) = forced bp.
Proof.
  revert bp. induction unchecked as [|b u IH]; intros bp; [reflexivity|].
  cbn [fold_left]. rewrite IH. unfold add.
  destruct (negb _); [|reflexivity]. destruct (bool_decide _); reflexivity.
Qed.

Lemma process_loop_length (count : nat) (l : ledger) (bp : block_processor) (now_l : Z) :
  (length (fst (fst (process_loop count l bp now_l))) <= count)%nat.
Proof.
  revert l bp. induction count as [|count IH]; intros l bp; [cbn; lia|].
  cbn [BlockProcessor.process_loop].
  destruct (take bp now_l) as [[[[b o] f] bp1]|]; [|cbn; lia].
  destruct (ledger_step l f b o) as [l1 u].
  specialize (IH l1 (fold_left (fun bp i => add work_validate bp i 0) u bp1)).
  destruct (process_loop count l1 _ now_l) as [[events l2] bp2].
  cbn [fst length] in *. lia.
Qed.

Lemma process_loop_forced_first (count : nat) (l : ledger) (bp : block_processor)
      (now_l : Z) :
  firstn (length (forced bp)) (fst (fst (process_loop count l bp now_l)))
  = map (fun b => (b, true)) (firstn count (forced bp)).
Proof.
  revert l bp. induction count as [|count IH]; intros l bp.
  - cbn [BlockProcessor.process_loop fst]. now rewrite firstn_nil.
  - cbn [BlockProcessor.process_loop]. unfold take.
    destruct (forced bp) as [|f rest] eqn:Hf.
    + cbn [length firstn map]. reflexivity.
    + destruct (ledger_step l true f now_l) as [l1 u].
      match goal with |- context [process_loop count l1 ?bp1 now_l] =>
        specialize (IH l1 bp1); rewrite add_all_forced in IH; cbn [forced] in IH;
        destruct (process_loop count l1 bp1 now_l) as [[events l2] bp2]
      end.
      cbn [fst length firstn map] in *. now rewrite IH.
Qed.

Lemma process_loop_drains (count : nat) (l : ledger) (bp : block_processor) (now_l : Z) :
  (forall l f b t, snd (ledger_step l f b t) = []) ->
  (length (forced bp) + length (blocks bp) <= count)%nat ->
  fst (fst (process_loop count l bp now_l))
  = map (fun b => (b, true)) (forced bp) ++ map (fun i => (fst i, false)) (blocks bp)
  /\ have_blocks (snd (process_loop count l bp now_l)) = false.
Proof.
  intros Hnone. revert l bp. induction count as [|count IH]; intros l bp Hlen.
  - destruct (forced bp) eqn:Hf; [|cbn in Hlen; lia].
    destruct (blocks bp) eqn:Hb; [|cbn in Hlen; lia].
    cbn [BlockProcessor.process_loop fst snd]. unfold have_blocks.
    rewrite Hf, Hb. split; reflexivity.
  - cbn [BlockProcessor.process_loop]. unfold take.
    destruct (forced bp) as [|f rest] eqn:Hf.
    + destruct (blocks bp) as [|[b o] rest] eqn:Hb.
      * cbn [fst snd]. unfold have_blocks. rewrite Hf, Hb. split; reflexivity.
      * pose proof (Hnone l false b o) as Hu.
        destruct (ledger_step l false b o) as [l1 u]. cbn [snd] in Hu. subst u.
        cbn [fold_left].
        match goal with |- context [process_loop count l1 ?bp1 now_l] =>
          destruct (IH l1 bp1) as [IH1 IH2]; [cbn in *; lia|];
          destruct (process_loop count l1 bp1 now_l) as [[events l2] bp2]
        end.
        cbn [fst snd forced blocks map app] in *. rewrite IH1. split; [reflexivity|exact IH2].
    + pose proof (Hnone l true f now_l) as Hu.
      destruct (ledger_step l true f now_l) as [l1 u]. cbn [snd] in Hu. subst u.
      cbn [fold_left].
      match goal with |- context [process_loop count l1 ?bp1 now_l] =>
        destruct (IH l1 bp1) as [IH1 IH2]; [cbn in *; lia|];
        destruct (process_loop count l1 bp1 now_l) as [[events l2] bp2]
      end.
      cbn [fst snd forced blocks map app] in *. rewrite IH1. split; [reflexivity|exact IH2].
Qed.

(** X12: one pass of [process_receive_many] hands at most 16384 blocks to
    the ledger; the forced blocks go first, in the order in which they were
    forced, whatever the ledger queues meanwhile; and when the ledger
    queues no unchecked successors and at most 16384 blocks are waiting,
    the pass processes the forced blocks and then the queued blocks in
    arrival order, and leaves nothing behind. *)
Theorem process_receive_many_order (l : ledger) (bp : block_processor) (now_l : Z) :
  let events := fst (fst (process_receive_many l bp now_l)) in
  Z.of_nat (length events) <= 16384
  /\ (Z.of_nat (length (forced bp)) <= 16384 ->
      firstn (length (forced bp)) events = map (fun b => (b, true)) (forced bp))
  /\ ((forall l f b t, snd (ledger_step l f b t) = []) ->
      Z.of_nat (length (forced bp)) + Z.of_nat (length (blocks bp)) <= 16384 ->
      events = map (fun b => (b, true)) (forced bp)
               ++ map (fun i => (fst i, false)) (blocks bp)
      /\ have_blocks (snd (process_receive_many l bp now_l)) = false).
Proof.
  cbv zeta. unfold BlockProcessor.process_receive_many.
  assert (Hc : Z.of_nat (Z.to_nat 16384) = 16384) by (apply Z2Nat.id; lia).
  generalize dependent (Z.to_nat 16384). intros count Hc.
  split; [|split].
  - pose proof (process_loop_length count l bp now_l). lia.
  - intros Hf. rewrite process_loop_forced_first, firstn_all2 by lia. reflexivity.
  - intros Hnone Hlen. apply process_loop_drains; [exact Hnone | lia].
Qed.

End BlockProcessorExtras.

Section BlockProcessorExtrasWitness.

Import BlockProcessor BlockData.

Lemma process_receive_many_order_witness :
  let b12 := {| block_hash := 12; block_root := 10; block_work := 0 |} in
  let bp := force (add work_is_root empty b9 1) b12 in
  let events := fst (fst (process_receive_many work_is_root nat counting_step O bp 5)) in
  Z.of_nat (length events) <= 16384
  /\ (Z.of_nat (length (forced bp)) <= 16384 ->
      firstn (length (forced bp)) events = map (fun b => (b, true)) (forced bp))
  /\ events = [(b12, true); (b9, false)]
  /\ have_blocks (snd (process_receive_many work_is_root nat counting_step O bp 5)) = false.
Proof.
  intros b12 bp events.
  destruct (process_receive_many_order work_is_root nat counting_step O bp 5)
    as (H1 & H2 & H3).
  split; [exact H1|]. split; [exact H2|].
  apply H3; [reflexivity|]. vm_compute. discriminate.
Defined.

End BlockProcessorExtrasWitness.

(** * Further properties of the peer container *)

Section LegacyPeers.

Import Peers PeerSpec.
Local Open Scope N_scope.

Variable node_id_version : N.
Variable protocol_version_min : N.
Variable max_legacy_peers_per_ip : N.

Local Abbreviation insert :=
  (Peers.insert node_id_version protocol_version_min max_legacy_peers_per_ip).
Local Abbreviation reachable :=
  (Peers.reachable node_id_version protocol_version_min max_legacy_peers_per_ip).
Local Abbreviation is_legacy := (Peers.is_legacy_peer node_id_version).
Local Abbreviation legacy_count := (PeerSpec.legacy_count node_id_version).

Lemma legacy_count_empty : legacy_count ∅ = 0.
Proof. unfold PeerSpec.legacy_count. now rewrite map_filter_empty, map_size_empty. Qed.

Lemma legacy_count_insert (m : gmap endpoint peer_information) (k : endpoint)
      (p : peer_information) :
  m !! k = None ->
  legacy_count (<[k := p]> m)
  = if is_legacy p then legacy_count m + 1 else legacy_count m.
Proof.
  intros Hk. unfold PeerSpec.legacy_count.
  destruct (is_legacy p) eqn:Hp.
  - rewrite map_filter_insert_True by exact Hp.
    rewrite map_size_insert_None by (apply map_lookup_filter_None; left; exact Hk). lia.
  - rewrite map_filter_insert_False by (cbn; congruence).
    now rewrite delete_id.
Qed.

Lemma legacy_count_le (m1 m2 : gmap endpoint peer_information) :
  (forall k v, m1 !! k = Some v -> is_legacy v = true ->
               exists v', m2 !! k = Some v' /\ is_legacy v' = true) ->
  legacy_count m1 <= legacy_count m2.
Proof.
  intros H. unfold PeerSpec.legacy_count. apply N2Z.inj_le. rewrite !nat_N_Z.
  apply Nat2Z.inj_le. rewrite <- !(size_dom (D := gset endpoint)).
  apply subseteq_size. intros k Hk.
  apply elem_of_dom in Hk as [v Hv]. apply map_lookup_filter_Some in Hv as [Hv Hl].
  destruct (H k v Hv Hl) as (v' & Hv' & Hl').
  apply elem_of_dom. exists v'. apply map_lookup_filter_Some. auto.
Qed.

Lemma legacy_count_alter (f : peer_information -> peer_information) (k : endpoint)
      (m : gmap endpoint peer_information) :
  (forall p, network_version (f p) = network_version p) ->
  legacy_count (alter f k m) = legacy_count m.
Proof.
  intros Hf.
  assert (Hl : forall p, is_legacy (f p) = is_legacy p)
    by (intros p; unfold Peers.is_legacy_peer; now rewrite Hf).
  apply N.le_antisymm; apply legacy_count_le; intros k' v Hv Hleg.
  - apply lookup_alter_Some in Hv as [(-> & v0 & Hv0 & ->)|[Hne Hv]].
    + exists v0. rewrite Hl in Hleg. auto.
    + exists v. auto.
  - destruct (decide (k = k')) as [->|Hne].
    + exists (f v). rewrite lookup_alter_eq, Hv, Hl. auto.
    + exists v. rewrite lookup_alter_ne by exact Hne. auto.
Qed.

Lemma legacy_count_fmap (f : peer_information -> peer_information)
      (m : gmap endpoint peer_information) :
  (forall p, network_version (f p) = network_version p) ->
  legacy_count (f <$> m) = legacy_count m.
Proof.
  intros Hf.
  assert (Hl : forall p, is_legacy (f p) = is_legacy p)
    by (intros p; unfold Peers.is_legacy_peer; now rewrite Hf).
  apply N.le_antisymm; apply legacy_count_le; intros k v Hv Hleg.
  - apply lookup_fmap_Some in Hv as (v0 & <- & Hv0). exists v0. rewrite Hl in Hleg. auto.
  - exists (f v). rewrite lookup_fmap, Hv, Hl. auto.
Qed.

(** The peers on the two sides of the pivot of [purge_list]. *)
Lemma legacy_count_split (cutoff : Z) (m : gmap endpoint peer_information) :
  legacy_count m
  = legacy_count (filter (fun kv => before_pivot cutoff (last_contact (snd kv)) = false) m)
    + legacy_count (filter (fun kv => before_pivot cutoff (last_contact (snd kv)) = true) m).
Proof.
  induction m as [|k p m Hk IH] using map_ind.
  - rewrite !map_filter_empty, legacy_count_empty. reflexivity.
  - rewrite legacy_count_insert by exact Hk.
    destruct (before_pivot cutoff (last_contact p)) eqn:Hb.
    + rewrite (map_filter_insert_False (fun kv => before_pivot cutoff (last_contact (snd kv)) = false))
        by (cbn; congruence).
      rewrite (map_filter_insert_True (fun kv => before_pivot cutoff (last_contact (snd kv)) = true))
        by exact Hb.
      rewrite delete_id by exact Hk.
      rewrite legacy_count_insert by (apply map_lookup_filter_None; left; exact Hk).
      rewrite IH. destruct (is_legacy p); lia.
    + rewrite (map_filter_insert_True (fun kv => before_pivot cutoff (last_contact (snd kv)) = false))
        by exact Hb.
      rewrite (map_filter_insert_False (fun kv => before_pivot cutoff (last_contact (snd kv)) = true))
        by (cbn; congruence).
      rewrite delete_id by exact Hk.
      rewrite legacy_count_insert by (apply map_lookup_filter_None; left; exact Hk).
      rewrite IH. destruct (is_legacy p); lia.
Qed.

(** The counter after the loop of [purge_list]. *)
Lemma purge_list_counter (l : N) (m : gmap endpoint peer_information) :
  map_fold
    (fun _ (p : peer_information) (n : N) =>
       if is_legacy p then (if 0 <? n then n - 1 else n) else n) l m
  = l - legacy_count m.
Proof.
  apply (map_fold_weak_ind
           (fun (r : N) (m : gmap endpoint peer_information) => r = l - legacy_count m)).
  - rewrite legacy_count_empty. lia.
  - intros k p m' r Hk ->. rewrite legacy_count_insert by exact Hk.
    destruct (is_legacy p); [|reflexivity].
    destruct (N.ltb_spec 0 (l - legacy_count m')); lia.
Qed.

Lemma insert_legacy_bounded (network : chratos_networks) (pc : peer_container)
      (endpoint_a : endpoint) (version_a : N) (now_l : Z) :
  legacy_count (peers pc) <= legacy_peers pc <= max_legacy_peers ->
  let pc' := snd (fst (insert network pc endpoint_a version_a now_l)) in
  legacy_count (peers pc') <= legacy_peers pc' <= max_legacy_peers.
Proof.
  intros H. cbv zeta. unfold Peers.insert.
  destruct (negb (not_a_peer network pc endpoint_a false)); [|exact H].
  destruct (protocol_version_min <=? version_a); [|exact H].
  destruct (peers pc !! endpoint_a) eqn:Hk.
  { cbn [fst snd peers legacy_peers with_peers].
    rewrite legacy_count_alter by reflexivity. exact H. }
  assert (Hnew : is_legacy (peer_information_new endpoint_a version_a now_l)
                 = (version_a <? node_id_version)) by reflexivity.
  destruct (version_a <? node_id_version) eqn:Hleg;
    [destruct (N.ltb_spec (legacy_peers pc) max_legacy_peers)|];
    cbn [negb andb];
    repeat match goal with
           | |- context [if ?c then _ else _] => destruct c
           end;
    cbn [fst snd peers legacy_peers with_peers];
    rewrite ?legacy_count_insert, ?Hnew by exact Hk; lia.
Qed.

Lemma purge_syn_cookies_legacy (pc : peer_container) (cutoff : Z) :
  legacy_peers (purge_syn_cookies pc cutoff) = legacy_peers pc.
Proof.
  unfold purge_syn_cookies. destruct (map_fold _ _ _) as [c n]. reflexivity.
Qed.

(** X13: the container never holds more legacy peers (peers of a version
    below [node_id_version]) than its counter [legacy_peers] says, and the
    counter never exceeds [max_legacy_peers]: at most [max_legacy_peers]
    legacy peers are held at any time, on every network. *)
Theorem legacy_peers_bounded (network : chratos_networks) (pc : peer_container) :
  reachable network pc ->
  legacy_count (peers pc) <= legacy_peers pc /\ legacy_peers pc <= max_legacy_peers.
Proof.
  intros Hr.
  enough (legacy_count (peers pc) <= legacy_peers pc <= max_legacy_peers) by lia.
  induction Hr.
  - cbn [peer_container_new peers legacy_peers]. rewrite legacy_count_empty.
    unfold max_legacy_peers. lia.
  - now apply insert_legacy_bounded.
  - unfold contacted. destruct (version_a <? node_id_version).
    + cbn [snd]. now apply insert_legacy_bounded.
    + destruct (negb _ && _); assumption.
  - cbn [purge_list snd peers legacy_peers].
    rewrite purge_list_counter, legacy_count_fmap by reflexivity.
    pose proof (legacy_count_split cutoff (peers pc)). lia.
  - unfold rep_response. destruct (peers pc !! endpoint_a); [|assumption].
    cbn [snd peers legacy_peers with_peers]. now rewrite legacy_count_alter by reflexivity.
  - cbn [rep_request peers legacy_peers with_peers].
    now rewrite legacy_count_alter by reflexivity.
  - cbn [bootstrap_peer_at peers legacy_peers with_peers].
    now rewrite legacy_count_alter by reflexivity.
  - unfold reachout. destruct (negb _); assumption.
  - unfold assign_syn_cookie. destruct (_ <? _); [destruct (syn_cookies pc !! _)|];
      assumption.
  - unfold validate_syn_cookie. destruct (syn_cookies pc !! _); [|assumption].
    destruct (negb _); [|assumption]. destruct (_ <? _); assumption.
  - rewrite purge_syn_cookies_peers, purge_syn_cookies_legacy. assumption.
Qed.

End LegacyPeers.

Section CookieCount.

Import Peers PeerSpec.
Local Open Scope N_scope.

Variable node_id_version : N.
Variable protocol_version_min : N.
Variable max_legacy_peers_per_ip : N.

Local Abbreviation reachable :=
  (Peers.reachable node_id_version protocol_version_min max_legacy_peers_per_ip).

Lemma cookie_count_insert (ip : N) (c : gmap endpoint syn_cookie_info) (k : endpoint)
      (x : syn_cookie_info) :
  c !! k = None ->
  cookie_count ip (<[k := x]> c)
  = if decide (address k = ip) then cookie_count ip c + 1 else cookie_count ip c.
Proof.
  intros Hk. unfold cookie_count. destruct (decide (address k = ip)) as [Hip|Hip].
  - rewrite map_filter_insert_True by exact Hip.
    rewrite map_size_insert_None by (apply map_lookup_filter_None; left; exact Hk). lia.
  - rewrite map_filter_insert_False by exact Hip. now rewrite delete_id.
Qed.

Lemma cookie_count_delete (ip : N) (c : gmap endpoint syn_cookie_info) (k : endpoint)
      (x : syn_cookie_info) :
  c !! k = Some x ->
  cookie_count ip c
  = if decide (address k = ip) then cookie_count ip (delete k c) + 1
    else cookie_count ip (delete k c).
Proof.
  intros Hk. rewrite <- (insert_delete_id c k x Hk) at 1.
  apply cookie_count_insert, lookup_delete_eq.
Qed.

Lemma touch_default (ip ip' : N) (m : gmap N N) :
  default 0 (touch ip m !! ip') = default 0 (m !! ip').
Proof.
  unfold touch. destruct (decide (ip = ip')) as [->|Hne].
  - now rewrite lookup_insert_eq.
  - now rewrite lookup_insert_ne.
Qed.

Lemma decr32_pred (n : N) : 0 < n <= max_peers_per_ip -> decr32 n = n - 1.
Proof.
  unfold max_peers_per_ip. intros H. replace n with (n - 1 + 1) at 1 by lia.
  apply decr32_succ. unfold max_peers_per_ip. lia.
Qed.

(** Taking one cookie away, as [validate_syn_cookie] and
    [purge_syn_cookies] do. *)
Lemma cookies_counted_remove (c : gmap endpoint syn_cookie_info) (n : gmap N N)
      (k : endpoint) (x : syn_cookie_info) :
  cookies_counted c n -> c !! k = Some x ->
  let per_ip := touch (address k) n in
  let count := default 0 (per_ip !! address k) in
  cookies_counted (delete k c)
    (if 0 <? count then <[address k := decr32 count]> per_ip else per_ip).
Proof.
  intros H Hk per_ip count.
  assert (Hcount : count = cookie_count (address k) (delete k c) + 1
                   /\ count <= max_peers_per_ip).
  { subst count per_ip. rewrite touch_default.
    destruct (H (address k)) as [-> Hle]. split; [|exact Hle].
    rewrite (cookie_count_delete (address k) c k x Hk), decide_True by reflexivity.
    reflexivity. }
  destruct Hcount as [Hc Hle].
  destruct (N.ltb_spec 0 count) as [Hpos|Hz]; [|lia].
  intros ip. destruct (H ip) as [Hn Hcap].
  rewrite (cookie_count_delete ip c k x Hk) in Hn, Hcap.
  destruct (decide (address k = ip)) as [<-|Hne].
  - rewrite lookup_insert_eq. cbn [default from_option id].
    rewrite decr32_pred by lia. lia.
  - rewrite lookup_insert_ne by exact Hne. subst per_ip. rewrite touch_default. lia.
Qed.

Lemma purge_syn_cookies_counted (pc : peer_container) (cutoff : Z) :
  cookies_counted (syn_cookies pc) (syn_cookies_per_ip pc) ->
  cookies_counted (syn_cookies (purge_syn_cookies pc cutoff))
    (syn_cookies_per_ip (purge_syn_cookies pc cutoff)).
Proof.
  intros H0. unfold purge_syn_cookies.
  set (f := fun (ep : endpoint) (info : syn_cookie_info)
                (st : gmap endpoint syn_cookie_info * gmap N N) => _).
  assert (Hfold : forall m,
             m ⊆ syn_cookies pc ->
             cookies_counted (fst (map_fold f (syn_cookies pc, syn_cookies_per_ip pc) m))
               (snd (map_fold f (syn_cookies pc, syn_cookies_per_ip pc) m))
             /\ forall ep, m !! ep = None ->
                  fst (map_fold f (syn_cookies pc, syn_cookies_per_ip pc) m) !! ep
                  = syn_cookies pc !! ep).
  { intros m.
    apply (map_fold_weak_ind
             (fun (st : gmap endpoint syn_cookie_info * gmap N N)
                  (m : gmap endpoint syn_cookie_info) =>
                m ⊆ syn_cookies pc ->
                cookies_counted (fst st) (snd st)
                /\ forall ep, m !! ep = None -> fst st !! ep = syn_cookies pc !! ep)).
    - intros _. split; [exact H0 | reflexivity].
    - intros k x m' [c n] Hk IH Hsub.
      assert (Hx : syn_cookies pc !! k = Some x).
      { eapply lookup_weaken; [apply lookup_insert_eq | exact Hsub]. }
      destruct IH as [IH1 IH2].
      { etransitivity; [apply insert_subseteq, Hk | exact Hsub]. }
      cbn [fst snd] in IH1, IH2. subst f. cbv beta iota.
      destruct (created_at x <? cutoff)%Z.
      + cbn [fst snd]. split.
        * apply (cookies_counted_remove c n k x IH1). rewrite IH2 by exact Hk. exact Hx.
        * intros ep Hep. apply lookup_insert_None in Hep as [Hep Hne].
          rewrite lookup_delete_ne by exact Hne. apply IH2, Hep.
      + cbn [fst snd]. split; [exact IH1|].
        intros ep Hep. apply lookup_insert_None in Hep as [Hep Hne]. apply IH2, Hep. }
  destruct (Hfold (syn_cookies pc) (reflexivity _)) as [H _].
  destruct (map_fold f _ _) as [c n]. exact H.
Qed.

Lemma insert_cookies (network : chratos_networks) (pc : peer_container)
      (endpoint_a : endpoint) (version_a : N) (now_l : Z) :
  let pc' := snd (fst (Peers.insert node_id_version protocol_version_min
                         max_legacy_peers_per_ip network pc endpoint_a version_a now_l)) in
  syn_cookies pc' = syn_cookies pc /\ syn_cookies_per_ip pc' = syn_cookies_per_ip pc.
Proof.
  cbv zeta. unfold Peers.insert.
  repeat match goal with
         | |- context [if ?c then _ else _] => destruct c
         | |- context [match ?o with Some _ => _ | None => _ end] => destruct o
         end; split; reflexivity.
Qed.

Lemma assign_syn_cookie_counted (pc : peer_container) (endpoint_a : endpoint) (query : N)
      (now_l : Z) :
  cookies_counted (syn_cookies pc) (syn_cookies_per_ip pc) ->
  let pc' := snd (assign_syn_cookie pc endpoint_a query now_l) in
  cookies_counted (syn_cookies pc') (syn_cookies_per_ip pc').
Proof.
  intros H. cbv zeta. unfold assign_syn_cookie.
  assert (Ht : cookies_counted (syn_cookies pc)
                 (touch (address endpoint_a) (syn_cookies_per_ip pc))).
  { intros ip. rewrite touch_default. apply H. }
  rewrite touch_default.
  destruct (N.ltb_spec (default 0 (syn_cookies_per_ip pc !! address endpoint_a))
              max_peers_per_ip) as [Hlt|Hge]; [|exact Ht].
  destruct (syn_cookies pc !! endpoint_a) eqn:Hk; [exact Ht|].
  cbn [snd syn_cookies syn_cookies_per_ip with_cookies]. intros ip.
  destruct (H ip) as [Hn Hcap]. rewrite cookie_count_insert by exact Hk.
  destruct (decide (address endpoint_a = ip)) as [<-|Hne].
  - rewrite lookup_insert_eq. cbn [default from_option id].
    rewrite incr32_small by exact Hlt. lia.
  - rewrite lookup_insert_ne by exact Hne. rewrite touch_default. lia.
Qed.

Lemma validate_syn_cookie_counted (validate_message : N -> N -> N -> bool)
      (pc : peer_container) (endpoint_a : endpoint) (node_id sig : N) :
  cookies_counted (syn_cookies pc) (syn_cookies_per_ip pc) ->
  let pc' := snd (validate_syn_cookie validate_message pc endpoint_a node_id sig) in
  cookies_counted (syn_cookies pc') (syn_cookies_per_ip pc').
Proof.
  intros H. cbv zeta. unfold validate_syn_cookie.
  destruct (syn_cookies pc !! endpoint_a) as [x|] eqn:Hk; [|exact H].
  destruct (negb _); [|exact H].
  pose proof (cookies_counted_remove _ _ endpoint_a x H Hk) as Hr. cbv zeta in Hr.
  destruct (0 <? _); exact Hr.
Qed.

(** X14: in every state of the container the counter of an address in
    [syn_cookies_per_ip] is the number of cookies that are outstanding for
    endpoints of that address, and it is at most [max_peers_per_ip]:
    assigning, consuming and purging cookies keep the two in step. *)
Theorem syn_cookies_counted (network : chratos_networks) (pc : peer_container) (ip : N) :
  reachable network pc ->
  ip_cookies pc ip = cookie_count ip (syn_cookies pc)
  /\ cookie_count ip (syn_cookies pc) <= max_peers_per_ip.
Proof.
  intros Hr. revert ip. change (cookies_counted (syn_cookies pc) (syn_cookies_per_ip pc)).
  induction Hr.
  - intros ip. cbn [peer_container_new syn_cookies syn_cookies_per_ip].
    unfold cookie_count, max_peers_per_ip.
    rewrite lookup_empty, map_filter_empty, map_size_empty. cbn. lia.
  - destruct (insert_cookies network pc endpoint_a version_a now_l) as [-> ->]. exact IHHr.
  - unfold contacted. destruct (version_a <? node_id_version).
    + cbn [snd]. destruct (insert_cookies network pc endpoint_a version_a now_l) as [-> ->].
      exact IHHr.
    + destruct (negb _ && _); exact IHHr.
  - exact IHHr.
  - unfold rep_response. destruct (peers pc !! endpoint_a); exact IHHr.
  - exact IHHr.
  - exact IHHr.
  - unfold reachout. destruct (negb _); exact IHHr.
  - now apply assign_syn_cookie_counted.
  - now apply validate_syn_cookie_counted.
  - now apply purge_syn_cookies_counted.
Qed.

End CookieCount.

Section PeerOperations.

Import Peers PeerSpec.
Local Open Scope N_scope.

Variable node_id_version : N.
Variable protocol_version_min : N.
Variable max_legacy_peers_per_ip : N.

Local Abbreviation insert :=
  (Peers.insert node_id_version protocol_version_min max_legacy_peers_per_ip).

(** X15: a representative response never lowers the weight recorded for
    a peer.  [rep_response] reports an update exactly when the peer is known
    and the weight is strictly greater than the recorded one, and only then
    does it replace the weight and the probable representative; a response
    that is not heavier still stamps [last_rep_response].  No other peer is
    touched, and a response from an unknown endpoint changes nothing. *)
Theorem rep_response_keeps_heaviest (pc : peer_container) (endpoint_a : endpoint)
        (rep_account_a weight_a : N) (now_l : Z) :
  let r := rep_response pc endpoint_a rep_account_a weight_a now_l in
  (fst r = true <-> exists p, peers pc !! endpoint_a = Some p /\ rep_weight p < weight_a)
  /\ (forall p, peers pc !! endpoint_a = Some p ->
        exists p', peers (snd r) !! endpoint_a = Some p'
                   /\ rep_weight p' = N.max (rep_weight p) weight_a
                   /\ probable_rep_account p'
                      = (if rep_weight p <? weight_a then rep_account_a
                         else probable_rep_account p)
                   /\ last_rep_response p' = now_l)
  /\ (forall k, k <> endpoint_a -> peers (snd r) !! k = peers pc !! k)
  /\ (peers pc !! endpoint_a = None -> r = (false, pc)).
Proof.
  cbv zeta. unfold rep_response.
  destruct (peers pc !! endpoint_a) as [p|] eqn:Hp.
  - cbn [fst snd peers with_peers]. split; [|split; [|split]].
    + rewrite N.ltb_lt. split; [eauto|]. intros (p0 & Hp0 & Hlt). congruence.
    + intros p0 Hp0. injection Hp0 as <-. eexists.
      rewrite lookup_alter_eq, Hp. split; [reflexivity|].
      cbn [note_rep_response rep_weight probable_rep_account last_rep_response].
      destruct (N.ltb_spec (rep_weight p) weight_a); repeat split; lia.
    + intros k Hk. now rewrite lookup_alter_ne by congruence.
    + discriminate.
  - cbn [fst snd]. split; [|split; [|split]]; try reflexivity.
    + split; [discriminate|]. intros (p0 & Hp0 & _). discriminate.
    + intros p0 Hp0. discriminate.
Qed.


(** X17: [insert] calls the peer observer exactly when it stores a new
    peer: then the result is [false], the endpoint was unknown, and it is
    stored with its version and the time of the call.  In every other case
    no peer is added or removed.  An endpoint that is not a possible peer is
    rejected without any change, and a version below
    [protocol_version_min] is answered with [false] although nothing is
    stored. *)
Theorem insert_notifies_new_peers (network : chratos_networks) (pc : peer_container)
        (endpoint_a : endpoint) (version_a : N) (now_l : Z) :
  let r := insert network pc endpoint_a version_a now_l in
  let pc' := snd (fst r) in
  ((snd r = [endpoint_a] /\ fst (fst r) = false
    /\ peers pc !! endpoint_a = None
    /\ peers pc' = <[endpoint_a := peer_information_new endpoint_a version_a now_l]> (peers pc))
   \/ (snd r = [] /\ forall k, is_Some (peers pc' !! k) <-> is_Some (peers pc !! k)))
  /\ (not_a_peer network pc endpoint_a false = true -> r = (true, pc, []))
  /\ (not_a_peer network pc endpoint_a false = false ->
      version_a < protocol_version_min -> r = (false, pc, []))
  /\ (protocol_version_min <= version_a -> fst (fst r) = false ->
      known_peer pc' endpoint_a = true).
Proof.
  cbv zeta. unfold Peers.insert.
  destruct (not_a_peer network pc endpoint_a false) eqn:Hn; cbn [negb].
  { cbn [fst snd]. split; [right; split; [reflexivity|tauto]|].
    repeat split; try discriminate. }
  destruct (N.leb_spec protocol_version_min version_a) as [Hv|Hv].
  2:{ cbn [fst snd]. split; [right; split; [reflexivity|tauto]|].
      repeat split; try discriminate. lia. }
  destruct (peers pc !! endpoint_a) as [p|] eqn:Hp.
  { cbn [fst snd peers with_peers]. split.
    - right. split; [reflexivity|]. intros k. destruct (decide (k = endpoint_a)) as [->|Hk].
      + rewrite lookup_alter_eq, Hp. cbn. split; eauto.
      + now rewrite lookup_alter_ne by congruence.
    - repeat split; try discriminate. lia. }
  destruct (version_a <? node_id_version);
    [destruct (legacy_peers pc <? max_legacy_peers)|];
    cbn [negb andb];
    repeat match goal with
           | |- context [if ?c then _ else _] => destruct c
           end;
    cbn [negb fst snd peers with_peers];
    (split;
     [first [right; split; [reflexivity|tauto] | left; repeat split]|
      repeat split; try discriminate; try lia;
      intros _ _; unfold known_peer; cbn [peers with_peers];
      apply bool_decide_eq_true_2; rewrite lookup_insert_eq; eauto]).
Qed.

End PeerOperations.

Section ReservedAddresses.

Import Peers.
Local Open Scope N_scope.

Lemma between_true (bytes lo hi : N) : lo <= bytes <= hi -> between bytes lo hi = true.
Proof. intros H. unfold between. apply andb_true_iff. split; apply N.leb_le; lia. Qed.

Lemma between_false (bytes lo hi : N) : bytes < lo \/ hi < bytes -> between bytes lo hi = false.
Proof.
  intros H. unfold between. apply andb_false_iff.
  destruct H; [left | right]; apply N.leb_gt; lia.
Qed.

(** The bounds of the ranges, as numbers. *)
Ltac evaluate_bounds :=
  repeat match goal with
         | |- context [(?a ^ ?b)%N] =>
             let v := eval vm_compute in (a ^ b)%N in change (a ^ b)%N with v
         | H : context [(?a ^ ?b)%N] |- _ =>
             let v := eval vm_compute in (a ^ b)%N in change (a ^ b)%N with v in H
         end.

(** Each range is decided in its turn. *)
Ltac decide_ranges :=
  unfold reserved_address, mapped_from_v4_bytes, address; cbn [fst];
  evaluate_bounds;
  repeat first [rewrite between_false by lia | rewrite between_true by lia];
  repeat match goal with
         | |- context [(?a =? ?b)%N] => destruct (N.eqb_spec a b); [lia|]
         end;
  cbn [andb]; try reflexivity.

(** X18: what [reserved_address] says of the IPv4-mapped private and
    loopback addresses.  The private ranges 10.0.0.0/8, 172.16.0.0/12,
    192.168.0.0/16 and the shared range 100.64.0.0/10 are reserved on the
    live network and on no other; the loopback range 127.0.0.0/8 and the
    IPv6 loopback [::1] are reserved exactly when the caller asks for
    loopback addresses to be refused. *)
Theorem private_and_loopback_addresses (network : chratos_networks) (a port : N)
        (blacklist_loopback : bool) :
  ((0x0a000000 <= a <= 0x0affffff \/ 0xac100000 <= a <= 0xac1fffff
    \/ 0xc0a80000 <= a <= 0xc0a8ffff \/ 0x64400000 <= a <= 0x647fffff) ->
   reserved_address network (mapped_from_v4_bytes a, port) blacklist_loopback
   = is_live_network network)
  /\ (0x7f000000 <= a <= 0x7fffffff ->
      reserved_address network (mapped_from_v4_bytes a, port) blacklist_loopback
      = blacklist_loopback)
  /\ reserved_address network (1, port) blacklist_loopback = blacklist_loopback.
Proof.
  split; [|split].
  - intros [H|[H|[H|H]]]; destruct blacklist_loopback, network; decide_ranges.
  - intros H. destruct blacklist_loopback, network; decide_ranges.
  - destruct blacklist_loopback, network; reflexivity.
Qed.

(** X19: the IPv6 ranges that [reserved_address] knows end early.  Of the
    multicast block only [ff00::/16] is covered and of the unique local
    block only [fc00::] to [fd00:ffff:...]: the addresses from [fd01::] to
    [feff:ffff:...] and from [ff01::] on are not reserved on any network. *)
Theorem ipv6_ranges_end_early (network : chratos_networks) (a port : N)
        (blacklist_loopback : bool) :
  (0xfd01 * 2 ^ 112 <= a < 0xff00 * 2 ^ 112 \/ 0xff01 * 2 ^ 112 <= a < 2 ^ 128) ->
  reserved_address network (a, port) blacklist_loopback = false.
Proof.
  intros H. evaluate_bounds.
  destruct H as [H|H]; destruct blacklist_loopback, network; decide_ranges.
Qed.

End ReservedAddresses.

Section ReservedAddressesWitness.

Import Peers.
Local Open Scope N_scope.

Lemma private_and_loopback_addresses_witness :
  reserved_address chratos_live_network (mapped_from_v4_bytes 0x0a000001, 7075) false = true
  /\ reserved_address chratos_beta_network (mapped_from_v4_bytes 0x0a000001, 7075) false
     = false
  /\ reserved_address chratos_live_network (mapped_from_v4_bytes 0x7f000001, 7075) false
     = false.
Proof.
  split; [|split].
  - apply (proj1 (private_and_loopback_addresses chratos_live_network 0x0a000001 7075 false)).
    lia.
  - apply (proj1 (private_and_loopback_addresses chratos_beta_network 0x0a000001 7075 false)).
    lia.
  - apply (proj1 (proj2 (private_and_loopback_addresses chratos_live_network 0x7f000001
                           7075 false))).
    lia.
Defined.

Lemma ipv6_ranges_end_early_witness :
  reserved_address chratos_live_network (0xfd12 * 2 ^ 112 + 1, 7075) true = false
  /\ reserved_address chratos_live_network (0xff02 * 2 ^ 112 + 1, 7075) true = false.
Proof.
  split.
  - apply (ipv6_ranges_end_early chratos_live_network (0xfd12 * 2 ^ 112 + 1) 7075 true).
    left. vm_compute. split; [discriminate | reflexivity].
  - apply (ipv6_ranges_end_early chratos_live_network (0xff02 * 2 ^ 112 + 1) 7075 true).
    right. vm_compute. split; [discriminate | reflexivity].
Defined.

End ReservedAddressesWitness.

Section PeerExtrasWitness.

Import Peers PeerSpec PeerData.
Local Open Scope N_scope.

Lemma legacy_peers_bounded_witness :
  let pc := snd (fst (Peers.insert 12 7 5 chratos_live_network pc0 (public_endpoint 1) 9 0%Z)) in
  legacy_count 12 (peers pc) <= legacy_peers pc /\ legacy_peers pc <= max_legacy_peers.
Proof.
  apply (legacy_peers_bounded 12 7 5 chratos_live_network).
  apply Peers.reach_insert, Peers.reach_new.
Defined.

Lemma syn_cookies_counted_witness :
  let pc := snd (assign_syn_cookie pc0 (public_endpoint 1) 77 5%Z) in
  ip_cookies pc (address (public_endpoint 1))
  = cookie_count (address (public_endpoint 1)) (syn_cookies pc)
  /\ cookie_count (address (public_endpoint 1)) (syn_cookies pc) <= max_peers_per_ip.
Proof.
  apply (syn_cookies_counted 12 7 5 chratos_live_network).
  apply Peers.reach_assign_syn_cookie, Peers.reach_new.
Defined.

End PeerExtrasWitness.

(** * Further properties of the gap cache *)

Section GapCacheExtras.

Import Chratos GapCache GapData GapSpec.

Lemma vote_hash_step_voted (env : node_env) (account_a : Z) (gc : gap_cache)
      (alarms : list alarm) (hash : Z) :
  has_voted account_a gc hash ->
  vote_hash_step env account_a (gc, alarms) hash = (gc, alarms).
Proof.
  intros Hv. unfold vote_hash_step.
  destruct (blocks gc !! hash) as [existing|] eqn:He; [|reflexivity].
  specialize (Hv existing He).
  rewrite bool_decide_eq_false_2 by (intros Hn; apply Hn, Hv).
  replace ({[account_a]} ∪ voters existing) with (voters existing).
  2:{ symmetry. apply subseteq_union_1_L, singleton_subseteq_l, Hv. }
  destruct gc as [bs]. cbn [blocks] in *. f_equal. f_equal.
  destruct existing. cbn. apply insert_id, He.
Qed.

Lemma vote_hash_step_marks (env : node_env) (account_a : Z) (gc : gap_cache)
      (alarms : list alarm) (hash : Z) :
  let gc' := fst (vote_hash_step env account_a (gc, alarms) hash) in
  has_voted account_a gc' hash
  /\ (forall h, has_voted account_a gc h -> has_voted account_a gc' h)
  /\ (forall h info, blocks gc !! h = Some info ->
        exists info', blocks gc' !! h = Some info'
                      /\ arrival info' = arrival info /\ gi_hash info' = gi_hash info
                      /\ voters info ⊆ voters info')
  /\ (forall h, blocks gc !! h = None -> blocks gc' !! h = None).
Proof.
  cbv zeta. unfold vote_hash_step.
  destruct (blocks gc !! hash) as [existing|] eqn:He.
  2:{ cbn [fst]. split; [intros info Hi; congruence|].
      split; [auto|]. split; [|auto]. intros h info Hi. exists info. auto. }
  set (info1 := {| arrival := arrival existing; gi_hash := gi_hash existing;
                   voters := {[account_a]} ∪ voters existing |}).
  set (gc1 := {| blocks := <[hash := info1]> (blocks gc) |}).
  enough (Hgc1 :
            has_voted account_a gc1 hash
            /\ (forall h, has_voted account_a gc h -> has_voted account_a gc1 h)
            /\ (forall h info, blocks gc !! h = Some info ->
                  exists info', blocks gc1 !! h = Some info'
                                /\ arrival info' = arrival info
                                /\ gi_hash info' = gi_hash info
                                /\ voters info ⊆ voters info')
            /\ (forall h, blocks gc !! h = None -> blocks gc1 !! h = None))
    by (destruct (bool_decide _); [destruct (_ >? _)|]; exact Hgc1).
  subst gc1. unfold has_voted. cbn [blocks]. split; [|split; [|split]].
  - intros info Hi. rewrite lookup_insert_eq in Hi. injection Hi as <-.
    cbn [voters]. apply elem_of_union_l, elem_of_singleton. reflexivity.
  - intros h Hh info Hi. destruct (decide (hash = h)) as [<-|Hne].
    + rewrite lookup_insert_eq in Hi. injection Hi as <-.
      cbn [voters]. apply elem_of_union_l, elem_of_singleton. reflexivity.
    + rewrite lookup_insert_ne in Hi by exact Hne. apply (Hh info Hi).
  - intros h info Hi. destruct (decide (hash = h)) as [<-|Hne].
    + rewrite lookup_insert_eq. exists info1. rewrite He in Hi. injection Hi as <-.
      repeat split. cbn [voters]. apply union_subseteq_r.
    + rewrite lookup_insert_ne by exact Hne. exists info. auto.
  - intros h Hi. destruct (decide (hash = h)) as [<-|Hne]; [congruence|].
    now rewrite lookup_insert_ne.
Qed.

Lemma vote_fold_marks (env : node_env) (account_a : Z) (hashes : list Z) :
  forall (gc : gap_cache) (alarms : list alarm),
    let gc' := fst (fold_left (vote_hash_step env account_a) hashes (gc, alarms)) in
    (forall h, In h hashes \/ has_voted account_a gc h -> has_voted account_a gc' h)
    /\ (forall h info, blocks gc !! h = Some info ->
          exists info', blocks gc' !! h = Some info'
                        /\ arrival info' = arrival info /\ gi_hash info' = gi_hash info
                        /\ voters info ⊆ voters info')
    /\ (forall h, blocks gc !! h = None -> blocks gc' !! h = None).
Proof.
  induction hashes as [|hash rest IH]; intros gc alarms.
  - cbn [fold_left fst]. split; [intros h [[]|H]; exact H|].
    split; [|auto]. intros h info Hi. exists info. auto.
  - cbn [fold_left].
    destruct (vote_hash_step_marks env account_a gc alarms hash) as (H1 & H2 & H3 & H4).
    destruct (vote_hash_step env account_a (gc, alarms) hash) as [gc1 al1].
    cbn [fst] in *. destruct (IH gc1 al1) as (I1 & I2 & I3). cbv zeta in *.
    split; [|split].
    + intros h [[<-|Hin]|Hv]; apply I1; auto.
    + intros h info Hi. destruct (H3 h info Hi) as (info1 & Hi1 & Ha & Hg & Hs).
      destruct (I2 h info1 Hi1) as (info2 & Hi2 & Ha2 & Hg2 & Hs2).
      exists info2. repeat split; try congruence. etransitivity; eassumption.
    + intros h Hi. apply I3, H4, Hi.
Qed.

Lemma vote_fold_voted (env : node_env) (account_a : Z) (hashes : list Z)
      (gc : gap_cache) (alarms : list alarm) :
  (forall h, In h hashes -> has_voted account_a gc h) ->
  fold_left (vote_hash_step env account_a) hashes (gc, alarms) = (gc, alarms).
Proof.
  induction hashes as [|hash rest IH]; intros Hv; [reflexivity|].
  cbn [fold_left]. rewrite vote_hash_step_voted by (apply Hv; left; reflexivity).
  apply IH. intros h Hin. apply Hv. right. exact Hin.
Qed.

(** X20: the gap cache counts a voter once.  [vote] adds the account to
    the voters of every gap that the vote names, leaves the arrival times
    alone, and neither adds nor removes a gap; the same vote offered again
    changes nothing and schedules no bootstrap check, whatever the online
    stake has become meanwhile. *)
Theorem gap_vote_counted_once (env env' : node_env) (gc : gap_cache)
        (vote_a : Chratos.vote) :
  let gc' := fst (vote env gc vote_a) in
  vote env' gc' vote_a = (gc', [])
  /\ (forall h info, blocks gc !! h = Some info ->
        exists info', blocks gc' !! h = Some info'
                      /\ arrival info' = arrival info /\ gi_hash info' = gi_hash info
                      /\ voters info ⊆ voters info'
                      /\ (In h (map vote_block_hash (vote_blocks vote_a)) ->
                          account vote_a ∈ voters info'))
  /\ (forall h, blocks gc !! h = None -> blocks gc' !! h = None).
Proof.
  cbv zeta. unfold vote.
  destruct (vote_fold_marks env (account vote_a) (map vote_block_hash (vote_blocks vote_a))
              gc []) as (H1 & H2 & H3). cbv zeta in *.
  split; [|split].
  - apply vote_fold_voted. intros h Hin. apply H1. left. exact Hin.
  - intros h info Hi. destruct (H2 h info Hi) as (info' & Hi' & Ha & Hg & Hs).
    exists info'. repeat split; try assumption.
    intros Hin. apply (H1 h (or_introl Hin) info' Hi').
  - exact H3.
Qed.

End GapCacheExtras.

Section PurgeList.

Import Peers PeerSpec.
Local Open Scope N_scope.

Variable node_id_version : N.

(** X21: [purge_list] keeps the peers that were heard from at the cutoff
    or later and returns them as they were; in the container their
    [last_attempt] is stamped with the time of the call.  The keepalive
    attempts older than the cutoff are forgotten, so that [reachout]
    succeeds again for such an endpoint when it is a possible peer that is
    not known. *)
Theorem purge_list_forgets (pc : peer_container) (cutoff now_l : Z) :
  let r := purge_list node_id_version pc cutoff now_l in
  (forall k p', peers (snd r) !! k = Some p'
                <-> exists p, peers pc !! k = Some p /\ (cutoff <= last_contact p)%Z
                              /\ p' = set_last_attempt now_l p)
  /\ (forall p, In p (fst r)
                <-> exists k, peers pc !! k = Some p /\ (cutoff <= last_contact p)%Z)
  /\ (forall k t, attempts (snd r) !! k = Some t
                  <-> attempts pc !! k = Some t /\ (cutoff <= t)%Z)
  /\ (forall network endpoint_a t now_l',
         attempts pc !! endpoint_a = Some t -> (t < cutoff)%Z ->
         not_a_peer network pc endpoint_a false = false ->
         known_peer pc endpoint_a = false ->
         fst (reachout network (snd r) endpoint_a now_l') = false).
Proof.
  cbv zeta. cbn [purge_list fst snd peers attempts].
  assert (Hpivot : forall t, before_pivot cutoff t = false <-> (cutoff <= t)%Z).
  { intros t. unfold before_pivot. apply Z.ltb_ge. }
  split; [|split; [|split]].
  - intros k p'. rewrite lookup_fmap_Some. split.
    + intros (p & <- & Hp). apply map_lookup_filter_Some in Hp as [Hp Hc].
      exists p. cbn [snd] in Hc. rewrite Hpivot in Hc. auto.
    + intros (p & Hp & Hc & ->). exists p. split; [reflexivity|].
      apply map_lookup_filter_Some. split; [exact Hp|]. cbn [snd]. now apply Hpivot.
  - intros p. rewrite in_map_iff. split.
    + intros ([k p0] & <- & Hin). apply list_elem_of_In, elem_of_map_to_list in Hin.
      apply map_lookup_filter_Some in Hin as [Hp Hc]. cbn [snd] in *.
      exists k. rewrite Hpivot in Hc. auto.
    + intros (k & Hp & Hc). exists (k, p). split; [reflexivity|].
      apply list_elem_of_In, elem_of_map_to_list, map_lookup_filter_Some.
      split; [exact Hp|]. cbn [snd]. now apply Hpivot.
  - intros k t. rewrite map_lookup_filter_Some. cbn [snd]. now rewrite Hpivot.
  - intros network endpoint_a t now_l' Ht Hlt Hn Hk. unfold reachout.
    rewrite (not_a_peer_self network pc) by reflexivity. rewrite Hn. cbn [negb fst].
    apply orb_false_iff. split.
    + unfold known_peer in *. cbn [peers].
      apply bool_decide_eq_false_1 in Hk. apply bool_decide_eq_false_2.
      intros [p' Hp']. apply Hk. apply lookup_fmap_Some in Hp' as (p & _ & Hp).
      apply map_lookup_filter_Some in Hp as [Hp _]. eauto.
    + cbn [attempts]. apply bool_decide_eq_false_2. intros [t' Ht'].
      apply map_lookup_filter_Some in Ht' as [Ht' Hc]. cbn [snd] in Hc.
      rewrite Hpivot in Hc. rewrite Ht in Ht'. injection Ht' as <-. lia.
Qed.

End PurgeList.

Section PurgeListWitness.

Import Peers PeerSpec PeerData.
Local Open Scope N_scope.

Lemma purge_list_forgets_witness :
  let pc := snd (reachout chratos_live_network pc0 (public_endpoint 1) 5%Z) in
  fst (reachout chratos_live_network (snd (purge_list 12 pc 10%Z 20%Z))
         (public_endpoint 1) 21%Z) = false.
Proof.
  intros pc.
  apply (proj2 (proj2 (proj2 (purge_list_forgets 12 pc 10%Z 20%Z)))
           chratos_live_network (public_endpoint 1) 5%Z 21%Z).
  - vm_compute. reflexivity.
  - lia.
  - vm_compute. reflexivity.
  - vm_compute. reflexivity.
Defined.

End PurgeListWitness.

(** * Properties of the online representatives *)

Section OnlineRepsFacts.

Import OnlineReps.

Variable cutoff : Z.
Variable env : node_env.
Hypothesis weights : weights_in_range env.

Lemma stake_sum_insert (m : gmap Z Z) (k v : Z) :
  m !! k = None -> stake_sum env (<[k := v]> m) = stake_sum env m + ledger_weight env k.
Proof.
  intros Hk. unfold stake_sum. rewrite map_fold_insert_L; [reflexivity| |exact Hk].
  intros. lia.
Qed.

Lemma stake_sum_insert_Some (m : gmap Z Z) (k v v' : Z) :
  m !! k = Some v' -> stake_sum env (<[k := v]> m) = stake_sum env m.
Proof.
  intros Hk. rewrite <- (insert_delete_id m k v' Hk) at 2.
  rewrite <- insert_delete_eq.
  now rewrite !stake_sum_insert by apply lookup_delete_eq.
Qed.

Lemma stake_sum_nonneg (m : gmap Z Z) : 0 <= stake_sum env m.
Proof.
  induction m as [|k v m Hk IH] using map_ind.
  - unfold stake_sum. now rewrite map_fold_empty.
  - rewrite stake_sum_insert by exact Hk. pose proof (weights k). lia.
Qed.

Lemma stake_sum_split (now_l : Z) (m : gmap Z Z) :
  stake_sum env m
  = stake_sum env (filter (fun kv => expired cutoff now_l (snd kv) = false) m)
    + stake_sum env (filter (fun kv => expired cutoff now_l (snd kv) = true) m).
Proof.
  induction m as [|k v m Hk IH] using map_ind.
  - rewrite !map_filter_empty. unfold stake_sum. now rewrite map_fold_empty.
  - rewrite stake_sum_insert by exact Hk.
    destruct (expired cutoff now_l v) eqn:He.
    + rewrite (map_filter_insert_False (fun kv => expired cutoff now_l (snd kv) = false))
        by (cbn; congruence).
      rewrite (map_filter_insert_True (fun kv => expired cutoff now_l (snd kv) = true))
        by exact He.
      rewrite delete_id by exact Hk.
      rewrite stake_sum_insert by (apply map_lookup_filter_None; left; exact Hk). lia.
    + rewrite (map_filter_insert_True (fun kv => expired cutoff now_l (snd kv) = false))
        by exact He.
      rewrite (map_filter_insert_False (fun kv => expired cutoff now_l (snd kv) = true))
        by (cbn; congruence).
      rewrite delete_id by exact Hk.
      rewrite stake_sum_insert by (apply map_lookup_filter_None; left; exact Hk). lia.
Qed.

(** The underflow test makes the subtraction saturate at zero. *)
Lemma deduct_saturates (representative total : Z) :
  0 <= total < 2 ^ 128 ->
  deduct env representative total = Z.max 0 (total - ledger_weight env representative).
Proof.
  intros Ht. unfold deduct, wrap. pose proof (weights representative) as Hw.
  destruct (Z.le_gt_cases (ledger_weight env representative) total) as [Hle|Hgt].
  - rewrite Z.mod_small by lia. destruct (Z.gtb_spec (total - ledger_weight env representative) total); lia.
  - replace (total - ledger_weight env representative)
      with (total - ledger_weight env representative + 2 ^ 128 + (-1) * 2 ^ 128) by lia.
    rewrite Z.mod_add, Z.mod_small by lia.
    destruct (Z.gtb_spec (total - ledger_weight env representative + 2 ^ 128) total); lia.
Qed.

(** The overflow test makes the addition saturate at [2 ^ 128 - 1]. *)
Lemma credit_saturates (rep total : Z) :
  0 <= total < 2 ^ 128 ->
  credit env rep total = Z.min (2 ^ 128 - 1) (total + ledger_weight env rep).
Proof.
  intros Ht. unfold credit, wrap. pose proof (weights rep) as Hw.
  destruct (Z.lt_ge_cases (total + ledger_weight env rep) (2 ^ 128)) as [Hlt|Hge].
  - rewrite Z.mod_small by lia. destruct (Z.ltb_spec (total + ledger_weight env rep) total); lia.
  - replace (total + ledger_weight env rep)
      with (total + ledger_weight env rep - 2 ^ 128 + 1 * 2 ^ 128) by lia.
    rewrite Z.mod_add, Z.mod_small by lia.
    destruct (Z.ltb_spec (total + ledger_weight env rep - 2 ^ 128) total); lia.
Qed.

Lemma deduct_fold (total : Z) (m : gmap Z Z) :
  0 <= total < 2 ^ 128 ->
  map_fold (fun representative _ t => deduct env representative t) total m
  = Z.max 0 (total - stake_sum env m).
Proof.
  intros Ht.
  apply (map_fold_weak_ind
           (fun (r : Z) (m : gmap Z Z) => r = Z.max 0 (total - stake_sum env m))).
  - unfold stake_sum. rewrite map_fold_empty. lia.
  - intros k v m' r Hk ->. rewrite stake_sum_insert by exact Hk.
    pose proof (stake_sum_nonneg m'). pose proof (weights k).
    rewrite deduct_saturates by lia. lia.
Qed.

Lemma recalculate_fold (m : gmap Z Z) :
  map_fold (fun representative _ t => wrap 128 (t + ledger_weight env representative)) 0 m
  = wrap 128 (stake_sum env m).
Proof.
  apply (map_fold_weak_ind
           (fun (r : Z) (m : gmap Z Z) => r = wrap 128 (stake_sum env m))).
  - unfold stake_sum. rewrite map_fold_empty. reflexivity.
  - intros k v m' r Hk ->. rewrite stake_sum_insert by exact Hk. apply wrap_add_l.
Qed.

(** The set of representatives after [vote]. *)
Lemma vote_reps (o : online_reps) (rep : Z) :
  reps (vote cutoff env o rep)
  = <[rep := now env]> (filter (fun kv => expired cutoff (now env) (snd kv) = false) (reps o)).
Proof. unfold vote. destruct (_ !! rep); reflexivity. Qed.

(** The total after [vote]: what is left after the evicted weights are
    deducted, plus the weight of a voter that was not kept. *)
Lemma vote_stake_total (o : online_reps) (rep : Z) :
  0 <= online_stake_total o < 2 ^ 128 ->
  let kept := filter (fun kv => expired cutoff (now env) (snd kv) = false) (reps o) in
  let evicted := filter (fun kv => expired cutoff (now env) (snd kv) = true) (reps o) in
  let remaining := Z.max 0 (online_stake_total o - stake_sum env evicted) in
  online_stake_total (vote cutoff env o rep)
  = (if decide (is_Some (kept !! rep)) then remaining
     else Z.min (2 ^ 128 - 1) (remaining + ledger_weight env rep)).
Proof.
  intros Ht kept evicted remaining.
  assert (Hr : 0 <= remaining < 2 ^ 128).
  { subst remaining. pose proof (stake_sum_nonneg evicted). lia. }
  unfold vote. fold kept evicted. rewrite (deduct_fold _ _ Ht). fold remaining.
  destruct (kept !! rep) eqn:Hk; cbn [online_stake_total].
  - rewrite decide_True by eauto. reflexivity.
  - rewrite decide_False by (intros [x Hx]; discriminate).
    apply credit_saturates, Hr.
Qed.

(** X22: the sum [online_stake_total] never wraps around.  [vote]
    deducts the weights of the representatives it evicts, stopping at zero,
    and adds the weight of a voter that is new, stopping at [2 ^ 128 - 1];
    the representatives it keeps are those heard within the cutoff, and the
    voter, heard now. *)
Theorem online_stake_saturates (o : online_reps) (rep : Z) :
  0 <= online_stake_total o < 2 ^ 128 ->
  let kept := filter (fun kv => expired cutoff (now env) (snd kv) = false) (reps o) in
  let evicted := filter (fun kv => expired cutoff (now env) (snd kv) = true) (reps o) in
  let remaining := Z.max 0 (online_stake_total o - stake_sum env evicted) in
  reps (vote cutoff env o rep) = <[rep := now env]> kept
  /\ online_stake_total (vote cutoff env o rep)
     = (if decide (is_Some (kept !! rep)) then remaining
        else Z.min (2 ^ 128 - 1) (remaining + ledger_weight env rep))
  /\ 0 <= online_stake_total (vote cutoff env o rep) < 2 ^ 128.
Proof.
  intros Ht kept evicted remaining. split; [apply vote_reps|].
  assert (Hr : 0 <= remaining < 2 ^ 128).
  { subst remaining. pose proof (stake_sum_nonneg evicted). lia. }
  pose proof (vote_stake_total o rep Ht) as Hv. cbv zeta in Hv.
  fold kept evicted in Hv. fold remaining in Hv.
  split; [exact Hv|]. rewrite Hv. pose proof (weights rep).
  destruct (decide _); lia.
Qed.

(** X23: as long as the ledger weights stay as they are and their sum
    fits 128 bits, [online_stake_total] is the summed ledger weight of the
    representatives in [reps]: [vote] keeps the two equal, and
    [recalculate_stake] makes them equal. *)
Theorem online_stake_exact (o : online_reps) (rep : Z) :
  (online_stake_total o = stake_sum env (reps o) ->
   online_stake_total o < 2 ^ 128 ->
   stake_sum env (reps (vote cutoff env o rep)) < 2 ^ 128 ->
   online_stake_total (vote cutoff env o rep) = stake_sum env (reps (vote cutoff env o rep)))
  /\ (stake_sum env (reps o) < 2 ^ 128 ->
      online_stake_total (recalculate_stake env o) = stake_sum env (reps o)
      /\ reps (recalculate_stake env o) = reps o).
Proof.
  split.
  - intros Hex Hlt Hfit.
    assert (Ht : 0 <= online_stake_total o < 2 ^ 128).
    { rewrite Hex in *. pose proof (stake_sum_nonneg (reps o)). lia. }
    pose proof (vote_reps o rep) as Hreps.
    pose proof (vote_stake_total o rep Ht) as Htotal. cbv zeta in *.
    rewrite Htotal. rewrite Hreps in *.
    pose proof (stake_sum_split (now env) (reps o)) as Hsplit.
    set (kept := filter (fun kv => expired cutoff (now env) (snd kv) = false) (reps o)) in *.
    set (evicted := filter (fun kv => expired cutoff (now env) (snd kv) = true) (reps o)) in *.
    pose proof (stake_sum_nonneg kept). pose proof (stake_sum_nonneg evicted).
    destruct (kept !! rep) as [t|] eqn:Hk.
    + rewrite decide_True by eauto. rewrite (stake_sum_insert_Some kept rep _ t Hk). lia.
    + rewrite decide_False by (intros [x Hx]; discriminate).
      rewrite stake_sum_insert in * by exact Hk. lia.
  - intros Hfit. cbn [recalculate_stake online_stake_total reps]. split; [|reflexivity].
    rewrite recalculate_fold. unfold wrap. apply Z.mod_small.
    pose proof (stake_sum_nonneg (reps o)). lia.
Qed.

End OnlineRepsFacts.

Section OnlineRepsWitness.

Import OnlineReps OnlineData.

Lemma env_online_weights (t : Z) : weights_in_range (env_online t).
Proof.
  intros representative. cbn [ledger_weight env_online].
  destruct (representative =? 5); [lia|].
  destruct (representative =? 6); [lia|].
  destruct (representative =? 7); lia.
Qed.

Lemma online_stake_saturates_witness :
  let env := env_online 400 in
  let kept := filter (fun kv => expired 300 (now env) (snd kv) = false) (reps o56) in
  let evicted := filter (fun kv => expired 300 (now env) (snd kv) = true) (reps o56) in
  let remaining := Z.max 0 (online_stake_total o56 - stake_sum env evicted) in
  reps (vote 300 env o56 7) = <[7 := now env]> kept
  /\ online_stake_total (vote 300 env o56 7)
     = (if decide (is_Some (kept !! 7)) then remaining
        else Z.min (2 ^ 128 - 1) (remaining + ledger_weight env 7))
  /\ 0 <= online_stake_total (vote 300 env o56 7) < 2 ^ 128.
Proof.
  apply (online_stake_saturates 300 (env_online 400) (env_online_weights 400) o56 7).
  cbn. lia.
Defined.

Lemma online_stake_exact_witness :
  online_stake_total (vote 300 (env_online 400) o56 7)
  = stake_sum (env_online 400) (reps (vote 300 (env_online 400) o56 7))
  /\ online_stake_total (recalculate_stake (env_online 400) o56)
     = stake_sum (env_online 400) (reps o56).
Proof.
  destruct (online_stake_exact 300 (env_online 400) (env_online_weights 400) o56 7)
    as [H1 H2].
  split.
  - apply H1; vm_compute; reflexivity.
  - apply H2. vm_compute. reflexivity.
Defined.

Example online_vote_evicts :
  online_stake_total (vote 300 (env_online 400) o56 7) = 70
  /\ reps (vote 300 (env_online 400) o56 7) = {[ 6 := seconds 400; 7 := seconds 400 ]}.
Proof. split; vm_compute; reflexivity. Qed.

End OnlineRepsWitness.

(** * Properties of block arrival *)

Section BlockArrivalFacts.

Import BlockArrival.

Variable arrival_size_min : Z.
Variable arrival_time_min : Z.

Local Abbreviation evict := (BlockArrival.evict arrival_size_min arrival_time_min).
Local Abbreviation recent := (BlockArrival.recent arrival_size_min arrival_time_min).

Lemma known_In (ba : block_arrival) (hash_a : Z) :
  known ba hash_a = true <-> exists t, In {| arrival := t; hash := hash_a |} ba.
Proof.
  unfold known. rewrite existsb_exists. split.
  - intros ([t h] & Hin & Hh). cbn in Hh. apply Z.eqb_eq in Hh. subst h. eauto.
  - intros (t & Hin). eexists. split; [exact Hin|]. cbn. apply Z.eqb_refl.
Qed.

Lemma insert_by_arrival_In (item x : block_arrival_info) (ba : block_arrival) :
  In x (insert_by_arrival item ba) <-> x = item \/ In x ba.
Proof.
  induction ba as [|y ba IH]; cbn [insert_by_arrival].
  - cbn. intuition.
  - destruct (arrival item <? arrival y); cbn [In]; [intuition|].
    rewrite IH. intuition.
Qed.

Lemma insert_by_arrival_length (item : block_arrival_info) (ba : block_arrival) :
  length (insert_by_arrival item ba) = S (length ba).
Proof.
  induction ba as [|y ba IH]; cbn [insert_by_arrival]; [reflexivity|].
  destruct (arrival item <? arrival y); cbn [length]; [reflexivity|]. now rewrite IH.
Qed.

Lemma insert_by_arrival_hashes (item : block_arrival_info) (ba : block_arrival) :
  NoDup (map hash ba) -> ~ In (hash item) (map hash ba) ->
  NoDup (map hash (insert_by_arrival item ba)).
Proof.
  induction ba as [|y ba IH]; cbn [insert_by_arrival map]; intros Hnd Hnew.
  - apply NoDup_singleton.
  - destruct (arrival item <? arrival y); cbn [map].
    + apply NoDup_cons. split; [rewrite list_elem_of_In; exact Hnew | exact Hnd].
    + apply NoDup_cons in Hnd as [Hy Hnd]. rewrite list_elem_of_In in Hy.
      apply NoDup_cons. split.
      * rewrite list_elem_of_In, in_map_iff. intros (x & Hx & Hin).
        apply insert_by_arrival_In in Hin.
        destruct Hin as [->|Hin]; [apply Hnew; left; congruence|].
        apply Hy. rewrite in_map_iff. eauto.
      * apply IH; [exact Hnd|]. intros Hin. apply Hnew. right. exact Hin.
Qed.

Lemma evict_suffix (now_l : Z) (ba : block_arrival) :
  exists dropped, ba = dropped ++ evict now_l ba
    /\ Forall (fun x => arrival x + seconds arrival_time_min < now_l) dropped.
Proof.
  induction ba as [|x ba IH]; [exists []; split; [reflexivity|constructor]|].
  cbn [BlockArrival.evict].
  destruct (Z.of_nat (length (x :: ba)) >? arrival_size_min); cbn [andb];
    [|exists []; split; [reflexivity|constructor]].
  destruct (Z.ltb_spec (arrival x + seconds arrival_time_min) now_l) as [Hold|Hyoung];
    [|exists []; split; [reflexivity|constructor]].
  destruct IH as (dropped & Heq & Hall). exists (x :: dropped).
  split; [cbn [app]; congruence | constructor; assumption].
Qed.

Lemma evict_length (now_l : Z) (ba : block_arrival) :
  Z.min (Z.of_nat (length ba)) arrival_size_min <= Z.of_nat (length (evict now_l ba)).
Proof.
  induction ba as [|x ba IH]; [cbn; lia|].
  cbn [BlockArrival.evict].
  destruct (Z.gtb_spec (Z.of_nat (length (x :: ba))) arrival_size_min) as [Hgt|Hle];
    cbn [andb]; [|lia].
  destruct (arrival x + seconds arrival_time_min <? now_l); [|lia].
  cbn [length] in *. lia.
Qed.

Lemma evict_keeps_young (now_l : Z) (ba : block_arrival) (x : block_arrival_info) :
  In x ba -> now_l <= arrival x + seconds arrival_time_min -> In x (evict now_l ba).
Proof.
  intros Hin Hyoung. destruct (evict_suffix now_l ba) as (dropped & Heq & Hall).
  rewrite Heq in Hin. apply in_app_iff in Hin as [Hin|Hin]; [|exact Hin].
  rewrite Forall_forall in Hall. apply list_elem_of_In in Hin.
  specialize (Hall x Hin). cbv beta in Hall. lia.
Qed.

(** X24: [block_arrival] remembers a hash with the time of its first
    arrival.  [add] reports [true] exactly when the hash is there already and
    then changes nothing, not even the time; otherwise it stores the hash
    with the time of the call, and no hash is ever stored twice.  [recent]
    drops a run of the oldest entries, all of them older than
    [arrival_time_min], and never goes below [arrival_size_min] entries; a
    hash that arrived less than [arrival_time_min] ago is therefore
    reported as recent. *)
Theorem block_arrival_remembers :
  (forall ba hash_a now_l,
      (fst (add ba hash_a now_l) = true <-> known ba hash_a = true)
      /\ (known ba hash_a = true -> snd (add ba hash_a now_l) = ba)
      /\ (known ba hash_a = false ->
          forall x, In x (snd (add ba hash_a now_l))
                    <-> x = {| arrival := now_l; hash := hash_a |} \/ In x ba)
      /\ (NoDup (map hash ba) -> NoDup (map hash (snd (add ba hash_a now_l)))))
  /\ (forall ba hash_a now_l,
         (exists dropped,
             ba = dropped ++ snd (recent ba hash_a now_l)
             /\ Forall (fun x => arrival x + seconds arrival_time_min < now_l) dropped)
         /\ Z.min (Z.of_nat (length ba)) arrival_size_min
            <= Z.of_nat (length (snd (recent ba hash_a now_l)))
         /\ fst (recent ba hash_a now_l) = known (snd (recent ba hash_a now_l)) hash_a)
  /\ (forall ba hash_a t now_l,
         In {| arrival := t; hash := hash_a |} ba ->
         now_l <= t + seconds arrival_time_min ->
         fst (recent ba hash_a now_l) = true).
Proof.
  split; [|split].
  - intros ba hash_a now_l. unfold add.
    destruct (known ba hash_a) eqn:Hk; cbn [fst snd].
    + repeat split; try tauto; try discriminate.
    + split; [split; intros H; discriminate H|]. split; [discriminate|].
      split; [intros _ x; apply insert_by_arrival_In|].
      intros Hnd. apply insert_by_arrival_hashes; [exact Hnd|]. cbn [hash].
      rewrite in_map_iff. intros ([t h] & Hh & Hin). cbn in Hh. subst h.
      assert (known ba hash_a = true) by (apply known_In; eauto). congruence.
  - intros ba hash_a now_l. unfold BlockArrival.recent. cbn [fst snd].
    split; [apply evict_suffix|]. split; [apply evict_length | reflexivity].
  - intros ba hash_a t now_l Hin Hyoung. unfold BlockArrival.recent. cbn [fst].
    apply known_In. exists t. apply evict_keeps_young; [exact Hin | exact Hyoung].
Qed.

End BlockArrivalFacts.

Section ProcessActive.

Import BlockArrival BlockProcessor.

Variable work_validate : Z -> Z -> bool.


End ProcessActive.

Section BlockArrivalWitness.

Import BlockArrival BlockProcessor BlockData.

Lemma block_arrival_remembers_witness :
  let ba := snd (BlockArrival.add [] 11 (seconds 10)) in
  snd (BlockArrival.add ba 11 (seconds 20)) = ba
  /\ (forall x, In x (snd (BlockArrival.add ba 12 (seconds 20)))
                <-> x = {| arrival := seconds 20; hash := 12 |} \/ In x ba)
  /\ NoDup (map hash (snd (BlockArrival.add ba 12 (seconds 20))))
  /\ fst (recent 0 300 ba 11 (seconds 310)) = true.
Proof.
  intros ba. destruct (block_arrival_remembers 0 300) as (H1 & H2 & H3).
  destruct (H1 ba 11 (seconds 20)) as (_ & Ha & _).
  destruct (H1 ba 12 (seconds 20)) as (_ & _ & Hb & Hc).
  split; [apply Ha; reflexivity|]. split; [apply Hb; reflexivity|]. split.
  - apply Hc. apply NoDup_singleton.
  - apply (H3 ba 11 (seconds 10) (seconds 310)); [left; reflexivity|].
    unfold seconds. lia.
Defined.


End BlockArrivalWitness.

(** * Properties of the other unions *)

Section UnionFacts.

(** The loop of [number ()] for a union of [w] bits. *)
Lemma number_fold_width (w : Z) (l : list byte) :
  0 <= w -> 8 * Z.of_nat (length l) <= w ->
  fold_left
    (fun (st : Z * Z) (i : byte) =>
       let '(result, shift) := st in
       (Z.lor (wrap w (Z.shiftl result shift)) (byte_val i), 8))
    l (0, 0)
  = (le_value 256 (rev l), match l with [] => 0 | _ => 8 end).
Proof.
  intros Hw.
  induction l as [|b l IH] using rev_ind; intros Hlen; [reflexivity|].
  rewrite length_app in Hlen. cbn [length] in Hlen.
  rewrite fold_left_app, IH by lia. cbn [fold_left].
  rewrite rev_app_distr. cbn [rev app le_value].
  pose proof (byte_val_range b) as Hb.
  assert (Hv := le_value_bound 8 ltac:(lia) ltac:(lia) (rev l) (bytes_small _)).
  rewrite length_rev in Hv. change (2 ^ 8) with 256 in Hv.
  replace (match l ++ [b] with [] => 0 | _ => 8 end) with 8 by (now destruct l).
  f_equal. destruct l as [|c l'].
  - cbn [rev le_value]. rewrite Z.shiftl_0_l. unfold wrap.
    rewrite Z.mod_0_l by (apply Z.pow_nonzero; lia).
    rewrite Z.lor_0_l. lia.
  - set (v := le_value 256 (rev (c :: l'))) in *.
    set (n := Z.of_nat (length (c :: l'))) in *.
    rewrite Z.shiftl_mul_pow2 by lia. unfold wrap.
    assert (Hn : 0 <= n) by (subst n; lia).
    assert (Hpow : 256 ^ n * 2 ^ 8 <= 2 ^ w).
    { change 256 with (2 ^ 8). rewrite <- Z.pow_mul_r, <- Z.pow_add_r by lia.
      apply Z.pow_le_mono_r; lia. }
    rewrite Z.mod_small by nia.
    rewrite lor_shifted_low by lia. lia.
Qed.

(** X26: for the 128-bit and the 512-bit union, too, the constructor from
    a number and [number ()] are inverse to each other, and the 128-bit
    comparison operators compare the numbers that the bytes spell. *)
Theorem union_number_round_trip :
  (forall x, 0 <= x < 2 ^ 128 ->
     length (Uint128.bytes (Uint128.of_number x)) = 16%nat
     /\ Uint128.number (Uint128.of_number x) = x)
  /\ (forall u, length (Uint128.bytes u) = 16%nat ->
        0 <= Uint128.number u < 2 ^ 128 /\ Uint128.of_number (Uint128.number u) = u)
  /\ (forall x, 0 <= x < 2 ^ 512 ->
        length (Uint512.bytes (Uint512.of_number x)) = 64%nat
        /\ Uint512.number (Uint512.of_number x) = x)
  /\ (forall u, length (Uint512.bytes u) = 64%nat ->
        0 <= Uint512.number u < 2 ^ 512 /\ Uint512.of_number (Uint512.number u) = u)
  /\ (forall x y, 0 <= x < 2 ^ 128 -> 0 <= y < 2 ^ 128 ->
        Uint128.lt (Uint128.of_number x) (Uint128.of_number y) = (x <? y)
        /\ Uint128.gt (Uint128.of_number x) (Uint128.of_number y) = (x >? y)
        /\ Uint128.is_zero (Uint128.of_number x) = (x =? 0)).
Proof.
  assert (H128 : forall x, 0 <= x < 2 ^ 128 ->
             length (Uint128.bytes (Uint128.of_number x)) = 16%nat
             /\ Uint128.number (Uint128.of_number x) = x).
  { intros x Hx. unfold Uint128.number, Uint128.of_number. cbn [Uint128.bytes].
    rewrite length_rev, fill_rbegin_digits, length_le_digits. split; [reflexivity|].
    rewrite number_fold_width; [| lia | rewrite ?length_rev, ?length_le_digits; lia].
    cbn [fst]. rewrite rev_involutive. change 256 with (2 ^ 8).
    rewrite (le_value_digits 8) by lia. apply Z.mod_small.
    change ((2 ^ 8) ^ Z.of_nat 16) with (2 ^ 128). lia. }
  assert (B128 : forall u, length (Uint128.bytes u) = 16%nat ->
             0 <= Uint128.number u < 2 ^ 128
             /\ Uint128.of_number (Uint128.number u) = u).
  { intros [bs] Hu. cbn [Uint128.bytes] in Hu. unfold Uint128.number, Uint128.of_number.
    cbn [Uint128.bytes]. rewrite number_fold_width by lia. cbn [fst].
    assert (Hv := le_value_bound 8 ltac:(lia) ltac:(lia) (rev bs) (bytes_small _)).
    rewrite length_rev, Hu in Hv. change (2 ^ 8) with 256 in Hv.
    split; [exact Hv|]. f_equal. rewrite fill_rbegin_digits.
    rewrite <- Hu, <- (length_rev bs). change 256 with (2 ^ 8).
    rewrite (le_digits_value 8) by (lia || apply bytes_small).
    apply rev_involutive. }
  split; [exact H128|]. split; [exact B128|]. split; [|split].
  - intros x Hx. unfold Uint512.number, Uint512.of_number. cbn [Uint512.bytes].
    rewrite length_rev, fill_rbegin_digits, length_le_digits. split; [reflexivity|].
    rewrite number_fold_width by (rewrite ?length_rev, ?length_le_digits; lia).
    cbn [fst]. rewrite rev_involutive. change 256 with (2 ^ 8).
    rewrite (le_value_digits 8) by lia. apply Z.mod_small.
    change ((2 ^ 8) ^ Z.of_nat 64) with (2 ^ 512). lia.
  - intros [bs] Hu. cbn [Uint512.bytes] in Hu. unfold Uint512.number, Uint512.of_number.
    cbn [Uint512.bytes]. rewrite number_fold_width by lia. cbn [fst].
    assert (Hv := le_value_bound 8 ltac:(lia) ltac:(lia) (rev bs) (bytes_small _)).
    rewrite length_rev, Hu in Hv. change (2 ^ 8) with 256 in Hv.
    split; [exact Hv|]. f_equal. rewrite fill_rbegin_digits.
    rewrite <- Hu, <- (length_rev bs). change 256 with (2 ^ 8).
    rewrite (le_digits_value 8) by (lia || apply bytes_small).
    apply rev_involutive.
  - intros x y Hx Hy. unfold Uint128.lt, Uint128.gt.
    rewrite (proj2 (H128 x Hx)), (proj2 (H128 y Hy)). split; [reflexivity|].
    split; [reflexivity|].
    unfold Uint128.is_zero. cbn [Uint128.of_number Uint128.bytes].
    rewrite fill_rbegin_digits.
    destruct (Z.eqb_spec x 0) as [->|Hne]; [reflexivity|].
    apply not_true_is_false. intros Hall. apply Hne.
    rewrite forallb_forall in Hall.
    rewrite <- (Z.mod_small x ((2 ^ 8) ^ Z.of_nat 16))
      by (change ((2 ^ 8) ^ Z.of_nat 16) with (2 ^ 128); lia).
    rewrite <- (le_value_digits 8) by lia.
    assert (Hz : forall l, (forall b, In b l -> (byte_val b =? 0) = true) ->
                           le_value (2 ^ 8) l = 0).
    { induction l as [|b l IH]; intros Hl; [reflexivity|]. cbn [le_value].
      rewrite IH by (intros b' Hb'; apply Hl; right; exact Hb').
      specialize (Hl b (or_introl eq_refl)). apply Z.eqb_eq in Hl. lia. }
    apply Hz. intros b Hb. apply Hall. apply in_rev in Hb. exact Hb.
Qed.

Lemma union_number_round_trip_witness :
  Uint128.number (Uint128.of_number 1000000) = 1000000
  /\ Uint128.of_number (Uint128.number (Uint128.of_number 7)) = Uint128.of_number 7
  /\ Uint512.number (Uint512.of_number (2 ^ 300)) = 2 ^ 300
  /\ Uint512.of_number (Uint512.number (Uint512.of_number 7)) = Uint512.of_number 7
  /\ Uint128.lt (Uint128.of_number 3) (Uint128.of_number 5) = (3 <? 5).
Proof.
  destruct union_number_round_trip as (H1 & H2 & H3 & H4 & H5).
  split; [apply (H1 1000000); lia|].
  split; [apply (H2 (Uint128.of_number 7)); reflexivity|].
  split; [apply (H3 (2 ^ 300)); lia|].
  split; [apply (H4 (Uint512.of_number 7)); reflexivity|].
  apply (H5 3 5); lia.
Defined.

End UnionFacts.

(** * Properties of the formatting of amounts *)

Section FormatFacts.

Import Format.

Lemma pow10_pos (k : nat) : 0 < 10 ^ Z.of_nat k.
Proof. apply Z.pow_pos_nonneg; lia. Qed.

Lemma pow10_succ (k : nat) : 10 ^ Z.of_nat (S k) = 10 * 10 ^ Z.of_nat k.
Proof. rewrite Nat2Z.inj_succ, Z.pow_succ_r by lia. reflexivity. Qed.

(** A power of ten below [2 ^ 128] has an exponent of at most 38. *)
Lemma pow10_fits (k : nat) : 10 ^ Z.of_nat k < 2 ^ 128 -> (k <= 38)%nat.
Proof.
  intros H. destruct (Nat.le_gt_cases k 38) as [Hle|Hgt]; [exact Hle|]. exfalso.
  assert (10 ^ 39 <= 10 ^ Z.of_nat k) by (apply Z.pow_le_mono_r; lia).
  assert (2 ^ 128 < 10 ^ 39) by (vm_compute; reflexivity). lia.
Qed.

Lemma pow10_small (k : nat) : (k <= 39)%nat -> 10 ^ Z.of_nat k < 2 ^ 256.
Proof.
  intros H. assert (10 ^ Z.of_nat k <= 10 ^ 39) by (apply Z.pow_le_mono_r; lia).
  assert (10 ^ 39 < 2 ^ 256) by (vm_compute; reflexivity). lia.
Qed.

Lemma digit_char_code (d : Z) : 0 <= d <= 9 -> char_code (digit_char d) = 48 + d.
Proof.
  intros Hd. unfold char_code, digit_char. rewrite N_ascii_embedding by lia. lia.
Qed.

Lemma print_number_digit (d : Z) : 0 <= d <= 9 -> print_number d = [digit_char d].
Proof.
  intros Hd. unfold print_number. cbn [decimal_digits].
  destruct (Z.ltb_spec d 10); [reflexivity | lia].
Qed.

Lemma digits_number_shift (s : list ascii) (a : Z) :
  fold_left (fun a c => a * 10 + (char_code c - 48)) s a
  = a * 10 ^ Z.of_nat (length s) + digits_number s.
Proof.
  unfold digits_number. revert a. induction s as [|c s IH]; intros a.
  - cbn. lia.
  - cbn [fold_left length]. rewrite IH, (IH (0 * 10 + _)), pow10_succ. ring.
Qed.

Lemma digits_number_cons (c : ascii) (s : list ascii) :
  digits_number (c :: s)
  = (char_code c - 48) * 10 ^ Z.of_nat (length s) + digits_number s.
Proof. unfold digits_number at 1. cbn [fold_left]. rewrite digits_number_shift. ring. Qed.

(** The first loop of [format_dec] finds the number of digits. *)
Lemma largest_pow10_spec (value : Z) :
  0 <= value < 2 ^ 128 ->
  forall (fuel j : nat),
    (j = O \/ 10 ^ Z.of_nat j <= value) -> (39 <= j + fuel)%nat ->
    exists k : nat,
      largest_pow10 fuel value (10 ^ Z.of_nat j) (Z.of_nat j + 1)
      = Some (10 ^ Z.of_nat k, Z.of_nat k + 1)
      /\ (k <= 38)%nat /\ (k = O \/ 10 ^ Z.of_nat k <= value)
      /\ value < 10 ^ Z.of_nat (S k).
Proof.
  intros Hv. induction fuel as [|fuel IH]; intros j Hj Hfuel.
  - exfalso. destruct Hj as [->|Hj]; [lia|].
    assert (j <= 38)%nat by (apply pow10_fits; lia). lia.
  - assert (Hj38 : (j <= 38)%nat).
    { destruct Hj as [->|Hj]; [lia|]. apply pow10_fits. lia. }
    cbn [largest_pow10]. unfold wrap.
    replace (10 ^ Z.of_nat j * 10) with (10 ^ Z.of_nat (S j)) by (rewrite pow10_succ; ring).
    pose proof (pow10_pos (S j)). pose proof (pow10_small (S j) ltac:(lia)).
    rewrite Z.mod_small by lia.
    destruct (Z.gtb_spec (10 ^ Z.of_nat (S j)) value) as [Hgt|Hle].
    + exists j. repeat split; first [assumption | lia].
    + destruct (IH (S j)) as (k & Hk); [right; exact Hle | lia|].
      exists k. replace (Z.of_nat j + 1 + 1) with (Z.of_nat (S j) + 1) by lia. exact Hk.
Qed.

(** The last loop of [format_dec], without separators: the digits of
    [rem], most significant first. *)
Lemma emit_digits_plain (k : nat) :
  forall (fuel : nat) (rem dec_count : Z) (emit_group : list bool),
    0 <= rem < 10 ^ Z.of_nat (S k) -> rem < 2 ^ 128 ->
    10 ^ Z.of_nat k < 2 ^ 128 -> (k + 2 <= fuel)%nat ->
    exists s,
      emit_digits fuel (10 ^ Z.of_nat k) rem dec_count zero emit_group = Some s
      /\ length s = S k /\ Forall is_digit s /\ digits_number s = rem.
Proof.
  induction k as [|k IH]; intros fuel rem dec_count emit_group Hrem H128 Hred Hfuel.
  - destruct fuel as [|[|fuel]]; try lia. change (10 ^ Z.of_nat 0) with 1 in *.
    change (10 ^ Z.of_nat 1) with 10 in Hrem.
    cbn [emit_digits]. change (1 >? 0) with true. cbv iota.
    rewrite Z.div_1_r, Z.mul_1_r. unfold wrap.
    rewrite (Z.mod_small rem) by lia. rewrite Z.sub_diag, Z.mod_0_l by lia.
    change (Ascii.eqb zero zero) with true. cbv iota. change (1 / 10) with 0.
    change (0 >? 0) with false. cbv iota.
    rewrite print_number_digit by lia. cbn [app]. eexists. split; [reflexivity|].
    split; [reflexivity|]. split.
    + repeat constructor; unfold is_digit; rewrite digit_char_code by lia; lia.
    + rewrite digits_number_cons, digit_char_code by lia. cbn. lia.
  - destruct fuel as [|fuel]; [lia|].
    pose proof (pow10_pos (S k)) as Hpos. pose proof (pow10_pos k) as Hposk.
    assert (Hval : 0 <= rem / 10 ^ Z.of_nat (S k) <= 9).
    { split; [apply Z.div_pos; lia|].
      apply Z.lt_succ_r. apply Z.div_lt_upper_bound; [lia|].
      rewrite (pow10_succ (S k)) in Hrem. lia. }
    assert (Hmod : wrap 128 (rem - wrap 128 (rem / 10 ^ Z.of_nat (S k) * 10 ^ Z.of_nat (S k)))
                   = rem mod 10 ^ Z.of_nat (S k)).
    { unfold wrap. pose proof (Z.mod_pos_bound rem (10 ^ Z.of_nat (S k)) Hpos).
      pose proof (Z.div_mod rem (10 ^ Z.of_nat (S k)) ltac:(lia)).
      rewrite (Z.mod_small (_ * _)) by nia.
      replace (rem - rem / 10 ^ Z.of_nat (S k) * 10 ^ Z.of_nat (S k))
        with (rem mod 10 ^ Z.of_nat (S k)) by lia.
      apply Z.mod_small. lia. }
    cbn [emit_digits]. rewrite Hmod.
    destruct (Z.gtb_spec (10 ^ Z.of_nat (S k)) 0); [|lia].
    change (Ascii.eqb zero zero) with true. cbv iota.
    replace (10 ^ Z.of_nat (S k) / 10) with (10 ^ Z.of_nat k)
      by (rewrite pow10_succ, Z.mul_comm, Z.div_mul by lia; reflexivity).
    pose proof (Z.mod_pos_bound rem (10 ^ Z.of_nat (S k)) Hpos) as Hm.
    destruct (IH fuel (rem mod 10 ^ Z.of_nat (S k)) (dec_count - 1) emit_group)
      as (s & -> & Hlen & Hdig & Hnum); try lia.
    { rewrite (pow10_succ k) in Hred. lia. }
    rewrite print_number_digit by exact Hval. cbn [app].
    eexists. split; [reflexivity|]. cbn [length]. split; [now rewrite Hlen|]. split.
    + constructor; [|exact Hdig]. unfold is_digit. rewrite digit_char_code by lia. lia.
    + rewrite digits_number_cons, digit_char_code, Hlen, Hnum by lia.
      pose proof (Z.div_mod rem (10 ^ Z.of_nat (S k)) ltac:(lia)). lia.
Qed.

(** Without a separator [format_dec] succeeds with [k + 1] digits, where
    [10 ^ k] is the largest power of ten that is not above the value. *)
Lemma format_dec_plain (value : Z) (groupings : list Z) :
  0 <= value < 2 ^ 128 ->
  exists k s,
    format_dec value zero groupings = Some s
    /\ length s = S k /\ Forall is_digit s /\ digits_number s = value
    /\ value < 10 ^ Z.of_nat (S k)
    /\ (k = 0%nat \/ 10 ^ Z.of_nat k <= value).
Proof.
  intros Hv. unfold format_dec.
  destruct (largest_pow10_spec value Hv 40 0) as (k & Hk & Hk38 & Hlow & Hhigh);
    [left; reflexivity | lia|].
  change (10 ^ Z.of_nat 0) with 1 in Hk. change (Z.of_nat 0 + 1) with 1 in Hk.
  rewrite Hk. destruct (Z.gtb_spec (Z.of_nat k + 1) 39); [lia|].
  change (Ascii.eqb zero zero) with true. cbv iota.
  assert (Hp : 10 ^ Z.of_nat k < 2 ^ 128).
  { destruct Hlow as [->|Hlow]; [vm_compute; reflexivity | lia]. }
  pose proof (pow10_pos k). unfold wrap at 1. rewrite Z.mod_small by lia.
  destruct (emit_digits_plain k 41 value (Z.of_nat k + 1) []) as (s & Hs & Hlen & Hdig & Hnum);
    try lia.
  exists k, s. rewrite Hs. repeat split; try assumption.
Qed.

(** X27: without a separator, [format_dec] writes the decimal digits of
    a 128-bit number, most significant first: the digits spell the number,
    there are as many of them as the number needs, so that only zero starts
    with a zero, and the call never fails. *)
Theorem format_dec_digits (value : Z) (groupings : list Z) :
  0 <= value < 2 ^ 128 ->
  exists s,
    format_dec value zero groupings = Some s
    /\ Forall is_digit s
    /\ digits_number s = value
    /\ value < 10 ^ Z.of_nat (length s)
    /\ (length s = 1%nat \/ 10 ^ (Z.of_nat (length s) - 1) <= value).
Proof.
  intros Hv.
  destruct (format_dec_plain value groupings Hv) as (k & s & Hs & Hlen & Hdig & Hnum & Hhigh & Hlow).
  exists s. rewrite Hlen. repeat split; try assumption.
  destruct Hlow as [->|Hlow]; [left; reflexivity|]. right.
  replace (Z.of_nat (S k) - 1) with (Z.of_nat k) by lia. exact Hlow.
Qed.

(** One turn of the last loop of [format_dec]. *)
Lemma emit_digits_turn (k fuel : nat) (rem dec_count : Z) (group_sep : ascii)
      (emit_group : list bool) :
  0 <= rem < 10 ^ Z.of_nat (S k) -> rem < 2 ^ 128 -> 10 ^ Z.of_nat k < 2 ^ 128 ->
  0 <= rem mod 10 ^ Z.of_nat k < 10 ^ Z.of_nat k
  /\ emit_digits (S fuel) (10 ^ Z.of_nat k) rem dec_count group_sep emit_group
     = match (if Ascii.eqb group_sep zero then Some []
              else if dec_count - 1 <? 0 then None
                   else match nth_error emit_group (Z.to_nat (dec_count - 1)) with
                        | Some emit =>
                            Some (if emit && (10 ^ Z.of_nat k >? 1) then [group_sep] else [])
                        | None => None
                        end),
             emit_digits fuel (10 ^ Z.of_nat k / 10) (rem mod 10 ^ Z.of_nat k)
               (dec_count - 1) group_sep emit_group with
       | Some sep, Some rest => Some (digit_char (rem / 10 ^ Z.of_nat k) :: sep ++ rest)
       | _, _ => None
       end.
Proof.
  intros Hrem H128 Hred. pose proof (pow10_pos k) as Hpos.
  pose proof (Z.mod_pos_bound rem (10 ^ Z.of_nat k) Hpos) as Hm.
  split; [exact Hm|].
  assert (Hval : 0 <= rem / 10 ^ Z.of_nat k <= 9).
  { split; [apply Z.div_pos; lia|].
    apply Z.lt_succ_r. apply Z.div_lt_upper_bound; [lia|].
    rewrite pow10_succ in Hrem. lia. }
  assert (Hmod : wrap 128 (rem - wrap 128 (rem / 10 ^ Z.of_nat k * 10 ^ Z.of_nat k))
                 = rem mod 10 ^ Z.of_nat k).
  { unfold wrap. pose proof (Z.div_mod rem (10 ^ Z.of_nat k) ltac:(lia)).
    rewrite (Z.mod_small (_ * _)) by nia.
    replace (rem - rem / 10 ^ Z.of_nat k * 10 ^ Z.of_nat k)
      with (rem mod 10 ^ Z.of_nat k) by lia.
    apply Z.mod_small. lia. }
  cbn [emit_digits]. rewrite Hmod.
  destruct (Z.gtb_spec (10 ^ Z.of_nat k) 0); [|lia].
  rewrite print_number_digit by exact Hval. reflexivity.
Qed.

(** [emit_group] for [groupings] of one character 3: a separator belongs
    behind every third digit. *)
Lemma emit_groups_three (n : nat) :
  forall c, 0 <= c <= 3 ->
    emit_groups n [3] 0 c
    = Some (map (fun j => (3 <=? c + Z.of_nat j) && ((c + Z.of_nat j) mod 3 =? 0)) (seq 0 n)).
Proof.
  induction n as [|n IH]; intros c Hc; [reflexivity|].
  cbn [emit_groups length]. change (Z.to_nat 0) with O. cbn [nth].
  change (0 <? 0) with false.
  change (0 >? Z.of_nat 1) with false. cbn [orb].
  cbn [seq map]. rewrite <- seq_shift, map_map.
  destruct (Z.gtb_spec (c + 1) 3) as [Hgt|Hle].
  - assert (c = 3) by lia. subst c. change (Z.min (0 + 1) (Z.of_nat 1 - 1)) with 0.
    rewrite IH by lia. cbn [option_map]. f_equal. f_equal. apply map_ext. intros j.
    replace (3 + Z.of_nat (S j)) with (1 + Z.of_nat j + 1 * 3) by lia.
    rewrite Z.mod_add by lia.
    destruct (Z.eqb_spec ((1 + Z.of_nat j) mod 3) 0) as [Hz|Hz];
      [|now rewrite !andb_false_r].
    rewrite !andb_true_r.
    destruct (Z.leb_spec 3 (1 + Z.of_nat j)); destruct (Z.leb_spec 3 (1 + Z.of_nat j + 1 * 3));
      try reflexivity; try lia.
    exfalso. assert (1 + Z.of_nat j = 1 \/ 1 + Z.of_nat j = 2) as [He|He] by lia;
      rewrite He in Hz; discriminate Hz.
  - rewrite IH by lia. cbn [option_map]. f_equal.
    replace (c + Z.of_nat 0) with c by lia.
    destruct (Z.leb_spec 3 c); [lia|]. cbn [andb]. f_equal. apply map_ext. intros j.
    replace (c + 1 + Z.of_nat j) with (c + Z.of_nat (S j)) by lia. reflexivity.
Qed.

(** The last loop of [format_dec] with separators for groups of three. *)
Lemma emit_digits_grouped (group_sep : ascii) (n : nat) (k : nat) :
  group_sep <> zero -> (k < n)%nat ->
  forall (fuel : nat) (rem : Z),
    0 <= rem < 10 ^ Z.of_nat (S k) -> rem < 2 ^ 128 ->
    10 ^ Z.of_nat k < 2 ^ 128 -> (k + 2 <= fuel)%nat ->
    exists s,
      emit_digits fuel (10 ^ Z.of_nat k) rem (Z.of_nat k + 1) zero [] = Some s
      /\ length s = S k
      /\ emit_digits fuel (10 ^ Z.of_nat k) rem (Z.of_nat k + 1) group_sep
           (map (fun j => (3 <=? 0 + Z.of_nat j) && ((0 + Z.of_nat j) mod 3 =? 0)) (seq 0 n))
         = Some (group_thousands group_sep s).
Proof.
  intros Hsep. assert (Hz : Ascii.eqb group_sep zero = false) by now apply Ascii.eqb_neq.
  induction k as [|k IH]; intros Hn fuel rem Hrem H128 Hred Hfuel.
  - destruct fuel as [|[|fuel]]; try lia.
    destruct (emit_digits_turn 0 (S fuel) rem (Z.of_nat 0 + 1) zero [] Hrem H128 Hred)
      as [_ Hp].
    destruct (emit_digits_turn 0 (S fuel) rem (Z.of_nat 0 + 1) group_sep
                (map (fun j => (3 <=? 0 + Z.of_nat j) && ((0 + Z.of_nat j) mod 3 =? 0))
                     (seq 0 n)) Hrem H128 Hred) as [_ Hg].
    rewrite Hp, Hg, Hz. change (Ascii.eqb zero zero) with true.
    change (Z.of_nat 0 + 1 - 1) with 0. change (10 ^ Z.of_nat 0) with 1.
    change (1 / 10) with 0. cbn [emit_digits]. change (0 >? 0) with false.
    change (0 <? 0) with false. cbv iota.
    destruct n as [|n]; [lia|]. cbn [seq map]. change (Z.to_nat 0) with O.
    cbn [nth_error].
    change (1 >? 1) with false. rewrite andb_false_r. cbn [app].
    eexists. split; [reflexivity|]. split; reflexivity.
  - destruct fuel as [|fuel]; [lia|].
    destruct (emit_digits_turn (S k) fuel rem (Z.of_nat (S k) + 1) zero [] Hrem H128 Hred)
      as [Hm Hp].
    destruct (emit_digits_turn (S k) fuel rem (Z.of_nat (S k) + 1) group_sep
                (map (fun j => (3 <=? 0 + Z.of_nat j) && ((0 + Z.of_nat j) mod 3 =? 0))
                     (seq 0 n)) Hrem H128 Hred) as [_ Hg].
    rewrite Hp, Hg, Hz. change (Ascii.eqb zero zero) with true. cbv iota.
    replace (Z.of_nat (S k) + 1 - 1) with (Z.of_nat k + 1) by lia.
    replace (10 ^ Z.of_nat (S k) / 10) with (10 ^ Z.of_nat k)
      by (rewrite pow10_succ, Z.mul_comm, Z.div_mul by lia; reflexivity).
    assert (Hk128 : 10 ^ Z.of_nat k < 2 ^ 128).
    { rewrite (pow10_succ k) in Hred. pose proof (pow10_pos k). lia. }
    destruct (IH ltac:(lia) fuel (rem mod 10 ^ Z.of_nat (S k)))
      as (s & -> & Hlen & ->); try lia.
    destruct (Z.ltb_spec (Z.of_nat k + 1) 0); [lia|].
    replace (Z.to_nat (Z.of_nat k + 1)) with (S k) by lia.
    rewrite nth_error_map, nth_error_seq.
    destruct (Nat.ltb_spec (S k) n); [|lia]. cbn [option_map Nat.add].
    pose proof (pow10_pos k).
    destruct (Z.gtb_spec (10 ^ Z.of_nat (S k)) 1) as [_|Hle];
      [|rewrite pow10_succ in Hle; lia].
    rewrite andb_true_r. cbn [app].
    eexists. split; [reflexivity|]. split; [cbn [length]; now rewrite Hlen|].
    cbn [group_thousands]. rewrite Hlen. f_equal. f_equal.
    change (0 <? S k)%nat with true. cbn [andb].
    replace (0 + Z.of_nat (S k)) with (Z.of_nat (S k)) by lia.
    destruct (Nat.eqb_spec (S k mod 3) 0) as [He|He].
    + assert (Hzm : Z.of_nat (S k) mod 3 = 0).
      { change 3 with (Z.of_nat 3). rewrite <- Nat2Z.inj_mod, He. reflexivity. }
      rewrite Hzm. change (0 =? 0) with true. rewrite andb_true_r.
      destruct (Z.leb_spec 3 (Z.of_nat (S k))) as [_|Hlt]; [reflexivity|].
      exfalso. assert (S k = 1 \/ S k = 2)%nat as [Hk|Hk] by lia;
        rewrite Hk in He; discriminate He.
    + assert (Hzm : Z.of_nat (S k) mod 3 <> 0).
      { change 3 with (Z.of_nat 3). rewrite <- Nat2Z.inj_mod. lia. }
      apply Z.eqb_neq in Hzm. rewrite Hzm, andb_false_r. reflexivity.
Qed.

(** X28: with a separator and groups of three, [format_dec] writes the
    same digits as without, in groups of three counted from the right and
    with the separator between the groups. *)
Theorem format_dec_thousands (value : Z) (group_sep : ascii) :
  0 <= value < 2 ^ 128 -> group_sep <> zero ->
  exists s,
    format_dec value zero [3] = Some s
    /\ format_dec value group_sep [3] = Some (group_thousands group_sep s).
Proof.
  intros Hv Hsep. unfold format_dec.
  destruct (largest_pow10_spec value Hv 40 0) as (k & Hk & Hk38 & Hlow & Hhigh);
    [left; reflexivity | lia|].
  change (10 ^ Z.of_nat 0) with 1 in Hk. change (Z.of_nat 0 + 1) with 1 in Hk.
  rewrite Hk. destruct (Z.gtb_spec (Z.of_nat k + 1) 39); [lia|].
  change (Ascii.eqb zero zero) with true.
  assert (Hz : Ascii.eqb group_sep zero = false) by now apply Ascii.eqb_neq.
  rewrite Hz. cbv iota.
  rewrite emit_groups_three by lia.
  assert (Hp : 10 ^ Z.of_nat k < 2 ^ 128).
  { destruct Hlow as [->|Hlow]; [vm_compute; reflexivity | lia]. }
  pose proof (pow10_pos k). unfold wrap at 1 2. rewrite Z.mod_small by lia.
  replace (Z.to_nat (Z.of_nat k + 1)) with (S k) by lia.
  destruct (emit_digits_grouped group_sep (S k) k Hsep ltac:(lia) 41 value)
    as (s & Hs & _ & Hg); try lia.
  exists s. split; [exact Hs | exact Hg].
Qed.

Lemma divide_by_ten_pow (p k : nat) :
  (p <= k)%nat -> divide_by_ten p (10 ^ Z.of_nat k) = 10 ^ Z.of_nat (k - p).
Proof.
  revert k. induction p as [|p IH]; intros k Hk; cbn [divide_by_ten].
  - now rewrite Nat.sub_0_r.
  - destruct k as [|k]; [lia|].
    rewrite pow10_succ, Z.mul_comm, Z.div_mul by lia. rewrite IH by lia. reflexivity.
Qed.

(** [format_frac] on a scale that is a power of ten: the leading digits of
    the fraction, at most [precision] of them, without the zeros at the
    end. *)
Lemma format_frac_loop_spec (k : nat) :
  forall (fuel p : nat) (rem : Z),
    0 <= rem < 10 ^ Z.of_nat k -> 10 ^ Z.of_nat k < 2 ^ 128 -> (k < fuel)%nat ->
    exists fs,
      format_frac_loop fuel (10 ^ Z.of_nat k) rem (Z.of_nat p) = Some fs
      /\ (length fs <= p)%nat /\ (length fs <= k)%nat
      /\ Forall is_digit fs
      /\ digits_number fs = rem / 10 ^ Z.of_nat (k - length fs)
      /\ (length fs = p \/ rem mod 10 ^ Z.of_nat (k - length fs) = 0)
      /\ (0 < rem -> (0 < p)%nat -> fs <> []).
Proof.
  induction k as [|k IH]; intros fuel p rem Hrem H128 Hfuel.
  - destruct fuel as [|fuel]; [lia|]. change (10 ^ Z.of_nat 0) with 1 in *.
    cbn [format_frac_loop]. change (1 >? 1) with false. cbn [andb].
    exists []. cbn [length Nat.sub]. change (10 ^ Z.of_nat 0) with 1.
    assert (rem = 0) as -> by lia.
    split; [reflexivity|]. split; [lia|]. split; [lia|]. split; [constructor|].
    split; [reflexivity|]. split; [right; reflexivity | intros; lia].
  - destruct fuel as [|fuel]; [lia|]. cbn [format_frac_loop].
    pose proof (pow10_pos k) as Hposk. pose proof (pow10_pos (S k)) as Hpos.
    assert (Hk128 : 10 ^ Z.of_nat k < 2 ^ 128) by (rewrite pow10_succ in H128; lia).
    destruct (Z.gtb_spec (10 ^ Z.of_nat (S k)) 1) as [_|Hle];
      [|rewrite pow10_succ in Hle; lia].
    cbn [andb].
    assert (Hstop : rem = 0 \/ p = O ->
              exists fs : list ascii,
                Some (@nil ascii) = Some fs
                /\ (length fs <= p)%nat /\ (length fs <= S k)%nat
                /\ Forall is_digit fs
                /\ digits_number fs = rem / 10 ^ Z.of_nat (S k - length fs)
                /\ (length fs = p \/ rem mod 10 ^ Z.of_nat (S k - length fs) = 0)
                /\ (0 < rem -> (0 < p)%nat -> fs <> [])).
    { intros Hs. exists []. cbn [length Nat.sub].
      rewrite Z.div_small by lia. rewrite Z.mod_small by lia.
      split; [reflexivity|]. split; [lia|]. split; [lia|]. split; [constructor|].
      split; [reflexivity|]. split; [lia | intros; lia]. }
    destruct (Z.gtb_spec rem 0) as [Hrpos|Hrz]; cbn [andb];
      [|apply Hstop; left; lia].
    destruct (Z.gtb_spec (Z.of_nat p) 0) as [Hppos|Hpz]; [|apply Hstop; right; lia].
    destruct p as [|p]; [lia|].
    replace (10 ^ Z.of_nat (S k) / 10) with (10 ^ Z.of_nat k)
      by (rewrite pow10_succ, Z.mul_comm, Z.div_mul by lia; reflexivity).
    destruct (Z.eqb_spec (10 ^ Z.of_nat k) 0); [lia|].
    assert (Hval : 0 <= rem / 10 ^ Z.of_nat k <= 9).
    { split; [apply Z.div_pos; lia|].
      apply Z.lt_succ_r. apply Z.div_lt_upper_bound; [lia|].
      rewrite pow10_succ in Hrem. lia. }
    pose proof (Z.mod_pos_bound rem (10 ^ Z.of_nat k) Hposk) as Hm.
    pose proof (Z.div_mod rem (10 ^ Z.of_nat k) ltac:(lia)) as Hdm.
    assert (Hmod : wrap 128 (rem - wrap 128 (rem / 10 ^ Z.of_nat k * 10 ^ Z.of_nat k))
                   = rem mod 10 ^ Z.of_nat k).
    { unfold wrap. rewrite (Z.mod_small (_ * _)) by nia.
      replace (rem - rem / 10 ^ Z.of_nat k * 10 ^ Z.of_nat k)
        with (rem mod 10 ^ Z.of_nat k) by lia.
      apply Z.mod_small. lia. }
    rewrite Hmod. replace (Z.of_nat (S p) - 1) with (Z.of_nat p) by lia.
    destruct (IH fuel p (rem mod 10 ^ Z.of_nat k))
      as (fs & -> & Hlp & Hlk & Hdig & Hnum & Hend & _); try lia.
    rewrite print_number_digit by exact Hval. cbn [app].
    eexists. split; [reflexivity|]. cbn [length]. rewrite Nat.sub_succ.
    split; [lia|]. split; [lia|]. split.
    { constructor; [|exact Hdig]. unfold is_digit. rewrite digit_char_code by lia. lia. }
    assert (Hsplit : 10 ^ Z.of_nat k
                     = 10 ^ Z.of_nat (length fs) * 10 ^ Z.of_nat (k - length fs)).
    { rewrite <- Z.pow_add_r by lia. f_equal. lia. }
    pose proof (pow10_pos (k - length fs)) as Hq.
    assert (Hparts : rem / 10 ^ Z.of_nat (k - length fs)
                     = rem / 10 ^ Z.of_nat k * 10 ^ Z.of_nat (length fs)
                       + rem mod 10 ^ Z.of_nat k / 10 ^ Z.of_nat (k - length fs)
                     /\ rem mod 10 ^ Z.of_nat (k - length fs)
                        = (rem mod 10 ^ Z.of_nat k) mod 10 ^ Z.of_nat (k - length fs)).
    { remember (rem / 10 ^ Z.of_nat k) as a eqn:Ea.
      remember (rem mod 10 ^ Z.of_nat k) as b eqn:Eb.
      clear Ea Eb Hnum Hend. rewrite Hsplit in Hdm.
      remember (10 ^ Z.of_nat (length fs)) as t eqn:Et.
      remember (10 ^ Z.of_nat (k - length fs)) as q eqn:Eq.
      assert (Hr : rem = b + a * t * q) by (rewrite Hdm; ring).
      rewrite Hr. rewrite Z.div_add, Z.mod_add by lia. split; [ring | reflexivity]. }
    destruct Hparts as [Hpd Hpm].
    split; [|split].
    + rewrite digits_number_cons, digit_char_code, Hnum by lia. rewrite Hpd. ring.
    + destruct Hend as [Hend|Hend]; [left; lia|]. right. rewrite Hpm. exact Hend.
    + intros _ _. discriminate.
Qed.

(** X29: [format_balance] on a decimal scale, without grouping.  An
    amount that is not zero but below the last decimal place that is shown
    is written as ["< 0.0...1"]; any other amount is written as its whole
    part followed, when digits of the fraction are written, by the decimal
    point and those digits: they are the leading digits of the fraction, at
    most [precision] of them, cut off and not rounded, and what is left out
    before [precision] digits are reached is zero.  No division by zero
    occurs. *)
Theorem format_balance_truncates (k p : nat) (balance : Z)
        (thousands_sep decimal_point : ascii) (grouping : list Z) :
  (p <= k)%nat -> (k <= 38)%nat -> 0 <= balance < 2 ^ 128 ->
  let scale := 10 ^ Z.of_nat k in
  let frac_part := balance mod scale in
  let r := format_balance balance scale (Z.of_nat p) false thousands_sep decimal_point
             grouping in
  (0 < balance < 10 ^ Z.of_nat (k - p) ->
   r = Some (list_ascii_of_string "< "
             ++ (if (0 <? p)%nat
                 then ("0" :: decimal_point :: repeat "0" (p - 1))%char
                 else [])
             ++ list_ascii_of_string "1"))
  /\ (balance = 0 \/ 10 ^ Z.of_nat (k - p) <= balance ->
      exists ds fs,
        format_dec (balance / scale) zero grouping = Some ds
        /\ r = Some (ds ++ match fs with [] => [] | _ => decimal_point :: fs end)
        /\ (length fs <= p)%nat /\ Forall is_digit fs
        /\ digits_number fs = frac_part / 10 ^ Z.of_nat (k - length fs)
        /\ (length fs = p \/ frac_part mod 10 ^ Z.of_nat (k - length fs) = 0)).
Proof.
  intros Hpk Hk38 Hb scale frac_part r.
  pose proof (pow10_pos k) as Hpos. pose proof (pow10_pos (k - p)) as Hposp.
  assert (Hle : 10 ^ Z.of_nat (k - p) <= 10 ^ Z.of_nat k)
    by (apply Z.pow_le_mono_r; lia).
  assert (Hs128 : 10 ^ Z.of_nat k < 2 ^ 128).
  { assert (10 ^ Z.of_nat k <= 10 ^ 38) by (apply Z.pow_le_mono_r; lia).
    assert (10 ^ 38 < 2 ^ 128) by (vm_compute; reflexivity). lia. }
  pose proof (Z.mod_pos_bound balance scale Hpos) as Hfrac. fold frac_part in Hfrac.
  subst r. unfold format_balance. fold scale.
  destruct (Z.eqb_spec scale 0) as [Hz|_]; [subst scale; lia|].
  rewrite Nat2Z.id. subst scale. rewrite divide_by_ten_pow by exact Hpk.
  fold frac_part.
  destruct (Z.eqb_spec (10 ^ Z.of_nat (k - p)) 0) as [Hz|_]; [lia|].
  rewrite andb_false_r. split.
  - intros Hsmall.
    assert (Hint : balance / 10 ^ Z.of_nat k = 0) by (apply Z.div_small; lia).
    assert (Hfr : frac_part = balance) by (subst frac_part; apply Z.mod_small; lia).
    rewrite Hint, Hfr. change (0 =? 0) with true.
    destruct (Z.gtb_spec balance 0); [|lia]. cbn [andb].
    rewrite (Z.div_small balance) by lia. change (0 =? 0) with true. cbv iota.
    destruct p as [|p].
    + reflexivity.
    + destruct (Z.gtb_spec (Z.of_nat (S p)) 0); [|lia].
      replace (Z.to_nat (Z.of_nat (S p) - 1)) with p by lia.
      cbn [Nat.ltb Nat.leb Nat.sub]. rewrite Nat.sub_0_r. reflexivity.
  - intros Hbig.
    assert (Hint : 0 <= balance / 10 ^ Z.of_nat k < 2 ^ 128).
    { split; [apply Z.div_pos; lia|]. apply Z.div_lt_upper_bound; nia. }
    destruct (format_dec_plain (balance / 10 ^ Z.of_nat k) grouping Hint)
      as (kd & ds & Hds & _).
    assert (Hfirst : (balance / 10 ^ Z.of_nat k =? 0) && (frac_part >? 0)
                     && (frac_part / 10 ^ Z.of_nat (k - p) =? 0) = false).
    { destruct Hbig as [->|Hbig].
      - subst frac_part. rewrite Z.mod_0_l by lia. now rewrite andb_false_r.
      - destruct (Z.eqb_spec (balance / 10 ^ Z.of_nat k) 0) as [Hi|Hi]; [|reflexivity].
        apply Z.div_small_iff in Hi; [|lia]. destruct Hi as [Hi|Hi]; [|lia].
        assert (Hfr : frac_part = balance) by (subst frac_part; apply Z.mod_small; lia).
        rewrite Hfr. destruct (Z.eqb_spec (balance / 10 ^ Z.of_nat (k - p)) 0) as [Hd|Hd];
          [|now rewrite andb_false_r].
        apply Z.div_small_iff in Hd; lia. }
    rewrite Hfirst. cbn [andb]. rewrite Hds.
    destruct (format_frac_loop_spec k 40 p frac_part)
      as (fs & Hfs & Hlp & _ & Hdig & Hnum & Hend & Hne); try lia.
    destruct ((Z.of_nat p >? 0) && (frac_part >? 0)) eqn:Hshow.
    + apply andb_true_iff in Hshow as [Hp Hf].
      apply Z.gtb_lt in Hp, Hf. unfold format_frac. rewrite Hfs.
      exists ds, fs. split; [reflexivity|].
      specialize (Hne Hf ltac:(lia)). destruct fs as [|c fs]; [congruence|].
      repeat split; assumption.
    + exists ds, []. cbn [length Nat.sub]. rewrite Nat.sub_0_r, app_nil_r.
      rewrite Z.div_small, Z.mod_small by lia.
      split; [reflexivity|]. split; [reflexivity|]. split; [lia|].
      split; [constructor|]. split; [reflexivity|].
      apply andb_false_iff in Hshow as [Hp|Hf].
      * left. rewrite Z.gtb_ltb in Hp. apply Z.ltb_ge in Hp. lia.
      * right. rewrite Z.gtb_ltb in Hf. apply Z.ltb_ge in Hf. lia.
Qed.

End FormatFacts.

Section FormatWitness.

Import Format.

Lemma format_dec_digits_witness :
  exists s,
    format_dec 1234567 zero [] = Some s
    /\ Forall is_digit s
    /\ digits_number s = 1234567
    /\ 1234567 < 10 ^ Z.of_nat (length s)
    /\ (length s = 1%nat \/ 10 ^ (Z.of_nat (length s) - 1) <= 1234567).
Proof. apply (format_dec_digits 1234567 []). lia. Defined.

Lemma format_dec_thousands_witness :
  exists s,
    format_dec 1234567 zero [3] = Some s
    /\ format_dec 1234567 "," [3] = Some (group_thousands "," s).
Proof. apply (format_dec_thousands 1234567 ","); [lia | discriminate]. Defined.

Lemma format_balance_truncates_witness :
  format_balance (10 ^ 20) (10 ^ Z.of_nat 24) (Z.of_nat 2) false "," "." [3]
  = Some (list_ascii_of_string "< 0.01")
  /\ exists ds fs,
       format_dec (1999 * 10 ^ 21 / 10 ^ Z.of_nat 24) zero [3] = Some ds
       /\ format_balance (1999 * 10 ^ 21) (10 ^ Z.of_nat 24) (Z.of_nat 2) false "," "." [3]
          = Some (ds ++ match fs with [] => [] | _ => "."%char :: fs end)
       /\ (length fs <= 2)%nat /\ Forall is_digit fs
       /\ digits_number fs
          = (1999 * 10 ^ 21) mod 10 ^ Z.of_nat 24 / 10 ^ Z.of_nat (24 - length fs)
       /\ (length fs = 2%nat
           \/ ((1999 * 10 ^ 21) mod 10 ^ Z.of_nat 24) mod 10 ^ Z.of_nat (24 - length fs) = 0).
Proof.
  split.
  - apply (proj1 (format_balance_truncates 24 2 (10 ^ 20) "," "." [3]
                    ltac:(lia) ltac:(lia) ltac:(lia))).
    vm_compute. split; reflexivity.
  - apply (proj2 (format_balance_truncates 24 2 (1999 * 10 ^ 21) "," "." [3]
                    ltac:(lia) ltac:(lia) ltac:(lia))).
    right. vm_compute. discriminate.
Defined.

(** The amounts 1234567 and 1.999, as they are written. *)
Example format_examples :
  format_dec 1234567 "," [3] = Some (list_ascii_of_string "1,234,567")
  /\ format_dec 0 zero [] = Some (list_ascii_of_string "0")
  /\ format_balance (1999 * 10 ^ 21) (10 ^ 24) 2 true "," "." [3]
     = Some (list_ascii_of_string "1.99")
  /\ format_balance (1234567 * 10 ^ 24) (10 ^ 24) 2 true "," "." [3]
     = Some (list_ascii_of_string "1,234,567")
  /\ format_balance 7 5 1 false "," "." [3] = None.
Proof. repeat split; vm_compute; reflexivity. Qed.

End FormatWitness.
